(** * Seeded-growth inversion of potential-field data (fatiando)

    A shallow embedding of [fatiando/potential/harvester.py] (data modules,
    seeds and the growth solver) and of the seeded growth of the matrix
    solver, [grow] in [fatiando/inversion/pgrav3d.py].

    Conventions of the embedding.
    - Python floats and numpy array entries are exact rationals ([Qc]);
      rounding is outside the model, but for the module [float64], which has
      the in-place addition on the float64 numbers themselves.  A numpy array
      of one dimension is a [list Qc].
    - Python integers (mesh indices, shape entries, the norm order) are [Z];
      [/] and [%] on them are the floor division and modulus of Python 2,
      which [Z.div] and [Z.modulo] agree with for a positive divisor.
    - A [dict] is a [gmap]; a Python list is a [list].
    - A raised exception is [Raise e]; a call that returns [v] is [Ok v].
      [SeedsTooClose i j] is the [AttributeError("Seeds %d and %d are too
      close.")] of the matrix solver.  [OutOfFuel] is no exception of Python:
      the model of a loop over a list that grows while it is traversed
      returns it when the bound given for its passes is used up.
    - Objects that are shared and mutated (the mesh cells, the data modules,
      the seeds of the list handed to the solver) live in explicit state that
      every operation takes and returns. *)

From Stdlib Require Import QArith Qcanon Qcabs.
From Stdlib Require PrimFloat.
From stdpp Require Import base numbers option list gmap strings.

Local Open Scope Z_scope.

(** ** Exceptions *)

Inductive exn : Type :=
  | ValueError
  | KeyError
  | IndexError
  | AttributeError
  | NotImplementedError
  | AssertionError
  | TypeError
  | SeedsTooClose (i j : nat)
  | OutOfFuel.

Inductive result (A : Type) : Type :=
  | Raise (e : exn)
  | Ok (a : A).
Arguments Raise {A} e.
Arguments Ok {A} a.

#[global] Instance result_ret : MRet result := λ A a, Ok a.
#[global] Instance result_bind : MBind result := λ A B f m,
  match m with
  | Raise e => Raise e
  | Ok a => f a
  end.

(** [d[k]] on a dict: [KeyError] when the key is missing. *)
Definition getitem {K V} `{Countable K} (d : gmap K V) (k : K) : result V :=
  match d !! k with
  | Some v => Ok v
  | None => Raise KeyError
  end.

(** [l[i]] on a list, for an index that is not negative. *)
Definition list_getitem {A} (l : list A) (i : nat) : result A :=
  match l !! i with
  | Some v => Ok v
  | None => Raise IndexError
  end.

(** [l.remove(x)]: drops the first occurrence, [ValueError] when there is
    none. *)
Fixpoint py_remove (x : Z) (l : list Z) : result (list Z) :=
  match l with
  | [] => Raise ValueError
  | y :: l' =>
      if decide (y = x) then Ok l'
      else l'' ← py_remove x l'; Ok (y :: l'')
  end.

(** ** numpy arithmetic on arrays of one dimension *)

Definition Qc_sum (v : list Qc) : Qc := foldl Qcplus 0%Qc v.

(** [a op b]: equal lengths combine pointwise, a length-one operand is
    broadcast, any other pair of shapes is a [ValueError]. *)
Definition np_binop (f : Qc → Qc → Qc) (a b : list Qc) : result (list Qc) :=
  if decide (length a = length b) then Ok (zip_with f a b)
  else match a, b with
       | [x], _ => Ok (f x <$> b)
       | _, [y] => Ok ((λ x, f x y) <$> a)
       | _, _ => Raise ValueError
       end.

(** [a += b]: in place, so the result has the shape of [a]. *)
Definition np_iadd (a b : list Qc) : result (list Qc) :=
  if decide (length a = length b) then Ok (zip_with Qcplus a b)
  else match b with
       | [y] => Ok ((λ x, x + y)%Qc <$> a)
       | _ => Raise ValueError
       end.

(** ** The mesh *)

(** A cell of the mesh: its bounds and its dictionary of physical
    properties. *)
Record Prism : Type := mkPrism {
  x1 : Qc; x2 : Qc; y1 : Qc; y2 : Qc; z1 : Qc; z2 : Qc;
  cell_props : gmap string Qc
}.

(** Modelled from the spec: the mesh class (fatiando.mesher.ddd.PrismMesh) is
    not part of the sources.  The spec describes it as an integer-indexable
    collection of cell records exposing the bounds of each cell, a [shape]
    triple (nz, ny, nx), a [dims] triple, and possibly absent (masked)
    entries.  [cells m !! i = None] is a masked cell ([mesh[i] is None]);
    [size] is the number of cells of the grid. *)
Record PrismMesh : Type := mkMesh {
  shape : Z * Z * Z;
  dims : Qc * Qc * Qc;
  cells : gmap Z Prism
}.

Definition size (m : PrismMesh) : Z :=
  let '(nz, ny, nx) := shape m in nz * ny * nx.

(** Modelled from the spec: [cell.addprop(p, v)] of the absent mesh module
    sets property [p] of the cell record to [v]. *)
Definition addprop (p : string) (v : Qc) (c : Prism) : Prism :=
  mkPrism (x1 c) (x2 c) (y1 c) (y2 c) (z1 c) (z2 c) (<[p := v]> (cell_props c)).

(** [for p in props: cell.addprop(p, props[p])] on the cell object that
    [mesh[index]] returned.  The model takes that object to be the one the
    mesh stores, so that the write is seen by a later [mesh[index]]; the
    sources do not say whether the mesh class hands out its own objects or
    copies of them. *)
Definition addprops (props : gmap string Qc) (c : Prism) : Prism :=
  foldl (λ c pv, addprop pv.1 pv.2 c) c (map_to_list props).

Definition mesh_addprops (index : Z) (props : gmap string Qc) (m : PrismMesh)
    : PrismMesh :=
  mkMesh (shape m) (dims m) (alter (addprops props) index (cells m)).

(** Modelled from the spec: [mesh[index]] for an index of the grid is the
    cell record stored there, or [None] for a masked cell.  For an index off
    the grid, negative ones included, the model raises [IndexError]; the
    sources do not say what the mesh class does there. *)
Definition mesh_getitem (m : PrismMesh) (index : Z) : result (option Prism) :=
  if bool_decide (0 ≤ index < size m) then Ok (cells m !! index)
  else Raise IndexError.

(** [cell = mesh[index]] followed by the loop [for p in props:
    cell.addprop(p, props[p])]: on a masked cell the first [addprop] is an
    [AttributeError]; with no property the loop body never runs. *)
Definition getitem_addprops (m : PrismMesh) (index : Z) (props : gmap string Qc)
    : result PrismMesh :=
  c ← mesh_getitem m index;
  match c with
  | Some _ => Ok (mesh_addprops index props m)
  | None => if decide (props = ∅) then Ok m else Raise AttributeError
  end.

(** An element handed to a data module: [[index, props]]. *)
Definition Element : Type := Z * gmap string Qc.

(** ** Data modules *)

(** The classes of data module; every class but [DMPrism] sets
    [prop_type = 'density'] in its constructor. *)
Inductive DMClass : Type :=
  | DMPrism | DMPrismGz | DMPrismGxx | DMPrismGxy | DMPrismGxz
  | DMPrismGyy | DMPrismGyz | DMPrismGzz | DMPrismI2.

#[global] Instance DMClass_eq_dec : EqDecision DMClass.
Proof. solve_decision. Defined.

(** The attributes of a data module.  [dm_estimate] is the list of cells
    that [DMPrismI2] accumulates; it holds the cell objects of the mesh, here
    their indices in the mesh that owns them. *)
Record DM : Type := mkDM {
  dm_class : DMClass;
  data : list Qc;
  predicted : list Qc;
  xp : list Qc; yp : list Qc; zp : list Qc;
  norm : Z;
  weight : Qc;
  effect : gmap Z (list Qc);
  prop_type : option string;
  dm_estimate : list Z
}.

Definition set_predicted (p : list Qc) (dm : DM) : DM :=
  mkDM (dm_class dm) (data dm) p (xp dm) (yp dm) (zp dm) (norm dm) (weight dm)
       (effect dm) (prop_type dm) (dm_estimate dm).
Definition set_effect (e : gmap Z (list Qc)) (dm : DM) : DM :=
  mkDM (dm_class dm) (data dm) (predicted dm) (xp dm) (yp dm) (zp dm) (norm dm)
       (weight dm) e (prop_type dm) (dm_estimate dm).
Definition set_weight (w : Qc) (dm : DM) : DM :=
  mkDM (dm_class dm) (data dm) (predicted dm) (xp dm) (yp dm) (zp dm) (norm dm)
       w (effect dm) (prop_type dm) (dm_estimate dm).
Definition set_prop_type (p : option string) (dm : DM) : DM :=
  mkDM (dm_class dm) (data dm) (predicted dm) (xp dm) (yp dm) (zp dm) (norm dm)
       (weight dm) (effect dm) p (dm_estimate dm).
Definition set_dm_estimate (l : list Z) (dm : DM) : DM :=
  mkDM (dm_class dm) (data dm) (predicted dm) (xp dm) (yp dm) (zp dm) (norm dm)
       (weight dm) (effect dm) (prop_type dm) l.

(** [self.prop_type in props] *)
Definition tracked (dm : DM) (props : gmap string Qc) : bool :=
  match prop_type dm with
  | Some p => bool_decide (is_Some (props !! p))
  | None => false
  end.

Section DataModules.

(** The square root of [math] and [numpy], and the forward kernels of
    [fatiando.potential.prism] ([gz], [gxx], ...): [pot_prism f xp yp zp
    prisms dens] is the field component [f] of the given prisms at the
    observation points, with the density override [dens] when given.  Both
    are outside the sources. *)
Variable sqrt : Qc → Qc.
Variable pot_prism :
  string → list Qc → list Qc → list Qc → list (option Prism) → option Qc →
  list Qc.

(** [numpy.linalg.norm(v, ord)] for the two orders the constructor admits. *)
Definition linalg_norm (v : list Qc) (ord : Z) : Qc :=
  if decide (ord = 1) then Qc_sum (Qcabs <$> v)
  else sqrt (Qc_sum ((λ x, x * x)%Qc <$> v)).

(** [DMPrism.__init__].  The test on the lengths is the chained comparison
    [len(xp) != len(yp) != len(zp) != len(data)], that is the conjunction of
    the three adjacent inequalities. *)
Definition DMPrism_init (data_ xp_ yp_ zp_ : list Qc) (norm_ : Z) : result DM :=
  if negb (bool_decide (norm_ ∈ [1; 2])) then Raise ValueError
  else if bool_decide (length xp_ ≠ length yp_)
          && bool_decide (length yp_ ≠ length zp_)
          && bool_decide (length zp_ ≠ length data_)
  then Raise ValueError
  else Ok (mkDM DMPrism data_ ((λ _, 0%Qc) <$> data_) xp_ yp_ zp_ norm_
             (1 / linalg_norm data_ norm_)%Qc ∅ None []).



(** The kernel each class calls in [_effect_of_prism]; [DMPrism] leaves the
    method abstract and [DMPrismI2] does not override it. *)
Definition field_of (c : DMClass) : option string :=
  match c with
  | DMPrismGz => Some "gz" | DMPrismGxx => Some "gxx" | DMPrismGxy => Some "gxy"
  | DMPrismGxz => Some "gxz" | DMPrismGyy => Some "gyy" | DMPrismGyz => Some "gyz"
  | DMPrismGzz => Some "gzz"
  | DMPrism | DMPrismI2 => None
  end%string.

(** [props[self.prop_type]] *)
Definition tracked_value (dm : DM) (props : gmap string Qc) : result Qc :=
  match prop_type dm with
  | Some p => getitem props p
  | None => Raise KeyError
  end.

Definition _effect_of_prism (dm : DM) (index : Z) (props : gmap string Qc)
    (mesh : PrismMesh) : result (list Qc) :=
  match field_of (dm_class dm) with
  | None => Raise NotImplementedError
  | Some f =>
      c ← mesh_getitem mesh index;
      d ← tracked_value dm props;
      Ok (pot_prism f (xp dm) (yp dm) (zp dm) [c] (Some d))
  end.

(** [DMPrism.misfit] *)
Definition misfit (dm : DM) (predicted_ : list Qc) : result Qc :=
  r ← np_binop Qcminus (data dm) predicted_;
  Ok (weight dm * linalg_norm r (norm dm))%Qc.

(** [if index not in self.effect: self.effect[index] =
    self._effect_of_prism(index, props)] *)
Definition cache_effect (dm : DM) (index : Z) (props : gmap string Qc)
    (mesh : PrismMesh) : result DM :=
  match effect dm !! index with
  | Some _ => Ok dm
  | None =>
      e ← _effect_of_prism dm index props mesh;
      Ok (set_effect (<[index := e]> (effect dm)) dm)
  end.

(** [DMPrism.update] *)
Definition DMPrism_update (dm : DM) (element : Element) (mesh : PrismMesh)
    : result DM :=
  let '(index, props) := element in
  if tracked dm props then
    dm1 ← cache_effect dm index props mesh;
    e ← getitem (effect dm1) index;
    p ← np_iadd (predicted dm1) e;
    Ok (set_effect (delete index (effect dm1)) (set_predicted p dm1))
  else Ok dm.

(** [DMPrism.testdrive]: the misfit, and the module with its cache filled. *)
Definition DMPrism_testdrive (dm : DM) (element : Element) (mesh : PrismMesh)
    : result (Qc * DM) :=
  let '(index, props) := element in
  if negb (tracked dm props) then
    m ← misfit dm (predicted dm); Ok (m, dm)
  else
    dm1 ← cache_effect dm index props mesh;
    e ← getitem (effect dm1) index;
    tmp ← np_binop Qcplus (predicted dm1) e;
    m ← misfit dm1 tmp;
    Ok (m, dm1).

(** [DMPrismI2._effect_of_cells], on the cell objects as they are when the
    call is made. *)
Definition _effect_of_cells (dm : DM) (cs : list (option Prism))
    : result (list Qc) :=
  let k f := pot_prism f (xp dm) (yp dm) (zp dm) cs None in
  let gxx := k "gxx"%string in let gxy := k "gxy"%string in
  let gxz := k "gxz"%string in let gyy := k "gyy"%string in
  let gyz := k "gyz"%string in let gzz := k "gzz"%string in
  let mul := np_binop Qcmult in
  let sub := np_binop Qcminus in
  let add := np_binop Qcplus in
  a1 ← mul gyy gzz; a3 ← sub a1 ((λ x, x * x)%Qc <$> gyz); t1 ← mul gxx a3;
  b1 ← mul gyz gxz; b2 ← mul gxy gzz; b3 ← sub b1 b2; t2 ← mul gxy b3;
  c1 ← mul gxy gyz; c2 ← mul gxz gyy; c3 ← sub c1 c2; t3 ← mul gxz c3;
  s ← add t1 t2;
  add s t3.

(** The cell objects a list of references stands for. *)
Definition deref (mesh : PrismMesh) (l : list Z) : list (option Prism) :=
  (λ i, cells mesh !! i) <$> l.

(** [DMPrismI2.update]: the cell object is written to, appended to the
    accumulated estimate, and the prediction is recomputed from the whole
    estimate. *)
Definition DMPrismI2_update (dm : DM) (element : Element) (mesh : PrismMesh)
    : result (DM * PrismMesh) :=
  let '(index, props) := element in
  mesh1 ← getitem_addprops mesh index props;
  let est := dm_estimate dm ++ [index] in
  p ← _effect_of_cells dm (deref mesh1 est);
  Ok (set_predicted p (set_dm_estimate est dm), mesh1).

(** [DMPrismI2.testdrive] *)
Definition DMPrismI2_testdrive (dm : DM) (element : Element) (mesh : PrismMesh)
    : result (Qc * DM * PrismMesh) :=
  let '(index, props) := element in
  if negb (tracked dm props) then
    m ← misfit dm (predicted dm); Ok (m, dm, mesh)
  else
    mesh1 ← getitem_addprops mesh index props;
    tmp ← _effect_of_cells dm (deref mesh1 (dm_estimate dm ++ [index]));
    m ← misfit dm tmp;
    Ok (m, dm, mesh1).

(** Method dispatch on the class of the module. *)
Definition update (dm : DM) (element : Element) (mesh : PrismMesh)
    : result (DM * PrismMesh) :=
  match dm_class dm with
  | DMPrismI2 => DMPrismI2_update dm element mesh
  | _ => dm' ← DMPrism_update dm element mesh; Ok (dm', mesh)
  end.

Definition testdrive (dm : DM) (element : Element) (mesh : PrismMesh)
    : result (Qc * DM * PrismMesh) :=
  match dm_class dm with
  | DMPrismI2 => DMPrismI2_testdrive dm element mesh
  | _ => '(m, dm') ← DMPrism_testdrive dm element mesh; Ok (m, dm', mesh)
  end.

End DataModules.

(** ** Seeds *)

(** The attributes of a [SeedPrism].  [reldist] records which of the two
    distance methods [_get_distances] is bound to; [ijk] is set only then.
    The mesh that every seed refers to is the shared mesh of the run. *)
Record SeedPrism : Type := mkSeed {
  kind : string;
  props : gmap string Qc;
  delta : Qc;
  index : Z;
  estimate : list Z;
  seed_weight : Qc;
  neighbors : list Z;
  reg : Qc;
  distance : gmap Z Qc;
  reldist : bool;
  ijk : option (Z * Z * Z);
  mu : Qc
}.

Definition set_estimate (l : list Z) (s : SeedPrism) : SeedPrism :=
  mkSeed (kind s) (props s) (delta s) (index s) l (seed_weight s) (neighbors s)
         (reg s) (distance s) (reldist s) (ijk s) (mu s).
Definition set_neighbors (l : list Z) (s : SeedPrism) : SeedPrism :=
  mkSeed (kind s) (props s) (delta s) (index s) (estimate s) (seed_weight s) l
         (reg s) (distance s) (reldist s) (ijk s) (mu s).
Definition set_reg (r : Qc) (s : SeedPrism) : SeedPrism :=
  mkSeed (kind s) (props s) (delta s) (index s) (estimate s) (seed_weight s)
         (neighbors s) r (distance s) (reldist s) (ijk s) (mu s).
Definition set_distance (d : gmap Z Qc) (s : SeedPrism) : SeedPrism :=
  mkSeed (kind s) (props s) (delta s) (index s) (estimate s) (seed_weight s)
         (neighbors s) (reg s) d (reldist s) (ijk s) (mu s).

(** [self.seed], the element [[self.index, self.props]]. *)
Definition seed (s : SeedPrism) : Element := (index s, props s).

Fixpoint foldlM {A B} (f : B → A → result B) (b : B) (l : list A) : result B :=
  match l with
  | [] => Ok b
  | a :: l' => b' ← f b a; foldlM f b' l'
  end.

(** The grid coordinates [i, j, k] of a linear index, as
    [SeedPrism.__init__] and [_get_relative_distances] compute them. *)
Definition to_ijk (mesh : PrismMesh) (n : Z) : Z * Z * Z :=
  let '(nz, ny, nx) := shape mesh in
  let k := n / (nx * ny) in
  let j := (n - k * (nx * ny)) / nx in
  let i := n - k * (nx * ny) - j * nx in
  (i, j, k).

Section Seeds.

Variable sqrt : Qc → Qc.

(** [SeedPrism.__init__], from the point where [_get_index] has resolved the
    seed point to the cell [index_] of the mesh. *)
Definition SeedPrism_init (index_ : Z) (props_ : gmap string Qc)
    (mesh : PrismMesh) (mu_ delta_ : Qc) (reldist_ : bool) : SeedPrism :=
  let '(nz, ny, nx) := shape mesh in
  let '(dx, dy, dz) := dims mesh in
  let w_abs := (1 / ((Qc_of_Z nx * dx + Qc_of_Z ny * dy + Qc_of_Z nz * dz)
                     / Qc_of_Z 3))%Qc in
  let w_rel := (1 / (Qc_of_Z (nx + ny + nz) / Qc_of_Z 3))%Qc in
  let w := if reldist_ then w_rel else w_abs in
  mkSeed "prism" props_ delta_ index_ [index_] w [] 0%Qc ∅ reldist_
         (if reldist_ then Some (to_ijk mesh index_) else None)
         (mu_ * w)%Qc.

(** [_get_relative_distances] *)
Definition _get_relative_distances (self : SeedPrism) (mesh : PrismMesh)
    (nbrs : list Z) : result SeedPrism :=
  foldlM (λ s n,
    let '(inbr, jnbr, knbr) := to_ijk mesh n in
    match ijk s with
    | None => Raise AttributeError
    | Some (isd, jsd, ksd) =>
        let dx := isd - inbr in
        let dy := jsd - jnbr in
        let dz := ksd - knbr in
        Ok (set_distance
              (<[n := sqrt (Qc_of_Z (dx ^ 2 + dy ^ 2 + dz ^ 2))]> (distance s)) s)
    end) self nbrs.

(** [_get_absolute_distances] *)
Definition _get_absolute_distances (self : SeedPrism) (mesh : PrismMesh)
    (nbrs : list Z) : result SeedPrism :=
  scell ← mesh_getitem mesh (index self);
  foldlM (λ s n,
    ncell ← mesh_getitem mesh n;
    match ncell, scell with
    | Some nc, Some sc =>
        let dx := Qcabs (x1 nc - x1 sc) in
        let dy := Qcabs (y1 nc - y1 sc) in
        let dz := Qcabs (z1 nc - z1 sc) in
        Ok (set_distance
              (<[n := sqrt (dx * dx + dy * dy + dz * dz)%Qc]> (distance s)) s)
    | _, _ => Raise AttributeError
    end) self nbrs.

Definition _get_distances (self : SeedPrism) (mesh : PrismMesh)
    (nbrs : list Z) : result SeedPrism :=
  if reldist self then _get_relative_distances self mesh nbrs
  else _get_absolute_distances self mesh nbrs.

(** The tail of [_find_neighbors]: [[i for i in indexes if i is not None
    and self.mesh[i] is not None]]. *)
Fixpoint unmasked (mesh : PrismMesh) (indexes : list (option Z))
    : result (list Z) :=
  match indexes with
  | [] => Ok []
  | None :: rest => unmasked mesh rest
  | Some i :: rest =>
      c ← mesh_getitem mesh i;
      r ← unmasked mesh rest;
      Ok (if c is Some _ then i :: r else r)
  end.

(** The six face neighbours of [_find_neighbors], [None] where the test of
    the source fails. *)
Definition face_indexes (mesh : PrismMesh) (n : Z) (up down : bool)
    : list (option Z) :=
  let '(nz, ny, nx) := shape mesh in
  let above := if up && bool_decide (n - nx * ny > 0)
               then Some (n - nx * ny) else None in
  let bellow := if down && bool_decide (n + nx * ny < size mesh)
                then Some (n + nx * ny) else None in
  let front := if bool_decide (n `mod` nx < nx - 1) then Some (n + 1) else None in
  let back := if bool_decide (n `mod` nx ≠ 0) then Some (n - 1) else None in
  let left := if bool_decide (n `mod` (nx * ny) < nx * (ny - 1))
              then Some (n + nx) else None in
  let right := if bool_decide (nx ≤ n `mod` (nx * ny))
               then Some (n - nx) else None in
  [above; bellow; front; back; left; right].

(** [if a is not None and b is not None: append(v)] and its three-way form. *)
Definition both {A} (a b : option Z) (v : A) : list A :=
  match a, b with Some _, Some _ => [v] | _, _ => [] end.
Definition all3 {A} (a b c : option Z) (v : A) : list A :=
  match a, b, c with Some _, Some _, Some _ => [v] | _, _, _ => [] end.

(** The diagonal neighbours that [full=True] appends, in the order of the
    source. *)
Definition diagonal_indexes (mesh : PrismMesh) (n : Z) (up down : bool)
    : list (option Z) :=
  let '(nz, ny, nx) := shape mesh in
  match face_indexes mesh n up down with
  | [above; bellow; front; back; lft; rgt] =>
      let a := default 0 above in let b := default 0 bellow in
      let l := default 0 lft in let r := default 0 rgt in
      both front lft (Some (l + 1)) ++ both front rgt (Some (r + 1)) ++
      both back lft (Some (l - 1)) ++ both back rgt (Some (r - 1)) ++
      both above lft (Some (a + nx)) ++ both above rgt (Some (a - nx)) ++
      both above front (Some (a + 1)) ++ both above back (Some (a - 1)) ++
      all3 above front lft (Some (a + nx + 1)) ++
      all3 above front rgt (Some (a - nx + 1)) ++
      all3 above back lft (Some (a + nx - 1)) ++
      all3 above back rgt (Some (a - nx - 1)) ++
      both bellow lft (Some (b + nx)) ++ both bellow rgt (Some (b - nx)) ++
      both bellow front (Some (b + 1)) ++ both bellow back (Some (b - 1)) ++
      all3 bellow front lft (Some (b + nx + 1)) ++
      all3 bellow front rgt (Some (b - nx + 1)) ++
      all3 bellow back lft (Some (b + nx - 1)) ++
      all3 bellow back rgt (Some (b - nx - 1))
  | _ => []
  end.

(** [SeedPrism._find_neighbors(n, full, up, down)] *)
Definition _find_neighbors (mesh : PrismMesh) (n : Z) (full up down : bool)
    : result (list Z) :=
  unmasked mesh (face_indexes mesh n up down ++
                 if full then diagonal_indexes mesh n up down else []).

(** [_is_neighbor]: some seed that has one of the properties of [self] lists
    [n] among its neighbours. *)
Definition _is_neighbor (self : SeedPrism) (n : Z) (seeds : list SeedPrism)
    : bool :=
  existsb (λ s,
    existsb (λ p, bool_decide (is_Some (props s !! p))
                  && bool_decide (n ∈ neighbors s))
            (map_to_list (props self)).*1) seeds.

Definition _not_neighbors (self : SeedPrism) (seeds : list SeedPrism)
    (nbrs : list Z) : list Z :=
  filter (λ n, _is_neighbor self n seeds = false) nbrs.

(** [_in_estimate]: some seed that has one of the properties of [self] has
    [n] in its estimate. *)
Definition _in_estimate (self : SeedPrism) (n : Z) (seeds : list SeedPrism)
    : bool :=
  existsb (λ s,
    existsb (λ p, bool_decide (is_Some (props s !! p))
                  && bool_decide (n ∈ estimate s))
            (map_to_list (props self)).*1) seeds.

Definition _are_free (self : SeedPrism) (seeds : list SeedPrism)
    (nbrs : list Z) : list Z :=
  filter (λ n, _in_estimate self n seeds = false) nbrs.

(** [seeds[i].initialize(seeds)]: the seed at position [i] of the shared
    list is the receiver; the list with that seed updated is returned. *)
Definition initialize (i : nat) (seeds : list SeedPrism) (mesh : PrismMesh)
    : result (list SeedPrism) :=
  self ← list_getitem seeds i;
  found ← _find_neighbors mesh (index self) false true true;
  let new := _not_neighbors self seeds (_are_free self seeds found) in
  let self1 := set_neighbors (neighbors self ++ new) self in
  self2 ← _get_distances self1 mesh (neighbors self1);
  Ok (<[i := self2]> seeds).

(** [_update_neighbors(n, seeds)], with [self] the seed at position [i] of
    [seeds]. *)
Definition _update_neighbors (i : nat) (n : Z) (seeds : list SeedPrism)
    (mesh : PrismMesh) : result (list SeedPrism) :=
  self ← list_getitem seeds i;
  found ← _find_neighbors mesh n false true true;
  let new := _not_neighbors self seeds (_are_free self seeds found) in
  removed ← py_remove n (neighbors self);
  let self1 := set_neighbors (removed ++ new) self in
  _ ← getitem (distance self1) n;
  let self2 := set_distance (delete n (distance self1)) self1 in
  self3 ← _get_distances self2 mesh new;
  Ok (<[i := self3]> seeds).

(** [numpy.argmin]: the position of the first occurrence of the least
    entry. *)
Fixpoint argmin_from (best : nat) (bv : Qc) (pos : nat) (l : list Qc) : nat :=
  match l with
  | [] => best
  | v :: l' =>
      if decide (v < bv)%Qc then argmin_from pos v (S pos) l'
      else argmin_from best bv (S pos) l'
  end.
Definition argmin (l : list Qc) : result nat :=
  match l with
  | [] => Raise ValueError
  | v :: l' => Ok (argmin_from 0%nat v 1%nat l')
  end.

(** [_judge] *)
Definition _judge (self : SeedPrism) (goals misfits : list Qc)
    (goal misfit_ : Qc) : result (option (nat * Qc * Qc)) :=
  let decreased :=
    (filter (λ im, (im.2 < misfit_)%Qc
                   ∧ (delta self ≤ Qcabs (im.2 - misfit_) / misfit_)%Qc)
            (imap (λ i m, (i, m)) misfits)).*1 in
  match decreased with
  | [] => Ok None
  | _ =>
      gs ← mapM (list_getitem goals) decreased;
      k ← argmin gs;
      best ← list_getitem decreased k;
      g ← list_getitem goals best;
      m ← list_getitem misfits best;
      Ok (Some (best, g, m))
  end.

End Seeds.

(** ** The growth solver *)

(** The objects a run of the solver shares and mutates: the data modules,
    the seeds, and the mesh whose cell objects [DMPrismI2] writes to. *)
Record World : Type := mkWorld {
  dms : list DM;
  seeds : list SeedPrism;
  mesh : PrismMesh
}.

(** What [grow] returns when it accepts an accretion:
    [[[index, self.props], goal, misfit]]. *)
Definition Change : Type := Element * Qc * Qc.

(** [l[-1]] *)
Definition py_last {A} (l : list A) : result A :=
  match last l with
  | Some v => Ok v
  | None => Raise IndexError
  end.

Section Solver.

Variable sqrt : Qc → Qc.
Variable pot_prism :
  string → list Qc → list Qc → list Qc → list (option Prism) → option Qc →
  list Qc.

(** [sum(dm.testdrive(element) for dm in dms)], started from [acc]; every
    call may fill the cache of its module and write to the mesh. *)
Fixpoint testdrive_sum (ds : list DM) (element : Element) (m : PrismMesh)
    (acc : Qc) : result (Qc * list DM * PrismMesh) :=
  match ds with
  | [] => Ok (acc, [], m)
  | dm :: rest =>
      '(v, dm', m1) ← testdrive sqrt pot_prism dm element m;
      '(total, rest', m2) ← testdrive_sum rest element m1 (acc + v)%Qc;
      Ok (total, dm' :: rest', m2)
  end.

(** The list [misfits] of [grow]: one sum per neighbour, in the order of
    [self.neighbors]. *)
Fixpoint candidate_misfits (ds : list DM) (props_ : gmap string Qc)
    (nbrs : list Z) (m : PrismMesh) : result (list Qc * list DM * PrismMesh) :=
  match nbrs with
  | [] => Ok ([], ds, m)
  | n :: rest =>
      '(v, ds1, m1) ← testdrive_sum ds (n, props_) m 0%Qc;
      '(vs, ds2, m2) ← candidate_misfits ds1 props_ rest m1;
      Ok (v :: vs, ds2, m2)
  end.

(** [regularizer = numpy.sum(s.reg for s in seeds)] *)
Definition regularizer (ss : list SeedPrism) : Qc := Qc_sum (reg <$> ss).

(** The list [goals] of [grow]. *)
Definition candidate_goals (self : SeedPrism) (ss : list SeedPrism)
    (misfits : list Qc) : result (list Qc) :=
  mapM (λ nm : Z * Qc,
          d ← getitem (distance self) nm.1;
          Ok (nm.2 + regularizer ss + mu self * d)%Qc)
       (zip (neighbors self) misfits).

(** [seeds[i].grow(dms, seeds, goal, misfit)] *)
Definition grow (i : nat) (w : World) (goal misfit_ : Qc)
    : result (option Change * World) :=
  self ← list_getitem (seeds w) i;
  '(misfits, dms1, mesh1) ←
     candidate_misfits (dms w) (props self) (neighbors self) (mesh w);
  goals ← candidate_goals self (seeds w) misfits;
  best ← _judge self goals misfits goal misfit_;
  match best with
  | None => Ok (None, mkWorld dms1 (seeds w) mesh1)
  | Some (k, g, m) =>
      idx ← list_getitem (neighbors self) k;
      let self1 := set_estimate (estimate self ++ [idx]) self in
      d ← getitem (distance self1) idx;
      let self2 := set_reg (reg self1 + mu self1 * d)%Qc self1 in
      seeds1 ← _update_neighbors sqrt i idx (<[i := self2]> (seeds w)) mesh1;
      Ok (Some ((idx, props self), g, m), mkWorld dms1 seeds1 mesh1)
  end.

(** [for dm in dms: dm.update(element)] *)
Fixpoint update_all (ds : list DM) (element : Element) (m : PrismMesh)
    : result (list DM * PrismMesh) :=
  match ds with
  | [] => Ok ([], m)
  | dm :: rest =>
      '(dm', m1) ← update pot_prism dm element m;
      '(rest', m2) ← update_all rest element m1;
      Ok (dm' :: rest', m2)
  end.

(** [_cat_estimate]: for every property, the cells of every seed that has
    it with the value of that seed; a later pair for the same cell replaces
    an earlier one, as [dict(pairs)] does. *)
Definition _cat_estimate (ss : list SeedPrism)
    : result (option (gmap string (gmap Z Qc))) :=
  first ← list_getitem ss 0%nat;
  if decide (kind first = "prism"%string) then
    let pairs : gmap string (list (Z * Qc)) :=
      foldl (λ est s,
        foldl (λ est (pv : string * Qc),
                 let values := (λ c, (c, pv.2)) <$> estimate s in
                 match est !! pv.1 with
                 | None => <[pv.1 := values]> est
                 | Some old => <[pv.1 := old ++ values]> est
                 end) est (map_to_list (props s))) ∅ ss in
    Ok (Some ((λ l, foldl (λ d (cv : Z * Qc), <[cv.1 := cv.2]> d) ∅ l) <$> pairs))
  else Ok None.

(** The state of the loop of [_harvest_solver]: the shared objects and the
    two trajectories. *)
Record Solver : Type := mkSolver {
  world : World;
  goals : list Qc;
  misfits : list Qc
}.

(** The body of [for seed in seeds], for the seed at position [i]. *)
Definition try_seed (i : nat) (st : Solver) : result (bool * Solver) :=
  g ← py_last (goals st);
  m ← py_last (misfits st);
  '(change, w1) ← grow i (world st) g m;
  match change with
  | None => Ok (false, mkSolver w1 (goals st) (misfits st))
  | Some (params, goal, misfit_) =>
      '(dms2, mesh2) ← update_all (dms w1) params (mesh w1);
      Ok (true, mkSolver (mkWorld dms2 (seeds w1) mesh2)
                         (goals st ++ [goal]) (misfits st ++ [misfit_]))
  end.

(** One pass [for seed in seeds] over the positions [positions]; the flag is
    [grew]. *)
Fixpoint round (positions : list nat) (grew : bool) (st : Solver)
    : result (bool * Solver) :=
  match positions with
  | [] => Ok (grew, st)
  | i :: rest =>
      '(g, st1) ← try_seed i st;
      round rest (grew || g) st1
  end.

Definition positions (st : Solver) : list nat :=
  seq 0 (length (seeds (world st))).

(** [_harvest_solver].  The [while True] loop runs for at most [fuel]
    passes; [None] is a run that needs more. *)
Fixpoint solver_loop (fuel : nat) (st : Solver) : option (result Solver) :=
  match fuel with
  | O => None
  | S fuel' =>
      match round (positions st) false st with
      | Raise e => Some (Raise e)
      | Ok (true, st1) => solver_loop fuel' st1
      | Ok (false, st1) => Some (Ok st1)
      end
  end.

Definition Results : Type :=
  option (gmap string (gmap Z Qc)) * list Qc * list Qc.

Definition _harvest_solver (fuel : nat) (w : World) (first_goal : Qc)
    : option (result (Results * World)) :=
  match solver_loop fuel (mkSolver w [first_goal] [first_goal]) with
  | None => None
  | Some (Raise e) => Some (Raise e)
  | Some (Ok st) =>
      Some (est ← _cat_estimate (seeds (world st));
            Ok ((est, goals st, misfits st), world st))
  end.

(** [for seed in seeds: seed.initialize(seeds)] *)
Definition initialize_all (ss : list SeedPrism) (m : PrismMesh)
    : result (list SeedPrism) :=
  foldlM (λ ss i, initialize sqrt i ss m) ss (seq 0 (length ss)).

(** [for dm in dms: dm.weight /= float(len(dms)); for seed in seeds:
    dm.update(seed.seed)] *)
Fixpoint absorb_seeds (count : Z) (ds : list DM) (ss : list SeedPrism)
    (m : PrismMesh) : result (list DM * PrismMesh) :=
  match ds with
  | [] => Ok ([], m)
  | dm :: rest =>
      let dm0 := set_weight (weight dm / Qc_of_Z count)%Qc dm in
      '(dm1, m1) ← foldlM (λ '(d, m) s, update pot_prism d (seed s) m)
                          (dm0, m) ss;
      '(rest', m2) ← absorb_seeds count rest ss m1;
      Ok (dm1 :: rest', m2)
  end.

(** [goal = sum(dm.misfit(dm.predicted) for dm in dms)] *)
Definition initial_goal (ds : list DM) : result Qc :=
  foldlM (λ acc dm, v ← misfit sqrt dm (predicted dm); Ok (acc + v)%Qc) 0%Qc ds.

(** The part of [harvest] between the test of [iterate] and the call of the
    solver: the seeds must be of one kind; every seed is initialized; every
    module has its weight divided by the number of modules and absorbs the
    cell of every seed; the initial goal is the sum of the misfits. *)
Definition harvest_setup (w : World) : result (World * Qc) :=
  first ← list_getitem (seeds w) 0%nat;
  if negb (bool_decide
             (length (filter (λ s, kind s = kind first) (seeds w))
              = length (seeds w)))
  then Raise ValueError
  else
    seeds1 ← initialize_all (seeds w) (mesh w);
    '(dms1, mesh1) ←
       absorb_seeds (Z.of_nat (length (dms w))) (dms w) seeds1 (mesh w);
    goal ← initial_goal dms1;
    Ok (mkWorld dms1 seeds1 mesh1, goal).

(** [harvest(dms, seeds, iterate)] *)
Definition harvest (fuel : nat) (w : World) (iterate : bool)
    : option (result (Results * World)) :=
  if iterate then Some (Raise NotImplementedError)
  else
    match harvest_setup w with
    | Raise e => Some (Raise e)
    | Ok (w1, goal) => _harvest_solver fuel w1 goal
    end.

End Solver.

(** ** Additions of float64 *)

(** The entries of the arrays are float64 numbers in the sources and exact
    rationals in the model above.  The results that rest on the laws of
    addition say so; this module has the in-place addition on float64 itself
    (the binary64 numbers of the kernel, with rounding to nearest), to show
    where the two differ. *)
Module float64.
Import PrimFloat.

(** [a += b] on arrays of float64: the shapes of [np_iadd]. *)
Definition iadd (a b : list float) : result (list float) :=
  if decide (length a = length b) then Ok (zip_with add a b)
  else match b with
       | [y] => Ok ((λ x, add x y) <$> a)
       | _ => Raise ValueError
       end.

(** [for e in effects: predicted += e]: the additions that successive calls
    of [DMPrism.update] make on [self.predicted]. *)
Definition iadd_each (predicted : list float) (effects : list (list float))
    : result (list float) :=
  foldlM iadd predicted effects.

(** A prediction of one zero, and three effects of one entry each: the
    float64 numbers nearest to 0.1, 0.2 and 0.3. *)
Definition no_prediction : list float := [0%float].
#[warnings="-inexact-float"]
Definition tenths : list (list float) := [[0.1%float]; [0.2%float]; [0.3%float]].

End float64.

(** ** The helpers that make the data modules and the seeds *)



Section Helpers.

Variable sqrt : Qc → Qc.


(** [bisect.bisect_left(a, x)]: the loop [while lo < hi] of the binary
    search; the interval shrinks at every pass, so [fuel] passes are enough
    when [fuel] is the length of the interval. *)
Fixpoint bisect_loop (fuel : nat) (a : list Qc) (x : Qc) (lo hi : nat) : nat :=
  match fuel with
  | O => lo
  | S fuel' =>
      if decide (lo < hi)%nat then
        let mid := ((lo + hi) / 2)%nat in
        match a !! mid with
        | Some v =>
            if decide (v < x)%Qc then bisect_loop fuel' a x (S mid) hi
            else bisect_loop fuel' a x lo mid
        | None => lo
        end
      else lo
  end.

Definition bisect_left (a : list Qc) (x : Qc) : nat :=
  bisect_loop (length a) a x 0 (length a).

(** The bounds and the edges of the cells along each axis, which
    [_get_index] reads through [mesh.bounds], [mesh.get_xs()],
    [mesh.get_ys()] and [mesh.get_zs()]; the mesh class is outside the
    sources.  So is what [mesh[s]] does for the index [s] that [_get_index]
    computes: no test places [s] on the grid before the mesh is indexed, and
    [bisect_left] is 0 for a coordinate that is not above the first edge,
    which makes [i], [j] or [k] equal to -1.  [mesh_at mesh s] stands for
    that [mesh[s]]. *)
Variable bounds : PrismMesh → Qc * Qc * Qc * Qc * Qc * Qc.
Variable get_xs get_ys get_zs : PrismMesh → list Qc.
Variable mesh_at : PrismMesh → Z → result (option Prism).

(** [SeedPrism._get_index(point, mesh)] *)
Definition _get_index (point : Qc * Qc * Qc) (mesh : PrismMesh) : result Z :=
  let '(bx1, bx2, by1, by2, bz1, bz2) := bounds mesh in
  let '(nz, ny, nx) := shape mesh in
  let '(x, y, z) := point in
  if bool_decide ((x ≤ bx2 ∧ bx1 ≤ x ∧ y ≤ by2 ∧ by1 ≤ y ∧ z ≤ bz2 ∧ bz1 ≤ z)%Qc)
  then
    let k := Z.of_nat (bisect_left (get_zs mesh) z) - 1 in
    let j := Z.of_nat (bisect_left (get_ys mesh) y) - 1 in
    let i := Z.of_nat (bisect_left (get_xs mesh) x) - 1 in
    let s := i + j * nx + k * nx * ny in
    c ← mesh_at mesh s;
    if c is Some _ then Ok s else Raise ValueError
  else Raise ValueError.

(** [SeedPrism(point, props, mesh, mu, delta, reldist)] *)
Definition SeedPrism_new (point : Qc * Qc * Qc) (props_ : gmap string Qc)
    (mesh : PrismMesh) (mu_ delta_ : Qc) (reldist_ : bool) : result SeedPrism :=
  index_ ← _get_index point mesh;
  Ok (SeedPrism_init index_ props_ mesh mu_ delta_ reldist_).

(** The dictionary [sprops] that [sow] makes for the point at position [i]:
    [sprops[p] = props[p][i]] for every property [p]. *)
Definition props_at (props_ : gmap string (list Qc)) (i : nat)
    : result (gmap string Qc) :=
  l ← mapM (λ pl : string * list Qc, v ← list_getitem pl.2 i; Ok (pl.1, v))
           (map_to_list props_);
  Ok (list_to_map l).

(** [sow(points, props, mesh, mu, delta, reldist)] *)
Definition sow (points : list (Qc * Qc * Qc)) (props_ : gmap string (list Qc))
    (mesh : PrismMesh) (mu_ delta_ : Qc) (reldist_ : bool)
    : result (list SeedPrism) :=
  foldlM (λ (acc : list SeedPrism) (ip : nat * (Qc * Qc * Qc)),
            sprops ← props_at props_ ip.1;
            s ← SeedPrism_new ip.2 sprops mesh mu_ delta_ reldist_;
            if bool_decide (index s ∈ index <$> acc) then Ok acc
            else Ok (acc ++ [s]))
         [] (imap (λ i p, (i, p)) points).

End Helpers.

(** * The seeded growth of the matrix solver ([pgrav3d.grow]) *)

Module pgrav3d.

(** A cell of the mesh, a dictionary with the six bounds. *)
Record Cell : Type := mkCell {
  x1 : Qc; x2 : Qc; y1 : Qc; y2 : Qc; z1 : Qc; z2 : Qc
}.

(** The mesh of this module is a numpy array of cells of three dimensions:
    its [shape] (nz, ny, nx) and its cells in the order of [ravel()]. *)
Record Mesh : Type := mkMesh {
  shape : Z * Z * Z;
  ravel : list Cell
}.

Definition size (m : Mesh) : Z :=
  let '(nz, ny, nx) := shape m in nz * ny * nx.

(** A seed, the dictionary that [get_seed] makes. *)
Record Seed : Type := mkSeed {
  param : Z;
  density : Qc;
  cell : Cell;
  neighbors : list Z
}.

Definition set_neighbors (l : list Z) (s : Seed) : Seed :=
  mkSeed (param s) (density s) (cell s) l.

(** The position that the index [n] refers to in a numpy array of [len]
    entries: an index below zero counts from the end. *)
Definition np_index (len : nat) (n : Z) : option nat :=
  if bool_decide (0 ≤ n < Z.of_nat len) then Some (Z.to_nat n)
  else if bool_decide (- Z.of_nat len ≤ n < 0)
       then Some (Z.to_nat (Z.of_nat len + n))
       else None.

(** [a[n]] and [a[n] = v] on a numpy array. *)
Definition array_get (a : list Qc) (n : Z) : result Qc :=
  match np_index (length a) n with
  | Some k => list_getitem a k
  | None => Raise IndexError
  end.

Definition array_set (a : list Qc) (n : Z) (v : Qc) : result (list Qc) :=
  match np_index (length a) n with
  | Some k => Ok (<[k := v]> a)
  | None => Raise IndexError
  end.

(** The twenty-six neighbours that [_add_neighbors] considers for the cell
    [p], in the order of the source; [None] where its test fails. *)
Definition candidates (sh : Z * Z * Z) (sz : Z) (p : Z) : list (option Z) :=
  let '(nz, ny, nx) := sh in
  let above := if bool_decide (p - nx * ny > 0) then Some (p - nx * ny) else None in
  let bellow := if bool_decide (p + nx * ny < sz) then Some (p + nx * ny) else None in
  let front := if bool_decide (p `mod` nx < nx - 1) then Some (p + 1) else None in
  let back := if bool_decide (p `mod` nx ≠ 0) then Some (p - 1) else None in
  let lft := if bool_decide (p `mod` (nx * ny) < nx * (ny - 1))
             then Some (p + nx) else None in
  let rgt := if bool_decide (nx ≤ p `mod` (nx * ny))
             then Some (p - nx) else None in
  let a := default 0 above in let b := default 0 bellow in
  let l := default 0 lft in let r := default 0 rgt in
  [above; bellow; front; back; lft; rgt] ++
  both front lft (Some (l + 1)) ++ both front rgt (Some (r + 1)) ++
  both back lft (Some (l - 1)) ++ both back rgt (Some (r - 1)) ++
  both above lft (Some (a + nx)) ++ both above rgt (Some (a - nx)) ++
  both above front (Some (a + 1)) ++ both above back (Some (a - 1)) ++
  all3 above front lft (Some (a + nx + 1)) ++
  all3 above front rgt (Some (a - nx + 1)) ++
  all3 above back lft (Some (a + nx - 1)) ++
  all3 above back rgt (Some (a - nx - 1)) ++
  both bellow lft (Some (b + nx)) ++ both bellow rgt (Some (b - nx)) ++
  both bellow front (Some (b + 1)) ++ both bellow back (Some (b - 1)) ++
  all3 bellow front lft (Some (b + nx + 1)) ++
  all3 bellow front rgt (Some (b - nx + 1)) ++
  all3 bellow back lft (Some (b + nx - 1)) ++
  all3 bellow back rgt (Some (b - nx - 1)).

(** The test of [_add_neighbors] on one neighbour: it is in the list of no
    seed that was handed over, and its estimate is zero. *)
Definition is_free (checked : list (list Z)) (est : list Qc) (n : Z)
    : result bool :=
  if forallb (λ l, negb (bool_decide (n ∈ l))) checked
  then e ← array_get est n; Ok (bool_decide (e = 0%Qc))
  else Ok false.

(** [_add_neighbors(p, nbrs, seeds, mesh, estimate)].  [nbrs] is the list
    that is appended to; [aliased] tells whether that very list is the list
    of one of the seeds handed over, so that the cells appended so far count
    in the test; [others] are the lists of the other seeds handed over. *)
Definition _add_neighbors (p : Z) (nbrs : list Z) (aliased : bool)
    (others : list (list Z)) (m : Mesh) (est : list Qc) : result (list Z) :=
  foldlM (λ (acc : list Z) (slot : option Z),
    match slot with
    | None => Ok acc
    | Some n =>
        is_free ((if aliased then [acc] else []) ++ others) est n
          ≫= λ free : bool, Ok (if free then acc ++ [n] else acc)
    end) nbrs (candidates (shape m) (size m) p).

(** The lists of the seeds other than the one at position [i]. *)
Definition others_of (i : nat) (ss : list Seed) : list (list Z) :=
  neighbors <$> delete i ss.

(** [for seed in seeds: estimate[seed['param']] = seed['density']] *)
Definition mark_seeds (est : list Qc) (ss : list Seed) : result (list Qc) :=
  foldlM (λ e s, array_set e (param s) (density s)) est ss.

(** [for seed in seeds: _add_neighbors(seed['param'], seed['neighbors'],
    [seed], mesh, estimate)] *)
Definition collect (ss : list Seed) (m : Mesh) (est : list Qc)
    : result (list Seed) :=
  foldlM (λ ss i,
    s ← list_getitem ss i;
    l ← _add_neighbors (param s) (neighbors s) true [] m est;
    Ok (<[i := set_neighbors l s]> ss)) ss (seq 0 (length ss)).

(** The first other seed, in the order of the list, whose list has [c]. *)
Definition find_other (i : nat) (c : Z) (ss : list Seed) : option (nat * Seed) :=
  snd <$> list_find (λ js : nat * Seed, js.1 ≠ i ∧ c ∈ neighbors js.2)
                    (imap (λ j s, (j, s)) ss).

(** One pass of [for neighbor in seed['neighbors']] in the resolution of the
    conflicts, at position [pos] of the list as it is by then: the list
    loses the cell when the first other seed that has it has the same
    density, and the run fails when that seed has another density. *)
Definition resolve_step (i : nat) (ss : list Seed) (pos : nat)
    : result (list Seed) :=
  sd ← list_getitem ss i;
  match neighbors sd !! pos with
  | None => Ok ss
  | Some c =>
      match find_other i c ss with
      | None => Ok ss
      | Some (j, other) =>
          if decide (density sd = density other) then
            l ← py_remove c (neighbors sd);
            Ok (<[i := set_neighbors l sd]> ss)
          else Raise (SeedsTooClose i j)
      end
  end.

(** The loop over the list of seed [i]: the positions run from 0 while they
    are in the list, which shrinks by one at every removal. *)
Definition resolve_seed (i : nat) (ss : list Seed) : result (list Seed) :=
  sd ← list_getitem ss i;
  foldlM (resolve_step i) ss (seq 0 (length (neighbors sd))).

Definition resolve (ss : list Seed) : result (list Seed) :=
  foldlM (λ ss i, resolve_seed i ss) ss (seq 0 (length ss)).

(** [get_seed(point, density, mesh)]: the first cell, in the order of
    [ravel()], that has the point inside it or on its boundary. *)
Definition inside (point : Qc * Qc * Qc) (c : Cell) : Prop :=
  let '(x, y, z) := point in
  (x1 c ≤ x ∧ x ≤ x2 c ∧ y1 c ≤ y ∧ y ≤ y2 c ∧ z1 c ≤ z ∧ z ≤ z2 c)%Qc.

#[global] Instance inside_dec point c : Decision (inside point c).
Proof. destruct point as [[x y] z]. unfold inside. apply _. Defined.

Definition get_seed (point : Qc * Qc * Qc) (dens : Qc) (m : Mesh)
    : result Seed :=
  match list_find (inside point) (ravel m) with
  | Some (i, c) => Ok (mkSeed (Z.of_nat i) dens c [])
  | None => Raise ValueError
  end.

(** ** The goal function and the state of the growth *)

Definition Qc_max (a b : Qc) : Qc := if decide (a < b)%Qc then b else a.

(** [_dist_to_seed] *)
Definition _dist_to_seed (c : Cell) (s : Seed) (dx dy dz : Qc) : Qc :=
  Qc_max (Qc_max (Qcabs (x1 c - x1 (cell s)) / dx)
                 (Qcabs (y1 c - y1 (cell s)) / dy))
         (Qcabs (z1 c - z1 (cell s)) / dz).

(** The entry of [_distances] for one cell: the least distance to a seed;
    with no seed the assignment of [None] to the array fails. *)
Definition cell_distance (ss : list Seed) (c : Cell) : result Qc :=
  let dx := (x2 c - x1 c)%Qc in
  let dy := (y2 c - y1 c)%Qc in
  let dz := (z2 c - z1 c)%Qc in
  match ss with
  | [] => Raise TypeError
  | s0 :: rest =>
      Ok (foldl (λ best s,
                   let d := _dist_to_seed c s dx dy dz in
                   if decide (d < best)%Qc then d else best)
                (_dist_to_seed c s0 dx dy dz) rest)
  end.

(** [_calc_mmi_goal]: the value of the goal and the global [_distances],
    which the first call with [mmi != 0] fills. *)
Definition _calc_mmi_goal (est : list Qc) (mmi : Qc) (power : nat)
    (ss : list Seed) (m : Mesh) (dist : option (list Qc))
    : result (Qc * option (list Qc)) :=
  if decide (mmi = 0%Qc) then Ok (0%Qc, dist)
  else
    d ← match dist with
        | Some d => Ok d
        | None => mapM (cell_distance ss) (ravel m)
        end;
    let w := (λ x, Qcpower x power) <$> d in
    match w with
    | [] => Raise ValueError
    | w0 :: wr =>
        let top := foldl Qc_max w0 wr in
        Ok ((mmi * Qc_sum (zip_with (λ e wt, e * e * wt)%Qc est
                             ((λ x, x / top)%Qc <$> w)))%Qc, Some d)
    end.

(** What the loop of [grow] works on: the estimate, the residuals, the
    trajectory of the goal, the cells marked for every seed, the seeds with
    their lists of neighbours, and the global [_distances]. *)
Record State : Type := mkState {
  estimate : list Qc;
  residuals : list Qc;
  goals : list Qc;
  marked : list (list Z);
  seeds : list Seed;
  distances : option (list Qc)
}.

Section Growth.

(** [jacobian n] is [_jacobian[n]] once [grow] has transposed the matrix, the
    effect of a unit density in cell [n] on every datum; [data_vector] is
    [extract_data_vector(data)].  Both come from the kernels of
    [fatiando.gravity.prism], outside the sources; the rows of the matrix
    have the length of the data vector. *)
Variable jacobian : Z → list Qc.
Variable data_vector : list Qc.

Variable m : Mesh.
Variable mmi : Qc.
Variable power : nat.

Definition scale (k : Qc) (v : list Qc) : list Qc := (λ x, k * x)%Qc <$> v.
Definition sumsq (v : list Qc) : Qc := Qc_sum ((λ x, x * x)%Qc <$> v).

(** The body of the loops over candidate cells: the goal with the density
    [dens] put in cell [n]; the estimate of the cell is set and then reset
    to zero. *)
Definition trial (ss : list Seed) (dens : Qc) (res est : list Qc)
    (dist : option (list Qc)) (n : Z)
    : result (Qc * list Qc * option (list Qc)) :=
  let new_residuals := zip_with Qcminus res (scale dens (jacobian n)) in
  let rms := sumsq new_residuals in
  est1 ← array_set est n dens;
  '(reg, dist1) ← _calc_mmi_goal est1 mmi power ss m dist;
  est2 ← array_set est1 n 0%Qc;
  Ok ((rms + reg)%Qc, est2, dist1).

(** The body of [for seed_num, seed in enumerate(seeds)] in the growth. *)
Definition try_grow (i : nat) (st : State) : result (bool * State) :=
  sd ← list_getitem (seeds st) i;
  g0 ← py_last (goals st);
  '(bg, bn, est, dist) ←
    foldlM (λ '(bg, bn, est, dist) n,
              '(goal, est', dist') ←
                 trial (seeds st) (density sd) (residuals st) est dist n;
              Ok (if decide (goal < bg)%Qc then (goal, Some n, est', dist')
                  else (bg, bn, est', dist')))
           (g0, None, estimate st, distances st) (neighbors sd);
  match bn with
  | None =>
      Ok (false, mkState est (residuals st) (goals st) (marked st) (seeds st)
                         dist)
  | Some b =>
      est1 ← array_set est b (density sd);
      let res1 := zip_with Qcminus (residuals st)
                    (scale (density sd) (jacobian b)) in
      mk ← list_getitem (marked st) i;
      l ← py_remove b (neighbors sd);
      l' ← _add_neighbors b l true (others_of i (seeds st)) m est1;
      Ok (true, mkState est1 res1 (goals st ++ [bg])
                        (<[i := mk ++ [b]]> (marked st))
                        (<[i := set_neighbors l' sd]> (seeds st)) dist)
  end.

(** [for neighbor in tmp_neighbors] of the rearrangement.  The body appends
    [prm] to the very list that is traversed whenever the goal improves, so
    the loop goes by position; [fuel] bounds its passes.  [best] is
    [best_goal] with [(best_param, param_to_remove)]. *)
Fixpoint scan (fuel : nat) (ss : list Seed) (dens : Qc) (tmp_res : list Qc)
    (prm : Z) (pos : nat) (tmp : list Z) (best : Qc * option (Z * Z))
    (improved : bool) (est : list Qc) (dist : option (list Qc))
    : result (list Z * (Qc * option (Z * Z)) * bool * list Qc
              * option (list Qc)) :=
  match tmp !! pos with
  | None => Ok (tmp, best, improved, est, dist)
  | Some n =>
      match fuel with
      | O => Raise OutOfFuel
      | S fuel' =>
          '(goal, est', dist') ← trial ss dens tmp_res est dist n;
          if decide (goal < best.1)%Qc
          then scan fuel' ss dens tmp_res prm (S pos) (tmp ++ [prm])
                    (goal, Some (n, prm)) true est' dist'
          else scan fuel' ss dens tmp_res prm (S pos) tmp best improved
                    est' dist'
      end
  end.

(** The body of [for param in marked[seed_num]].  [best_nbrs] is
    [best_neighbors]: it is bound to the list [tmp_neighbors] of the pass in
    which the goal last improved, as that list is when the pass ends. *)
Definition rearrange_param (fuel i : nat) (st : State) (sd : Seed)
    (acc : Qc * option (Z * Z) * option (list Z) * list Qc * option (list Qc))
    (prm : Z)
    : result (Qc * option (Z * Z) * option (list Z) * list Qc
              * option (list Qc)) :=
  let '(bg, bp, best_nbrs, est, dist) := acc in
  let others := others_of i (seeds st) in
  pn ← _add_neighbors prm [] false others m est;
  match pn with
  | [] => Ok acc
  | _ =>
      let tmp_res := zip_with Qcplus (residuals st)
                       (scale (density sd) (jacobian prm)) in
      tmp ← foldlM (λ tmp nb,
                      nn ← _add_neighbors nb [] false others m est;
                      if bool_decide (length nn < 26)%nat
                      then py_remove nb tmp else Ok tmp)
                   (neighbors sd) pn;
      est1 ← array_set est prm 0%Qc;
      '(tmp', best', improved, est2, dist2) ←
        scan fuel (seeds st) (density sd) tmp_res prm 0 tmp (bg, bp) false
             est1 dist;
      est3 ← array_set est2 prm (density sd);
      Ok (best'.1, best'.2,
          if (improved : bool) then Some tmp' else best_nbrs, est3,
          dist2)
  end.

(** The body of [for seed_num, seed in enumerate(seeds)] in the
    rearrangement. *)
Definition try_rearrange (fuel i : nat) (st : State) : result (bool * State) :=
  sd ← list_getitem (seeds st) i;
  g0 ← py_last (goals st);
  mk ← list_getitem (marked st) i;
  '(bg, bp, best_nbrs, est, dist) ←
    foldlM (rearrange_param fuel i st sd)
           (g0, None, None, estimate st, distances st) mk;
  match bp with
  | None =>
      Ok (false, mkState est (residuals st) (goals st) (marked st) (seeds st)
                         dist)
  | Some (best_param, param_to_remove) =>
      est1 ← array_set est param_to_remove 0%Qc;
      let res1 := zip_with Qcplus (residuals st)
                    (scale (density sd) (jacobian param_to_remove)) in
      est2 ← array_set est1 best_param (density sd);
      let res2 := zip_with Qcminus res1
                    (scale (density sd) (jacobian best_param)) in
      mk1 ← py_remove param_to_remove mk;
      nb ← match best_nbrs with
           | Some l => Ok l
           | None => Raise AttributeError
           end;
      l ← py_remove best_param nb;
      l' ← _add_neighbors best_param l true (others_of i (seeds st)) m est2;
      Ok (true, mkState est2 res2 (goals st ++ [bg])
                        (<[i := mk1 ++ [best_param]]> (marked st))
                        (<[i := set_neighbors l' sd]> (seeds st)) dist)
  end.

(** A loop over the seeds, with its flag. *)
Fixpoint pass (body : nat → State → result (bool * State))
    (positions : list nat) (flag : bool) (st : State) : result (bool * State) :=
  match positions with
  | [] => Ok (flag, st)
  | i :: rest =>
      '(f, st1) ← body i st;
      pass body rest (flag || f) st1
  end.

(** [for iteration in xrange(mesh.size - len(seeds))] *)
Fixpoint iterations (count fuel : nat) (apriori_variance : Qc) (st : State)
    : result State :=
  match count with
  | O => Ok st
  | S count' =>
      let ps := seq 0 (length (seeds st)) in
      '(grew, st1) ← pass try_grow ps false st;
      '(go_on, st2) ←
        (if (grew : bool) then Ok (true, st1)
         else pass (try_rearrange fuel) ps false st1);
      if negb go_on then Ok st2
      else
        g ← py_last (goals st2);
        let aposteriori_variance :=
          (g / Qc_of_Z (Z.of_nat (length (residuals st2))))%Qc in
        if bool_decide (aposteriori_variance
                        ≤ Q2Qc (11 # 10) * apriori_variance)%Qc
           && bool_decide (Q2Qc (9 # 10) * apriori_variance
                           ≤ aposteriori_variance)%Qc
        then Ok st2
        else iterations count' fuel apriori_variance st2
  end.

(** The part of [grow] before the loop: the check of the keys of [data], the
    estimate with the densities of the seeds, the neighbours of every seed
    collected as if it were alone, and the resolution of the conflicts. *)
Definition prepare (data_keys : list string) (ss : list Seed)
    : result (list Qc * list Seed) :=
  if negb (forallb (λ k, bool_decide
                     (k ∈ ["gz"; "gxx"; "gxy"; "gxz"; "gyy"; "gyz"; "gzz"]%string))
                   data_keys)
  then Raise AssertionError
  else
    est ← mark_seeds (replicate (Z.to_nat (size m)) 0%Qc) ss;
    ss1 ← collect ss m est;
    ss2 ← resolve ss1;
    Ok (est, ss2).

(** [grow(data, mesh, seeds, mmi, power, apriori_variance)], with the state
    in which the loop ends. *)
Definition grow_state (fuel : nat) (data_keys : list string) (ss : list Seed)
    (apriori_variance : Qc) (dist0 : option (list Qc)) : result State :=
  '(est, ss2) ← prepare data_keys ss;
  '(reg_goal, dist) ← _calc_mmi_goal est mmi power ss2 m dist0;
  let predicted :=
    foldl (λ acc c, zip_with Qcplus acc
                      (scale (default 0%Qc (est !! Z.to_nat c)) (jacobian c)))
          ((λ _, 0%Qc) <$> data_vector) (seqZ 0 (size m)) in
  let res := zip_with Qcminus data_vector predicted in
  let st := mkState est res [(sumsq res + reg_goal)%Qc] ((λ _, []) <$> ss2)
                    ss2 dist in
  iterations (Z.to_nat (size m - Z.of_nat (length ss))) fuel apriori_variance st.

Definition grow (fuel : nat) (data_keys : list string) (ss : list Seed)
    (apriori_variance : Qc) (dist0 : option (list Qc))
    : result (list Qc * list Qc) :=
  st ← grow_state fuel data_keys ss apriori_variance dist0;
  Ok (estimate st, goals st).

End Growth.

End pgrav3d.

(** ** Definitions used to state the properties *)

(** The vector that [DMPrism.update] adds to the prediction for an element:
    the effect cached for the cell when there is one, else the effect that
    [_effect_of_prism] computes for the cell and its properties. *)
Definition contribution
    (pot : string → list Qc → list Qc → list Qc → list (option Prism) →
           option Qc → list Qc)
    (dm : DM) (m : PrismMesh) (element : Element) : result (list Qc) :=
  match effect dm !! element.1 with
  | Some e => Ok e
  | None => _effect_of_prism pot dm element.1 element.2 m
  end.



(** Two seeds share a physical property: the test of [_in_estimate] and
    [_is_neighbor]. *)
Definition shares (a b : SeedPrism) : Prop :=
  ∃ p, is_Some (props a !! p) ∧ is_Some (props b !! p).

(** No cell is in the estimates of two seeds that share a property. *)
Definition exclusive (ss : list SeedPrism) : Prop :=
  ∀ i j a b x, i ≠ j → ss !! i = Some a → ss !! j = Some b → shares a b →
    x ∈ estimate a → x ∉ estimate b.

(** No cell is in the estimates of two seeds, whatever their properties. *)
Definition exclusive_all (ss : list SeedPrism) : Prop :=
  ∀ i j a b x, i ≠ j → ss !! i = Some a → ss !! j = Some b →
    x ∈ estimate a → x ∉ estimate b.

(** A seed as its constructor leaves it: the estimate is the seed cell, the
    list of neighbours is empty. *)
Definition fresh (s : SeedPrism) : Prop :=
  estimate s = [index s] ∧ neighbors s = [].

(** The seeds of the list that share a property sit in different cells
    ([sow] drops a seed whose cell is taken). *)
Definition distinct_cells (ss : list SeedPrism) : Prop :=
  ∀ i j a b, i ≠ j → ss !! i = Some a → ss !! j = Some b → shares a b →
    index a ≠ index b.

(** The frontiers are kept apart from the estimates and from one another
    among the seeds that share a property. *)
Record frontiers_ok (ss : list SeedPrism) : Prop := mk_frontiers_ok {
  nbr_est : ∀ i j a b x, i ≠ j → ss !! i = Some a → ss !! j = Some b →
              shares a b → x ∈ neighbors a → x ∉ estimate b;
  nbr_nbr : ∀ i j a b x, i ≠ j → ss !! i = Some a → ss !! j = Some b →
              shares a b → x ∈ neighbors a → x ∉ neighbors b
}.

(** What a seed with at least one property keeps true of itself: its
    frontier and its estimate have no repetition and no cell in common, and
    both lie on the grid of [sz] cells. *)
Record seed_ok (sz : Z) (s : SeedPrism) : Prop := mk_seed_ok {
  own_nbr_est : ∀ x, x ∈ neighbors s → x ∉ estimate s;
  own_nbr_nodup : NoDup (neighbors s);
  own_est_nodup : NoDup (estimate s);
  own_nbr_range : ∀ x, x ∈ neighbors s → 0 ≤ x < sz;
  own_est_range : ∀ x, x ∈ estimate s → 0 ≤ x < sz
}.

Definition seeds_ok (sz : Z) (ss : list SeedPrism) : Prop :=
  ∀ i s, ss !! i = Some s → shares s s → seed_ok sz s.

(** A shape [(nz, ny, nx)] with rows and columns; [%] by [nx] or [nx * ny]
    is defined on such a shape only. *)
Definition well_shaped (sh : Z * Z * Z) : Prop :=
  let '(nz, ny, nx) := sh in 0 < nx ∧ 0 < ny.

Definition grid_size (sh : Z * Z * Z) : Z :=
  let '(nz, ny, nx) := sh in nz * ny * nx.

(** The cells [new] may join the frontier of [self] next to the seeds [ss]:
    they are on the grid, distinct when the grid is well shaped, and in
    neither the estimate nor the frontier of a seed of [ss] that shares a
    property with [self]. *)
Definition admissible (sh : Z * Z * Z) (self : SeedPrism)
    (ss : list SeedPrism) (new : list Z) : Prop :=
  (∀ x, x ∈ new → 0 ≤ x < grid_size sh)
  ∧ (well_shaped sh → NoDup new)
  ∧ (∀ x j s, x ∈ new → ss !! j = Some s → shares self s →
        (x ∉ estimate s) ∧ (x ∉ neighbors s)).

(** The change [initialize] makes to the list of seeds: the frontier of the
    seed at position [i] is extended by admissible cells. *)
Definition extends (sh : Z * Z * Z) (ss : list SeedPrism) (i : nat)
    (ss' : list SeedPrism) : Prop :=
  ∃ self self' new,
    ss !! i = Some self ∧ ss' = <[i := self']> ss
    ∧ props self' = props self ∧ index self' = index self
    ∧ estimate self' = estimate self
    ∧ neighbors self' = neighbors self ++ new
    ∧ admissible sh self ss new.

(** The change an accepted growth makes to the list of seeds: the seed at
    position [i] moves the frontier cell [idx] to the end of its estimate
    and extends its frontier by cells that are admissible next to the seeds
    as they are once [idx] is in the estimate. *)
Definition accretes (sh : Z * Z * Z) (ss : list SeedPrism) (i : nat)
    (idx : Z) (ss' : list SeedPrism) : Prop :=
  ∃ self self2 self' removed new,
    ss !! i = Some self
    ∧ props self2 = props self ∧ estimate self2 = estimate self ++ [idx]
    ∧ neighbors self2 = neighbors self
    ∧ ss' = <[i := self']> ss
    ∧ props self' = props self ∧ index self' = index self
    ∧ estimate self' = estimate self ++ [idx]
    ∧ idx ∈ neighbors self
    ∧ py_remove idx (neighbors self) = Ok removed
    ∧ neighbors self' = removed ++ new
    ∧ admissible sh self2 (<[i := self2]> ss) new.

(** The number of cells held by the estimates of the seeds, counted with
    multiplicity. *)
Definition cells_held (ss : list SeedPrism) : nat :=
  sum_list_with (λ s, length (estimate s)) ss.

(** Every seed of the list has at least one property. *)
Definition all_have_property (ss : list SeedPrism) : Prop :=
  ∀ i s, ss !! i = Some s → shares s s.

(** Every two seeds of the list share a property; in particular every seed
    has one.  The seeds that one call of [sow] makes are such when the
    dictionary of properties is not empty. *)
Definition pairwise_sharing (ss : list SeedPrism) : Prop :=
  ∀ i j a b, ss !! i = Some a → ss !! j = Some b → shares a b.

Section Runs.

Variable sqrt : Qc → Qc.
Variable pot_prism :
  string → list Qc → list Qc → list Qc → list (option Prism) → option Qc →
  list Qc.

(** The states a run of the solver goes through: each step is the attempt
    of one seed to grow, with the updates of the modules when it does. *)
Inductive reachable (st0 : Solver) : Solver → Prop :=
  | reach_start : reachable st0 st0
  | reach_step st i g st' :
      reachable st0 st →
      try_seed sqrt pot_prism i st = Ok (g, st') →
      reachable st0 st'.

(** [growing_passes st k st']: [k] passes over the seeds, each with at least
    one growth, lead from [st] to [st']. *)
Inductive growing_passes : Solver → nat → Solver → Prop :=
  | passes_O st : growing_passes st 0 st
  | passes_S st st1 st2 k :
      round sqrt pot_prism (positions st) false st = Ok (true, st1) →
      growing_passes st1 k st2 →
      growing_passes st (S k) st2.

End Runs.

(** The misfit condition of [_judge]: the candidate misfit [m'] is below
    the current misfit [m] by the relative threshold [delta] at least. *)
Definition acceptable (self : SeedPrism) (m m' : Qc) : Prop :=
  (m' < m)%Qc ∧ (delta self ≤ (m - m') / m)%Qc.

(** The frontiers are kept apart and no cell is in the estimates of two
    seeds that share a property. *)
Definition apart (ss : list SeedPrism) : Prop := frontiers_ok ss ∧ exclusive ss.

(** The seeds are apart, each has a property, and each keeps its own
    frontier and estimate tidy on the grid of shape [sh]. *)
Definition tidy (sh : Z * Z * Z) (ss : list SeedPrism) : Prop :=
  frontiers_ok ss ∧ all_have_property ss ∧ seeds_ok (grid_size sh) ss.

(** Tidy seeds of which every two share a property and none shares a
    cell. *)
Definition tidy_apart (sh : Z * Z * Z) (ss : list SeedPrism) : Prop :=
  tidy sh ss ∧ exclusive ss ∧ pairwise_sharing ss.

(** A property of the list of seeds that every accepted growth, and every
    initialization, keeps. *)
Definition kept_by_growth (sh : Z * Z * Z) (P : list SeedPrism → Prop) : Prop :=
  ∀ ss i idx ss', accretes sh ss i idx ss' → P ss → P ss'.
Definition kept_by_initialize (sh : Z * Z * Z) (P : list SeedPrism → Prop)
    : Prop :=
  ∀ ss i ss', extends sh ss i ss' → P ss → P ss'.

(** A state of the solver on a mesh of shape [sh] with [n] seeds that
    satisfy [P]: one goal is recorded at the start and one for every cell the
    seeds have accreted since. *)
Definition solver_inv (sh : Z * Z * Z) (P : list SeedPrism → Prop) (n : nat)
    (st : Solver) : Prop :=
  shape (mesh (world st)) = sh
  ∧ P (seeds (world st))
  ∧ length (seeds (world st)) = n
  ∧ (cells_held (seeds (world st)) + 1 = length (goals st) + n)%nat
  ∧ (1 ≤ length (goals st))%nat.

(** ** Definitions for the matrix solver *)

(** A result that is not the seeds-too-close failure. *)
Definition quiet {A} (r : result A) : Prop :=
  ∀ i j, r ≠ Raise (SeedsTooClose i j).

(** The lists of [ss'] are what is left of the lists of [ss] after some
    removals; the seeds are otherwise the same. *)
Definition shrunk (ss ss' : list pgrav3d.Seed) : Prop :=
  length ss' = length ss
  ∧ ∀ k s', ss' !! k = Some s' →
      ∃ s, ss !! k = Some s ∧ pgrav3d.density s' = pgrav3d.density s
           ∧ pgrav3d.neighbors s' ⊆ pgrav3d.neighbors s.

(** Seeds [i] and [j] of the list have different densities and list a common
    cell. *)
Definition in_conflict (ss : list pgrav3d.Seed) (i j : nat) : Prop :=
  ∃ a b c, i ≠ j ∧ ss !! i = Some a ∧ ss !! j = Some b
           ∧ c ∈ pgrav3d.neighbors a ∧ c ∈ pgrav3d.neighbors b
           ∧ pgrav3d.density a ≠ pgrav3d.density b.

(** Every entry of the list is below the one before it. *)
Definition strictly_decreasing (l : list Qc) : Prop :=
  ∀ k a b, l !! k = Some a → l !! S k = Some b → (b < a)%Qc.

(** What a step of the loop does to the state: the estimate keeps its
    length, and the goals recorded so far are followed by goals that keep the
    trajectory strictly decreasing. *)
Definition descends (st st' : pgrav3d.State) : Prop :=
  length (pgrav3d.estimate st') = length (pgrav3d.estimate st)
  ∧ ∃ more, pgrav3d.goals st' = pgrav3d.goals st ++ more
            ∧ (strictly_decreasing (pgrav3d.goals st) →
               strictly_decreasing (pgrav3d.goals st ++ more)).

(** ** Cells that touch in the grid *)

(** The cell [c] is one of the cells around the cell [p] in a grid of shape
    [(nz, ny, nx)]: both are on the grid, and their coordinates differ by one
    at most in every direction, and in one direction at least. *)
Definition adjacent (sh : Z * Z * Z) (p c : Z) : Prop :=
  let '(nz, ny, nx) := sh in
  ∃ i j k di dj dk,
    p = nx * ny * k + nx * j + i
    ∧ c = nx * ny * (k + dk) + nx * (j + dj) + (i + di)
    ∧ 0 ≤ i < nx ∧ 0 ≤ j < ny ∧ 0 ≤ k < nz
    ∧ 0 ≤ i + di < nx ∧ 0 ≤ j + dj < ny ∧ 0 ≤ k + dk < nz
    ∧ -1 ≤ di ≤ 1 ∧ -1 ≤ dj ≤ 1 ∧ -1 ≤ dk ≤ 1
    ∧ (di ≠ 0 ∨ dj ≠ 0 ∨ dk ≠ 0).

(** The cell [c] shares a face with the cell [p]: the coordinates differ in
    one direction only. *)
Definition face_adjacent (sh : Z * Z * Z) (p c : Z) : Prop :=
  let '(nz, ny, nx) := sh in
  ∃ i j k di dj dk,
    p = nx * ny * k + nx * j + i
    ∧ c = nx * ny * (k + dk) + nx * (j + dj) + (i + di)
    ∧ 0 ≤ i < nx ∧ 0 ≤ j < ny ∧ 0 ≤ k < nz
    ∧ 0 ≤ i + di < nx ∧ 0 ≤ j + dj < ny ∧ 0 ≤ k + dk < nz
    ∧ Z.abs di + Z.abs dj + Z.abs dk = 1.


(** ** The bodies that grow from the seeds *)

(** Every cell of the list but the first shares a face with a cell before
    it. *)
Definition grown (sh : Z * Z * Z) (l : list Z) : Prop :=
  ∀ k c, l !! k = Some c → (0 < k)%nat →
    ∃ j e, (j < k)%nat ∧ l !! j = Some e ∧ face_adjacent sh e c.

(** The estimate of the seed starts with its own cell, lies on the grid and
    is grown from that cell through faces, and every cell of its frontier
    shares a face with a cell of the estimate. *)
Definition body_ok (sh : Z * Z * Z) (s : SeedPrism) : Prop :=
  head (estimate s) = Some (index s)
  ∧ (∀ c, c ∈ estimate s → 0 ≤ c < grid_size sh)
  ∧ grown sh (estimate s)
  ∧ ∀ c, c ∈ neighbors s → ∃ e, e ∈ estimate s ∧ face_adjacent sh e c.

Definition bodies_ok (sh : Z * Z * Z) (ss : list SeedPrism) : Prop :=
  ∀ s, s ∈ ss → body_ok sh s.

(** ** The parts of [_cat_estimate] *)

(** What [_cat_estimate] does for one property of one seed: the pairs of the
    cells of the seed with the value of the property extend the list of the
    property. *)
Definition cat_step (s : SeedPrism) (est : gmap string (list (Z * Qc)))
    (pv : string * Qc) : gmap string (list (Z * Qc)) :=
  let values := (λ c, (c, pv.2)) <$> estimate s in
  match est !! pv.1 with
  | None => <[pv.1 := values]> est
  | Some old => <[pv.1 := old ++ values]> est
  end.

(** The lists of pairs of all the seeds, from the lists [est]. *)
Definition cat_pairs (ss : list SeedPrism) (est : gmap string (list (Z * Qc)))
    : gmap string (list (Z * Qc)) :=
  foldl (λ est s, foldl (cat_step s) est (map_to_list (props s))) est ss.

(** [dict(pairs)], from the dictionary [d0]. *)
Definition dict_of (d0 : gmap Z Qc) (l : list (Z * Qc)) : gmap Z Qc :=
  foldl (λ d (cv : Z * Qc), <[cv.1 := cv.2]> d) d0 l.

(** ** What a run leaves of the data modules *)

(** The module [dm'] is the module [dm] but for its prediction, its cache
    and the cells it has accumulated. *)
Definition static (dm dm' : DM) : Prop :=
  dm_class dm' = dm_class dm ∧ data dm' = data dm
  ∧ xp dm' = xp dm ∧ yp dm' = yp dm ∧ zp dm' = zp dm
  ∧ norm dm' = norm dm ∧ weight dm' = weight dm
  ∧ prop_type dm' = prop_type dm.

(** No module of the list is of the second-invariant class. *)
Definition no_invariant (ds : list DM) : Prop :=
  Forall (λ dm, dm_class dm ≠ DMPrismI2) ds.

(** The modules are kept, and so is the mesh when no module is of the
    second-invariant class. *)
Definition modules_kept (ds : list DM) (m : PrismMesh) (ds' : list DM)
    (m' : PrismMesh) : Prop :=
  Forall2 static ds ds' ∧ (no_invariant ds → m' = m).

(** ** Concrete instances used by the examples *)

(** A square root that is exact on the squares of rationals. *)
Definition sqrt_c (q : Qc) : Qc := Q2Qc (Z.sqrt (Qnum q) # Pos.sqrt (Qden q)).

(** A kernel in which every prism contributes its density to every
    observation point: the override [dens] when given, else the density
    property of the cell; masked cells and cells without density are
    skipped. *)
Definition unit_kernel (f : string) (xp_ yp_ zp_ : list Qc)
    (cs : list (option Prism)) (dens : option Qc) : list Qc :=
  let total :=
    Qc_sum (omap (λ c : option Prism,
                    c' ← c;
                    match dens with
                    | Some d => Some d
                    | None => cell_props c' !! "density"%string
                    end) cs) in
  (λ _, total) <$> xp_.

(** A row of [n] unit cells along x, shape (1, 1, n), and a column of [n]
    unit cells along z, shape (n, 1, 1); no cell is masked. *)
Definition row_mesh (n : Z) : PrismMesh :=
  mkMesh (1, 1, n) (1, 1, 1)%Qc
    (list_to_map ((λ i, (i, mkPrism (Qc_of_Z i) (Qc_of_Z (i + 1)) 0 1 0 1 ∅))
                    <$> seqZ 0 n)).
Definition column_mesh (n : Z) : PrismMesh :=
  mkMesh (n, 1, 1) (1, 1, 1)%Qc
    (list_to_map ((λ i, (i, mkPrism 0 1 0 1 (Qc_of_Z i) (Qc_of_Z (i + 1)) ∅))
                    <$> seqZ 0 n)).

Definition density (v : Z) : gmap string Qc :=
  {[ "density"%string := Qc_of_Z v ]}.
Definition susceptibility (v : Z) : gmap string Qc :=
  {[ "susceptibility"%string := Qc_of_Z v ]}.

(** A data module of class [c] with one observation [d] at the origin and
    the l1 norm, as its constructor leaves it. *)
Definition one_point (c : DMClass) (d : Z) : DM :=
  mkDM c [Qc_of_Z d] [0%Qc] [0%Qc] [0%Qc] [0%Qc] 1
       (1 / linalg_norm sqrt_c [Qc_of_Z d] 1)%Qc ∅ (Some "density"%string) [].


(** A kernel in which every prism contributes its density times one more
    than its upper edge along x: cells further along x weigh more. *)
Definition edge_kernel (f : string) (xp_ yp_ zp_ : list Qc)
    (cs : list (option Prism)) (dens : option Qc) : list Qc :=
  let total :=
    Qc_sum (omap (λ c : option Prism,
                    c' ← c;
                    d ← match dens with
                        | Some d => Some d
                        | None => cell_props c' !! "density"%string
                        end;
                    Some (d * (x2 c' + 1))%Qc) cs) in
  (λ _, total) <$> xp_.

(** A seed as [sow] makes it with [mu=0] and the default [delta]. *)
Definition plain_seed (i : Z) (p : gmap string Qc) (m : PrismMesh) : SeedPrism :=
  SeedPrism_init i p m 0%Qc (Q2Qc (1 # 10000)) false.

(** Two cells in a row; a seed with a density in cell 0 and a seed with a
    susceptibility in cell 1; one gravity module (it tracks density) whose
    single observation is 2. *)
Definition world_two_properties : World :=
  mkWorld [one_point DMPrismGz 2]
          [plain_seed 0 (density 1) (row_mesh 2);
           plain_seed 1 (susceptibility 1) (row_mesh 2)]
          (row_mesh 2).

(** Three cells in a row; a seed with a density in cell 0 and a seed with a
    susceptibility in cell 2; the gravity module and a module derived from
    [DMPrism] in the way its documentation describes, with [prop_type] set
    to the susceptibility; each has the single observation 5. *)
Definition world_two_modules : World :=
  mkWorld [one_point DMPrismGz 5;
           set_prop_type (Some "susceptibility"%string) (one_point DMPrismGz 5)]
          [plain_seed 0 (density 1) (row_mesh 3);
           plain_seed 2 (susceptibility 1) (row_mesh 3)]
          (row_mesh 3).

(** Three cells in a row; a seed with density 1 in each end cell; the
    gravity module with the single observation 5. *)
Definition world_two_densities : World :=
  mkWorld [one_point DMPrismGz 5]
          [plain_seed 0 (density 1) (row_mesh 3);
           plain_seed 2 (density 1) (row_mesh 3)]
          (row_mesh 3).

(** Three cells in a row with a seed of density 2 in the middle cell, whose
    frontier is the two end cells; the gravity module with the single
    observation 11. *)
Definition world_middle_seed : World :=
  mkWorld [one_point DMPrismGz 11]
          [plain_seed 1 (density 2) (row_mesh 3)]
          (row_mesh 3).

(** ** Instances for the matrix solver *)

(** One layer of [ny] rows of [nx] unit cells. *)
Definition unit_cell (nx i : Z) : pgrav3d.Cell :=
  pgrav3d.mkCell (Qc_of_Z (i `mod` nx)) (Qc_of_Z (i `mod` nx + 1))
                 (Qc_of_Z (i / nx)) (Qc_of_Z (i / nx + 1)) 0 1.
Definition flat_mesh (ny nx : Z) : pgrav3d.Mesh :=
  pgrav3d.mkMesh (1, ny, nx) (unit_cell nx <$> seqZ 0 (ny * nx)).

(** The seed that [get_seed] makes for a point of cell [p] and density [d]. *)
Definition seed_at (m : pgrav3d.Mesh) (p d : Z) : pgrav3d.Seed :=
  pgrav3d.mkSeed p (Qc_of_Z d) (unit_cell (pgrav3d.shape m).2 p) [].

(** One datum, on which every cell has the effect 1 per unit of density. *)
Definition unit_jacobian (n : Z) : list Qc := [1%Qc].

(** Five cells in a row with a seed of density 1 in cell 0 and a seed of
    density 2 in cell 4, and the same with the second seed in cell 2. *)
Definition row_seeds_far : list pgrav3d.Seed :=
  [seed_at (flat_mesh 1 5) 0 1; seed_at (flat_mesh 1 5) 4 2].
Definition row_seeds_near : list pgrav3d.Seed :=
  [seed_at (flat_mesh 1 5) 0 1; seed_at (flat_mesh 1 5) 2 2].

(** Two rows of four cells with seeds of density 1 in cells 0 and 4 and
    seeds of density 2 in cells 2 and 7. *)
Definition four_seeds : list pgrav3d.Seed :=
  [seed_at (flat_mesh 2 4) 0 1; seed_at (flat_mesh 2 4) 4 1;
   seed_at (flat_mesh 2 4) 2 2; seed_at (flat_mesh 2 4) 7 2].

(** ** Instances for the helpers *)

(** The bounds of a row of three unit cells, and the edges of its cells
    along each axis. *)
Definition row3_bounds (m : PrismMesh) : Qc * Qc * Qc * Qc * Qc * Qc :=
  (0, Qc_of_Z 3, 0, 1, 0, 1)%Qc.
Definition row3_xs (m : PrismMesh) : list Qc := Qc_of_Z <$> [0; 1; 2; 3].
Definition unit_edges (m : PrismMesh) : list Qc := Qc_of_Z <$> [0; 1].

(** Three points in the row: the first and the last in cell 0, the second
    in cell 2. *)
Definition three_points : list (Qc * Qc * Qc) :=
  [(Q2Qc (1 # 2), Q2Qc (1 # 2), Q2Qc (1 # 2));
   (Q2Qc (5 # 2), Q2Qc (1 # 2), Q2Qc (1 # 2));
   (Q2Qc (1 # 4), Q2Qc (1 # 2), Q2Qc (1 # 2))]%Qc.

(** * Properties of the data modules *)

Lemma result_bind_Ok {A B} (f : A → result B) (m : result A) (b : B) :
  m ≫= f = Ok b → ∃ a, m = Ok a ∧ f a = Ok b.
Proof. destruct m as [e|a]; simpl; [discriminate | eauto]. Qed.

Ltac inv_bind H :=
  let a := fresh "a" in
  let Ha := fresh "Ha" in
  apply result_bind_Ok in H as (a & Ha & H).

Tactic Notation "bind_inv" hyp(H) "as" ident(a) ident(Ha) :=
  apply result_bind_Ok in H as (a & Ha & H).

(** The constructor raises exactly when the norm order is wrong or all three
    adjacent pairs of lengths differ. *)
Lemma DMPrism_init_raises sqrt (d x y z : list Qc) (n : Z) :
  (∃ e, DMPrism_init sqrt d x y z n = Raise e) ↔
  n ∉ [1; 2] ∨ (length x ≠ length y ∧ length y ≠ length z ∧ length z ≠ length d).
Proof.
  unfold DMPrism_init.
  destruct (bool_decide_reflect (n ∈ [1; 2])) as [Hn|Hn]; simpl.
  - destruct (bool_decide_reflect (length x ≠ length y)) as [H1|H1];
      destruct (bool_decide_reflect (length y ≠ length z)) as [H2|H2];
      destruct (bool_decide_reflect (length z ≠ length d)) as [H3|H3]; simpl;
      split; try (intros [e He]; discriminate); eauto;
      intros [?|(? & ? & ?)]; contradiction.
  - split; eauto.
Qed.

(** C2.  The constructor of a data module is meant to reject observation
    arrays of unequal length.  With [xp], [yp] and [zp] of length one and two
    data values it returns a module: the chained comparison stops at the
    first pair of equal lengths. *)
Theorem DMPrism_init_accepts_mismatch sqrt :
  length [0%Qc] ≠ length [1%Qc; 2%Qc] ∧
  ∃ dm, DMPrism_init sqrt [1%Qc; 2%Qc] [0%Qc] [0%Qc] [0%Qc] 1 = Ok dm
        ∧ data dm = [1%Qc; 2%Qc] ∧ xp dm = [0%Qc].
Proof. split; [simpl; lia|]. eexists. split; [reflexivity|]. split; reflexivity. Qed.

(** A module that is not of the second-invariant class ignores an element
    without the tracked property. *)
Lemma DMPrism_update_untracked pot (dm : DM) (i : Z) (p : gmap string Qc)
    (m : PrismMesh) :
  dm_class dm ≠ DMPrismI2 → tracked dm p = false →
  update pot dm (i, p) m = Ok (dm, m).
Proof.
  intros Hc Ht. unfold update, DMPrism_update. rewrite Ht.
  destruct (dm_class dm); try reflexivity. contradiction.
Qed.

(** C6.  [update] is meant to do nothing for an element without the tracked
    property.  [DMPrismI2.update] has no such test: on a fresh module that
    tracks density, an element with only a susceptibility is appended to the
    accumulated estimate and written to the mesh. *)
Theorem DMPrismI2_update_untracked_changes :
  tracked (one_point DMPrismI2 1) (susceptibility 1) = false ∧
  ∃ dm' mesh',
    update unit_kernel (one_point DMPrismI2 1) (0, susceptibility 1) (row_mesh 2)
      = Ok (dm', mesh')
    ∧ dm_estimate (one_point DMPrismI2 1) = []
    ∧ dm_estimate dm' = [0]
    ∧ (cells (row_mesh 2) !! 0) ≫= (λ c, cell_props c !! "susceptibility"%string)
        = None
    ∧ (cells mesh' !! 0) ≫= (λ c, cell_props c !! "susceptibility"%string)
        = Some (Qc_of_Z 1).
Proof.
  split; [reflexivity|].
  eexists _, _. split; [vm_compute; reflexivity|].
  repeat split; vm_compute; reflexivity.
Qed.

(** ** Additivity of [DMPrism.update] *)








(** On float64 the order of the in-place additions shows in the result:
    adding 0.1, 0.2 and 0.3 to a prediction of zero gives another number
    than adding 0.3, 0.2 and 0.1. *)
Lemma float64_iadd_order :
  ∃ a b, float64.iadd_each float64.no_prediction float64.tenths = Ok [a]
    ∧ float64.iadd_each float64.no_prediction (reverse float64.tenths) = Ok [b]
    ∧ PrimFloat.eqb a b = false ∧ a ≠ b.
Proof.
  eexists _, _. split; [vm_compute; reflexivity|].
  split; [vm_compute; reflexivity|]. split; [vm_compute; reflexivity|].
  lazymatch goal with
  | |- ?a ≠ ?b =>
      intros H; apply (f_equal (λ x, PrimFloat.eqb x b)) in H;
      vm_compute in H; discriminate
  end.
Qed.

(** What [update] adds for a cell that has no entry in the cache is the
    effect computed for the cell and its properties. *)
Lemma contribution_computed pot (dm : DM) (m : PrismMesh) (c : Element) :
  effect dm !! c.1 = None →
  contribution pot dm m c = _effect_of_prism pot dm c.1 c.2 m.
Proof. unfold contribution. by intros ->. Qed.



(** * Properties of the seeds *)

Lemma foldlM_invariant {A B} (P : B → Prop) (f : B → A → result B)
    (l : list A) (b r : B) :
  P b → (∀ b a b', P b → a ∈ l → f b a = Ok b' → P b') →
  foldlM f b l = Ok r → P r.
Proof.
  revert b. induction l as [|a l IH]; intros b Hb Hstep H; simpl in H.
  - by injection H as <-.
  - inv_bind H. apply (IH a0); [| |done].
    + apply (Hstep b a); [done|left|done].
    + intros b1 a1 b2 Hb1 Ha1. apply Hstep; [done|by right].
Qed.

(** The distance methods write to the distance dictionary only. *)
Definition same_seed (s s' : SeedPrism) : Prop :=
  props s' = props s ∧ estimate s' = estimate s ∧ neighbors s' = neighbors s
  ∧ index s' = index s.

Lemma same_seed_refl s : same_seed s s.
Proof. by repeat split. Qed.

Lemma _get_distances_same sqrt (s s' : SeedPrism) (m : PrismMesh) (l : list Z) :
  _get_distances sqrt s m l = Ok s' → same_seed s s'.
Proof.
  unfold _get_distances, _get_relative_distances, _get_absolute_distances.
  destruct (reldist s); intros H.
  - revert H. apply foldlM_invariant; [apply same_seed_refl|].
    intros b a b' Hb _ Hf. destruct (to_ijk m a) as [[? ?] ?].
    destruct (ijk b) as [[[? ?] ?]|]; [|discriminate].
    injection Hf as <-. exact Hb.
  - inv_bind H. revert H. apply foldlM_invariant; [apply same_seed_refl|].
    intros b x b' Hb _ Hf. inv_bind Hf.
    destruct a0 as [nc|]; [|discriminate]. destruct a as [sc|]; [|discriminate].
    injection Hf as <-. exact Hb.
Qed.

(** What [_find_neighbors] keeps is a sublist of the candidates, all on the
    grid. *)
Lemma unmasked_sublist (m : PrismMesh) (l : list (option Z)) (r : list Z) :
  unmasked m l = Ok r → r `sublist_of` omap id l ∧ ∀ x, x ∈ r → 0 ≤ x < size m.
Proof.
  revert r. induction l as [|[i|] l IH]; intros r H; simpl in H.
  - injection H as <-. split; [done|]. intros x Hx. by apply elem_of_nil in Hx.
  - inv_bind H. inv_bind H. injection H as <-.
    destruct (IH _ Ha0) as [Hs Hr]. simpl.
    assert (0 ≤ i < size m) as Hi.
    { unfold mesh_getitem in Ha. by case_bool_decide. }
    destruct a as [c|].
    + split; [by apply sublist_skip|]. intros x Hx.
      apply elem_of_cons in Hx as [->|Hx]; auto.
    + split; [by apply sublist_cons|]. done.
  - simpl. by apply IH.
Qed.

Lemma face_indexes_NoDup (m : PrismMesh) (n : Z) (up down : bool)
    (nz ny nx : Z) :
  shape m = (nz, ny, nx) → 0 < nx → 0 < ny →
  NoDup (omap id (face_indexes m n up down)).
Proof.
  intros Hs Hx Hy. unfold face_indexes. rewrite Hs.
  assert (ny = 1 → n `mod` (nx * ny) = n `mod` nx) as Hy1.
  { intros ->. by rewrite Z.mul_1_r. }
  assert (nx = 1 → n `mod` nx = 0) as Hx1.
  { intros ->. apply Z.mod_1_r. }
  pose proof (Z.mod_pos_bound n nx Hx) as Hb.
  assert (nx * ny = 1 → nx = 1) as Hxy1 by nia.
  assert (nx * ny = nx → ny = 1) as Hxy2 by nia.
  assert (0 < nx * ny) as Hxy by nia.
  destruct up, down; simpl;
    repeat case_bool_decide; simpl;
    repeat (apply NoDup_cons_2;
            [rewrite ?elem_of_cons, elem_of_nil; intros Hin;
             repeat destruct Hin as [Hin|Hin]; try lia;
             try (specialize (Hx1 ltac:(nia)); lia);
             try (specialize (Hy1 ltac:(nia)); nia)|]);
    apply NoDup_nil_2.
Qed.

Lemma elem_of_keys (p : gmap string Qc) (k : string) :
  In k (map_to_list p).*1 ↔ is_Some (p !! k).
Proof.
  rewrite <- list_elem_of_In, list_elem_of_fmap. split.
  - intros [[k' v] [-> Hin]]. apply elem_of_map_to_list in Hin. eauto.
  - intros [v Hv]. exists (k, v). split; [done|]. by apply elem_of_map_to_list.
Qed.

Lemma _in_estimate_true (self : SeedPrism) (n : Z) (ss : list SeedPrism) :
  _in_estimate self n ss = true ↔
  ∃ s, s ∈ ss ∧ shares self s ∧ n ∈ estimate s.
Proof.
  unfold _in_estimate. rewrite existsb_exists. split.
  - intros (s & Hs & Hex). apply existsb_exists in Hex as (p & Hp & Hb).
    apply andb_true_iff in Hb as [H1 H2].
    apply bool_decide_eq_true in H1, H2. apply elem_of_keys in Hp.
    exists s. split; [by apply list_elem_of_In|]. split; [by exists p|done].
  - intros (s & Hs & (p & Hp1 & Hp2) & Hn). exists s.
    split; [by apply list_elem_of_In|]. apply existsb_exists. exists p.
    split; [by apply elem_of_keys|].
    apply andb_true_iff. split; by apply bool_decide_eq_true.
Qed.

Lemma _is_neighbor_true (self : SeedPrism) (n : Z) (ss : list SeedPrism) :
  _is_neighbor self n ss = true ↔
  ∃ s, s ∈ ss ∧ shares self s ∧ n ∈ neighbors s.
Proof.
  unfold _is_neighbor. rewrite existsb_exists. split.
  - intros (s & Hs & Hex). apply existsb_exists in Hex as (p & Hp & Hb).
    apply andb_true_iff in Hb as [H1 H2].
    apply bool_decide_eq_true in H1, H2. apply elem_of_keys in Hp.
    exists s. split; [by apply list_elem_of_In|]. split; [by exists p|done].
  - intros (s & Hs & (p & Hp1 & Hp2) & Hn). exists s.
    split; [by apply list_elem_of_In|]. apply existsb_exists. exists p.
    split; [by apply elem_of_keys|].
    apply andb_true_iff. split; by apply bool_decide_eq_true.
Qed.

(** The cells that pass the two filters of [initialize] and
    [_update_neighbors]. *)
Lemma elem_of_new_neighbors (self : SeedPrism) (ss : list SeedPrism)
    (found : list Z) (x : Z) :
  x ∈ _not_neighbors self ss (_are_free self ss found) ↔
  x ∈ found
  ∧ (∀ s, s ∈ ss → shares self s → x ∉ estimate s)
  ∧ (∀ s, s ∈ ss → shares self s → x ∉ neighbors s).
Proof.
  unfold _not_neighbors, _are_free. rewrite !list_elem_of_filter.
  split.
  - intros (Hn & He & Hf). split; [done|]. split; intros s Hs Hsh Hx.
    + assert (_in_estimate self x ss = true) as Ht
        by (apply _in_estimate_true; eauto). congruence.
    + assert (_is_neighbor self x ss = true) as Ht
        by (apply _is_neighbor_true; eauto). congruence.
  - intros (Hf & He & Hn). repeat split; [| |done].
    + destruct (_is_neighbor self x ss) eqn:Ht; [|done].
      apply _is_neighbor_true in Ht as (s & Hs & Hsh & Hx). by destruct (Hn s).
    + destruct (_in_estimate self x ss) eqn:Ht; [|done].
      apply _in_estimate_true in Ht as (s & Hs & Hsh & Hx). by destruct (He s).
Qed.

Lemma new_neighbors_sublist (self : SeedPrism) (ss : list SeedPrism)
    (found : list Z) :
  _not_neighbors self ss (_are_free self ss found) `sublist_of` found.
Proof.
  unfold _not_neighbors, _are_free.
  etrans; apply sublist_filter.
Qed.

(** [l.remove(x)] *)
Lemma py_remove_Ok (x : Z) (l l' : list Z) :
  py_remove x l = Ok l' → l ≡ₚ x :: l' ∧ l' `sublist_of` l.
Proof.
  revert l'. induction l as [|y l IH]; intros l' H; simpl in H; [discriminate|].
  case_decide as Hy.
  - injection H as <-. subst y. split; [done|]. by apply sublist_cons.
  - inv_bind H. injection H as <-. destruct (IH _ Ha) as [Hp Hs]. split.
    + rewrite Hp. apply Permutation_swap.
    + by apply sublist_skip.
Qed.

Lemma py_remove_elem (x : Z) (l : list Z) :
  x ∈ l → ∃ l', py_remove x l = Ok l'.
Proof.
  induction l as [|y l IH]; intros Hx; [by apply elem_of_nil in Hx|].
  simpl. case_decide; [eauto|].
  apply elem_of_cons in Hx as [->|Hx]; [done|].
  destruct (IH Hx) as [l' ->]. simpl. eauto.
Qed.

(** ** The frontier at initialization *)

(** [initialize] extends the frontier of the seed at position [i] with the
    filtered face neighbours of its cell, and changes no other seed. *)
Lemma initialize_Ok sqrt (i : nat) (ss ss' : list SeedPrism) (m : PrismMesh) :
  initialize sqrt i ss m = Ok ss' →
  ∃ self self' found,
    ss !! i = Some self
    ∧ _find_neighbors m (index self) false true true = Ok found
    ∧ ss' = <[i := self']> ss
    ∧ props self' = props self ∧ estimate self' = estimate self
    ∧ index self' = index self
    ∧ neighbors self'
      = neighbors self ++ _not_neighbors self ss (_are_free self ss found).
Proof.
  unfold initialize. intros H.
  inv_bind H. inv_bind H. inv_bind H. injection H as <-.
  unfold list_getitem in Ha. destruct (ss !! i) as [self|] eqn:Hi; [|discriminate].
  injection Ha as <-.
  apply _get_distances_same in Ha1 as (Hp & He & Hn & Hx).
  exists self, a1, a0. repeat split; try done.
Qed.

(** The cell of index 0 is never among the candidates of the cell of index
    [nx * ny], the one just below it. *)
Lemma face_indexes_below_zero (m : PrismMesh) (up down : bool) (nz ny nx : Z) :
  shape m = (nz, ny, nx) → 0 < nx → 0 < ny →
  0 ∉ omap id (face_indexes m (nx * ny) up down).
Proof.
  intros Hs Hx Hy. unfold face_indexes. rewrite Hs.
  assert ((nx * ny) `mod` nx = 0) as Hm1
    by (rewrite Z.mul_comm; apply Z.mod_mul; lia).
  assert ((nx * ny) `mod` (nx * ny) = 0) as Hm2 by (apply Z.mod_same; nia).
  rewrite Hm1, Hm2.
  destruct up, down; simpl; repeat case_bool_decide; simpl;
    rewrite ?elem_of_cons, elem_of_nil; intros Hin;
    repeat destruct Hin as [Hin|Hin]; nia.
Qed.

(** C4.  [initialize] is meant to put every free, unmasked face neighbour of
    the seed cell in the frontier.  For a fresh seed in the cell of index
    [nx * ny] the neighbour above is the cell of index 0, and it is never in
    the frontier, whatever the mask and the other seeds: [_find_neighbors]
    tests [n - nx*ny > 0] where the neighbour of index 0 needs [>= 0]. *)
Theorem initialize_misses_cell_zero sqrt (i : nat) (ss ss' : list SeedPrism)
    (m : PrismMesh) (self self' : SeedPrism) (nz ny nx : Z) :
  shape m = (nz, ny, nx) → 0 < nx → 0 < ny →
  ss !! i = Some self → fresh self → index self = nx * ny →
  initialize sqrt i ss m = Ok ss' →
  ss' !! i = Some self' →
  index self - nx * ny = 0 ∧ 0 ∉ neighbors self'.
Proof.
  intros Hs Hx Hy Hi [_ Hn] Hidx H Hi'.
  split; [lia|].
  apply initialize_Ok in H
    as (s0 & s1 & found & Hi0 & Hf & -> & _ & _ & _ & Hnb).
  rewrite Hi in Hi0. injection Hi0 as <-.
  rewrite list_lookup_insert_eq in Hi' by (by eapply lookup_lt_Some).
  injection Hi' as <-. rewrite Hnb, Hn. simpl.
  intros H0. apply elem_of_new_neighbors in H0 as (H0 & _).
  unfold _find_neighbors in Hf. rewrite app_nil_r in Hf.
  apply unmasked_sublist in Hf as [Hsub _].
  eapply face_indexes_below_zero; [done..|].
  rewrite Hidx in Hsub. by eapply elem_of_sublist.
Qed.

Lemma initialize_misses_cell_zero_witness :
  let m := column_mesh 2 in
  let self := plain_seed 1 (density 1) m in
  is_Some (cells m !! 0) ∧
  initialize sqrt_c 0 [self] m = Ok [self] ∧
  (index self - 1 * 1 = 0 ∧ 0 ∉ neighbors self).
Proof.
  intros m self.
  split; [by eexists|]. split; [vm_compute; reflexivity|].
  apply (initialize_misses_cell_zero sqrt_c 0 [self] [self] m self self 2 1 1).
  - reflexivity.
  - lia.
  - lia.
  - reflexivity.
  - split; reflexivity.
  - reflexivity.
  - vm_compute; reflexivity.
  - reflexivity.
Defined.

(** * The acceptance rule of a growth step *)

Lemma mapM_Ok {A B} (f : A → result B) (l : list A) (r : list B) :
  mapM f l = Ok r → Forall2 (λ x y, f x = Ok y) l r.
Proof.
  revert r. induction l as [|x l IH]; intros r H; simpl in H.
  - injection H as <-. constructor.
  - inv_bind H. inv_bind H. injection H as <-. constructor; auto.
Qed.

Lemma list_getitem_Ok {A} (l : list A) (i : nat) (v : A) :
  list_getitem l i = Ok v ↔ l !! i = Some v.
Proof. unfold list_getitem. destruct (l !! i); split; congruence. Qed.

Lemma getitem_Ok {V} (d : gmap Z V) (k : Z) (v : V) :
  getitem d k = Ok v ↔ d !! k = Some v.
Proof. unfold getitem. destruct (d !! k); split; congruence. Qed.

(** [argmin] returns a position of the list that holds a least entry. *)
Lemma argmin_from_spec (full l : list Qc) (best : nat) (bv : Qc) (pos : nat) :
  full !! best = Some bv →
  (∀ j v, (j < pos)%nat → full !! j = Some v → (bv ≤ v)%Qc) →
  drop pos full = l →
  ∃ v, full !! argmin_from best bv pos l = Some v
       ∧ ∀ j v', full !! j = Some v' → (v ≤ v')%Qc.
Proof.
  revert best bv pos. induction l as [|x l IH]; intros best bv pos Hb Hmin Hd.
  - simpl. exists bv. split; [done|]. intros j v' Hj. apply (Hmin j); [|done].
    apply lookup_lt_Some in Hj.
    assert (length (drop pos full) = 0%nat) as Hl by (by rewrite Hd).
    rewrite length_drop in Hl. lia.
  - simpl.
    assert (full !! pos = Some x) as Hpos.
    { rewrite <- (Nat.add_0_r pos), <- lookup_drop, Hd. done. }
    assert (drop (S pos) full = l) as Hd'.
    { rewrite (drop_S _ _ _ Hpos) in Hd. by injection Hd. }
    case_decide as Hlt.
    + apply IH; [done| |done]. intros j v Hj Hv.
      destruct (decide (j = pos)) as [->|Hne].
      * rewrite Hpos in Hv. injection Hv as <-. apply Qcle_refl.
      * apply Qclt_le_weak. eapply Qclt_le_trans; [exact Hlt|].
        apply (Hmin j); [lia|done].
    + apply IH; [done| |done]. intros j v Hj Hv.
      destruct (decide (j = pos)) as [->|Hne].
      * rewrite Hpos in Hv. injection Hv as <-. by apply Qcnot_lt_le.
      * apply (Hmin j); [lia|done].
Qed.

Lemma argmin_Ok (l : list Qc) (k : nat) :
  argmin l = Ok k →
  ∃ v, l !! k = Some v ∧ ∀ j v', l !! j = Some v' → (v ≤ v')%Qc.
Proof.
  destruct l as [|x l]; simpl; [discriminate|]. intros H. injection H as <-.
  apply (argmin_from_spec (x :: l) l 0 x 1); [done| |done].
  intros j v Hj Hv. assert (j = 0%nat) as -> by lia.
  injection Hv as <-. apply Qcle_refl.
Qed.

(** Below the current misfit, the test of [_judge] on the absolute
    difference is the test on the decrease. *)
Lemma acceptable_judge (self : SeedPrism) (m m' : Qc) :
  ((m' < m)%Qc ∧ (delta self ≤ Qcabs (m' - m) / m)%Qc) ↔ acceptable self m m'.
Proof.
  unfold acceptable.
  assert ((m' < m)%Qc → Qcabs (m' - m) = (m - m')%Qc) as Habs.
  { intros Hlt. rewrite Qcabs_neg; [ring|].
    apply Qclt_le_weak. apply (Qcplus_lt_mono_r _ _ (- m)%Qc) in Hlt.
    replace (m + - m)%Qc with 0%Qc in Hlt by ring. exact Hlt. }
  split; intros [Hlt Hd]; (split; [done|]).
  - by rewrite <- Habs.
  - by rewrite Habs.
Qed.

Lemma elem_of_enumerate (l : list Qc) (i : nat) (m : Qc) :
  (i, m) ∈ imap (λ i m, (i, m)) l ↔ l !! i = Some m.
Proof.
  rewrite elem_of_lookup_imap. split.
  - intros (i' & x & Heq & Hx). by injection Heq as -> ->.
  - intros H. by exists i, m.
Qed.

(** [_judge]: no choice when no candidate passes the misfit condition; else
    a passing candidate whose goal is least among the passing ones. *)
Lemma _judge_spec (self : SeedPrism) (gs ms : list Qc) (goal m : Qc)
    (r : option (nat * Qc * Qc)) :
  _judge self gs ms goal m = Ok r →
  match r with
  | None => ∀ j mj, ms !! j = Some mj → ¬ acceptable self m mj
  | Some (k, g', m') =>
      gs !! k = Some g' ∧ ms !! k = Some m' ∧ acceptable self m m'
      ∧ ∀ j mj gj, ms !! j = Some mj → gs !! j = Some gj →
                   acceptable self m mj → (g' ≤ gj)%Qc
  end.
Proof.
  unfold _judge.
  set (P := λ im : nat * Qc,
              (im.2 < m)%Qc ∧ (delta self ≤ Qcabs (im.2 - m) / m)%Qc).
  set (dec := (filter P (imap (λ i m0, (i, m0)) ms)).*1).
  assert (∀ i, i ∈ dec ↔ ∃ mi, ms !! i = Some mi ∧ acceptable self m mi) as Hdec.
  { intros i. unfold dec. rewrite list_elem_of_fmap. split.
    - intros ([i' mi] & -> & Hin). apply list_elem_of_filter in Hin as [HP Hin].
      apply elem_of_enumerate in Hin. exists mi. split; [done|].
      by apply acceptable_judge.
    - intros (mi & Hmi & Hacc). exists (i, mi). split; [done|].
      apply list_elem_of_filter. split; [by apply acceptable_judge|].
      by apply elem_of_enumerate. }
  destruct dec as [|d0 dec'] eqn:Hd.
  - intros H. injection H as <-. intros j mj Hj Hacc.
    assert (j ∈ @nil nat) as Hin by (apply Hdec; eauto).
    by apply elem_of_nil in Hin.
  - intros H. bind_inv H as gsel Hsel. bind_inv H as k Hk.
    bind_inv H as best Ha1. bind_inv H as g' Ha2. bind_inv H as m' Ha3.
    injection H as <-.
    apply mapM_Ok in Hsel. apply argmin_Ok in Hk as (v & Hv & Hmin).
    apply list_getitem_Ok in Ha1, Ha2, Ha3.
    assert (best ∈ d0 :: dec') as Hbest by (by eapply list_elem_of_lookup_2).
    apply Hdec in Hbest as (mb & Hmb & Hacc).
    rewrite Ha3 in Hmb. injection Hmb as <-.
    split; [done|]. split; [done|]. split; [done|].
    intros j mj gj Hmj Hgj Haccj.
    assert (j ∈ d0 :: dec') as Hj by (apply Hdec; eauto).
    apply list_elem_of_lookup_1 in Hj as [pj Hpj].
    destruct (Forall2_lookup_l _ _ _ _ _ Hsel Hpj) as (gj' & Hgj' & Hget).
    apply list_getitem_Ok in Hget. rewrite Hgj in Hget. injection Hget as <-.
    destruct (Forall2_lookup_l _ _ _ _ _ Hsel Ha1) as (gb & Hgb & Hget).
    apply list_getitem_Ok in Hget. rewrite Ha2 in Hget. injection Hget as <-.
    rewrite Hv in Hgb. injection Hgb as <-.
    by apply (Hmin pj).
Qed.

Lemma _judge_none (self : SeedPrism) (gs ms : list Qc) (goal m : Qc) :
  (∀ j mj, ms !! j = Some mj → ¬ acceptable self m mj) →
  _judge self gs ms goal m = Ok None.
Proof.
  intros Hnone. unfold _judge.
  destruct (filter _ _) as [|[i mi] l] eqn:Hf; [done|].
  assert ((i, mi) ∈ (i, mi) :: l) as Hin by left.
  rewrite <- Hf in Hin. apply list_elem_of_filter in Hin as [HP Hin].
  apply elem_of_enumerate in Hin. apply acceptable_judge in HP.
  by destruct (Hnone i mi).
Qed.

(** [candidate_misfits] tries the candidates in the order of the frontier:
    the misfit at position [k] is the sum of the what-if queries of the
    modules for the candidate at position [k], made on the modules and the
    mesh as the queries for the candidates before it leave them. *)
Lemma candidate_misfits_each sqrt pot (ds : list DM) (p : gmap string Qc)
    (nbrs : list Z) (m : PrismMesh) (ms : list Qc) (ds' : list DM)
    (m' : PrismMesh) :
  candidate_misfits sqrt pot ds p nbrs m = Ok (ms, ds', m') →
  length ms = length nbrs
  ∧ ∀ k n, nbrs !! k = Some n →
      ∃ mk dsk meshk dsk' meshk',
        candidate_misfits sqrt pot ds p (take k nbrs) m
          = Ok (take k ms, dsk, meshk)
        ∧ testdrive_sum sqrt pot dsk (n, p) meshk 0 = Ok (mk, dsk', meshk')
        ∧ ms !! k = Some mk.
Proof.
  revert ds m ms. induction nbrs as [|n0 nbrs IH]; intros ds m ms H;
    simpl in H.
  - injection H as <- _ _. split; [done|]. intros k n Hk. discriminate.
  - bind_inv H as r1 H1. destruct r1 as [[v ds1] m1].
    bind_inv H as r2 H2. destruct r2 as [[vs ds2] m2].
    injection H as <- <- <-. destruct (IH _ _ _ H2) as [Hlen Heach].
    split; [simpl; by rewrite Hlen|].
    intros [|k] n Hk; simpl in Hk.
    + injection Hk as <-. exists v, ds, m, ds1, m1. by split_and!.
    + destruct (Heach k n Hk) as (mk & dsk & meshk & dsk' & meshk' & Hpre
                                  & Hsum & Hmk).
      exists mk, dsk, meshk, dsk', meshk'. split; [|done].
      simpl. rewrite H1. simpl. rewrite Hpre. done.
Qed.

(** [candidate_goals] gives every candidate its goal: its misfit plus the
    regularization of all the seeds plus [mu] times its stored distance. *)
Lemma candidate_goals_each (self : SeedPrism) (ss : list SeedPrism)
    (ms gs : list Qc) :
  length ms = length (neighbors self) →
  candidate_goals self ss ms = Ok gs →
  length gs = length (neighbors self)
  ∧ ∀ k n mk, neighbors self !! k = Some n → ms !! k = Some mk →
      ∃ gk d, gs !! k = Some gk ∧ distance self !! n = Some d
              ∧ gk = (mk + regularizer ss + mu self * d)%Qc.
Proof.
  intros Hlen H. unfold candidate_goals in H. apply mapM_Ok in H.
  split.
  - apply Forall2_length in H. rewrite <- H, length_zip_with. lia.
  - intros k n mk Hn Hmk.
    assert (zip (neighbors self) ms !! k = Some (n, mk)) as Hz.
    { apply lookup_zip_with_Some. eauto. }
    destruct (Forall2_lookup_l _ _ _ _ _ H Hz) as (g & Hg & Hf).
    simpl in Hf. bind_inv Hf as d Hd. injection Hf as <-.
    apply getitem_Ok in Hd. by exists (mk + regularizer ss + mu self * d)%Qc, d.
Qed.

(** C3.  A growth step of the seed at position [i] with the current misfit
    [m > 0], when the what-if queries and the look-ups of the distances
    succeed; [ms] are the hypothetical misfits and [gs] the hypothetical
    goals.  There is one misfit and one goal for every candidate of the
    frontier, in its order: the misfit is the sum of the what-if queries of
    the modules for the candidate, and the goal is that misfit plus the sum
    of the regularization of all seeds plus [mu] times the stored distance of
    the candidate.  The step returns no growth when no candidate passes the
    misfit condition, and only then.  When it returns an accretion, the
    accepted cell is a candidate of the frontier that passes the misfit
    condition, the returned goal and misfit are its own, and its goal is the
    least among the candidates that pass. *)
Theorem grow_acceptance sqrt pot (i : nat) (w : World) (goal m : Qc)
    (self : SeedPrism) (ms gs : list Qc) (ds1 : list DM) (m1 : PrismMesh) :
  seeds w !! i = Some self →
  (0 < m)%Qc →
  candidate_misfits sqrt pot (dms w) (props self) (neighbors self) (mesh w)
    = Ok (ms, ds1, m1) →
  candidate_goals self (seeds w) ms = Ok gs →
  (length ms = length (neighbors self) ∧ length gs = length (neighbors self))
  ∧ (∀ k n, neighbors self !! k = Some n →
       ∃ mk gk d dsk meshk dsk' meshk',
         candidate_misfits sqrt pot (dms w) (props self)
           (take k (neighbors self)) (mesh w) = Ok (take k ms, dsk, meshk)
         ∧ testdrive_sum sqrt pot dsk (n, props self) meshk 0
           = Ok (mk, dsk', meshk')
         ∧ ms !! k = Some mk ∧ gs !! k = Some gk
         ∧ distance self !! n = Some d
         ∧ gk = (mk + regularizer (seeds w) + mu self * d)%Qc)
  ∧ ((∀ j mj, ms !! j = Some mj → ¬ acceptable self m mj) →
     grow sqrt pot i w goal m = Ok (None, mkWorld ds1 (seeds w) m1))
  ∧ (∀ w', grow sqrt pot i w goal m = Ok (None, w') →
       ∀ j mj, ms !! j = Some mj → ¬ acceptable self m mj)
  ∧ (∀ idx p g' m' w',
       grow sqrt pot i w goal m = Ok (Some ((idx, p), g', m'), w') →
       p = props self
       ∧ ∃ k, neighbors self !! k = Some idx ∧ ms !! k = Some m'
              ∧ gs !! k = Some g' ∧ acceptable self m m'
              ∧ ∀ j mj gj, ms !! j = Some mj → gs !! j = Some gj →
                           acceptable self m mj → (g' ≤ gj)%Qc).
Proof.
  intros Hi Hpos Hms Hgs.
  destruct (candidate_misfits_each _ _ _ _ _ _ _ _ _ Hms) as [Hlm Heach].
  destruct (candidate_goals_each _ _ _ _ Hlm Hgs) as [Hlg Hgoal].
  split; [done|]. split; [|split; [|split]].
  - intros k n Hn.
    destruct (Heach k n Hn) as (mk & dsk & meshk & dsk' & meshk' & Hpre & Hsum
                                & Hmk).
    destruct (Hgoal k n mk Hn Hmk) as (gk & d & Hgk & Hd & Heq).
    exists mk, gk, d, dsk, meshk, dsk', meshk'. by split_and!.
  - intros Hnone. unfold grow, list_getitem. rewrite Hi. simpl.
    rewrite Hms. simpl. rewrite Hgs. simpl.
    by rewrite (_judge_none self gs ms goal m Hnone).
  - intros w' H. unfold grow, list_getitem in H.
    rewrite Hi in H. simpl in H. rewrite Hms in H. simpl in H.
    rewrite Hgs in H. simpl in H. bind_inv H as best Hbest.
    apply _judge_spec in Hbest. destruct best as [[[k g0] m0]|]; [|done].
    bind_inv H as idx Hidx. bind_inv H as d Hd. bind_inv H as ss1 Hup.
    discriminate.
  - intros idx p g' m' w' H. unfold grow, list_getitem in H.
    rewrite Hi in H. simpl in H. rewrite Hms in H. simpl in H.
    rewrite Hgs in H. simpl in H. inv_bind H.
    apply _judge_spec in Ha. destruct a as [[[k g0] m0]|]; [|discriminate].
    destruct Ha as (Hg & Hm & Hacc & Hmin).
    inv_bind H. inv_bind H. inv_bind H. injection H as <- <- <- <- <-.
    apply list_getitem_Ok in Ha. split; [done|]. exists k. done.
Qed.

Lemma grow_acceptance_witness :
  ∃ w g self ms gs ds1 m1 g' m' w',
    harvest_setup sqrt_c edge_kernel world_middle_seed = Ok (w, g)
    ∧ seeds w !! 0%nat = Some self
    ∧ (0 < g)%Qc
    ∧ candidate_misfits sqrt_c edge_kernel (dms w) (props self)
        (neighbors self) (mesh w) = Ok (ms, ds1, m1)
    ∧ candidate_goals self (seeds w) ms = Ok gs
    ∧ neighbors self = [2; 0]
    ∧ Forall (acceptable self g) ms
    ∧ grow sqrt_c edge_kernel 0 w g g
      = Ok (Some ((0, density 2), g', m'), w')
    ∧ ((length ms = length (neighbors self)
        ∧ length gs = length (neighbors self))
       ∧ (∀ k n, neighbors self !! k = Some n →
            ∃ mk gk d dsk meshk dsk' meshk',
              candidate_misfits sqrt_c edge_kernel (dms w) (props self)
                (take k (neighbors self)) (mesh w) = Ok (take k ms, dsk, meshk)
              ∧ testdrive_sum sqrt_c edge_kernel dsk (n, props self) meshk 0
                = Ok (mk, dsk', meshk')
              ∧ ms !! k = Some mk ∧ gs !! k = Some gk
              ∧ distance self !! n = Some d
              ∧ gk = (mk + regularizer (seeds w) + mu self * d)%Qc)
       ∧ ((∀ j mj, ms !! j = Some mj → ¬ acceptable self g mj) →
          grow sqrt_c edge_kernel 0 w g g = Ok (None, mkWorld ds1 (seeds w) m1))
       ∧ (∀ w', grow sqrt_c edge_kernel 0 w g g = Ok (None, w') →
            ∀ j mj, ms !! j = Some mj → ¬ acceptable self g mj)
       ∧ (∀ idx p g' m' w',
            grow sqrt_c edge_kernel 0 w g g
              = Ok (Some ((idx, p), g', m'), w') →
            p = props self
            ∧ ∃ k, neighbors self !! k = Some idx ∧ ms !! k = Some m'
                   ∧ gs !! k = Some g' ∧ acceptable self g m'
                   ∧ ∀ j mj gj, ms !! j = Some mj → gs !! j = Some gj →
                                acceptable self g mj → (g' ≤ gj)%Qc)).
Proof.
  eexists _, _, _, _, _, _, _, _, _, _.
  split; [vm_compute; reflexivity|].
  split; [reflexivity|].
  split; [vm_compute; reflexivity|].
  split; [vm_compute; reflexivity|].
  split; [vm_compute; reflexivity|].
  split; [reflexivity|].
  split; [repeat constructor; vm_compute; congruence|].
  split; [vm_compute; reflexivity|].
  apply grow_acceptance; [reflexivity | vm_compute; reflexivity
                         | vm_compute; reflexivity | vm_compute; reflexivity].
Defined.

(** * Invariants of the growth solver *)

(** ** The data modules leave the shape of the mesh alone *)

Lemma getitem_addprops_shape (m m' : PrismMesh) (i : Z) (p : gmap string Qc) :
  getitem_addprops m i p = Ok m' → shape m' = shape m.
Proof.
  unfold getitem_addprops. intros H. inv_bind H.
  destruct a; [by injection H as <-|].
  case_decide; [by injection H as <-|discriminate].
Qed.

Lemma testdrive_shape sqrt pot (dm dm' : DM) (el : Element) (m m' : PrismMesh)
    (v : Qc) :
  testdrive sqrt pot dm el m = Ok (v, dm', m') → shape m' = shape m.
Proof.
  unfold testdrive. intros H.
  assert (DMPrismI2_testdrive sqrt pot dm el m = Ok (v, dm', m')
          ∨ m' = m) as Hcase.
  { destruct (dm_class dm); try (by left);
      right; inv_bind H; destruct a; by injection H as _ _ <-. }
  destruct Hcase as [H' | ->]; [|done]. clear H.
  unfold DMPrismI2_testdrive in H'. destruct el as [i p].
  destruct (negb (tracked dm p)).
  - inv_bind H'. by injection H' as _ _ <-.
  - inv_bind H'. inv_bind H'. inv_bind H'. injection H' as _ _ <-.
    by eapply getitem_addprops_shape.
Qed.

Lemma update_shape pot (dm dm' : DM) (el : Element) (m m' : PrismMesh) :
  update pot dm el m = Ok (dm', m') → shape m' = shape m.
Proof.
  unfold update. intros H.
  assert (DMPrismI2_update pot dm el m = Ok (dm', m') ∨ m' = m) as Hcase.
  { destruct (dm_class dm); try (by left);
      right; inv_bind H; by injection H as _ <-. }
  destruct Hcase as [H' | ->]; [|done]. clear H.
  unfold DMPrismI2_update in H'. destruct el as [i p].
  inv_bind H'. inv_bind H'. injection H' as _ <-.
  by eapply getitem_addprops_shape.
Qed.

Lemma testdrive_sum_shape sqrt pot (ds ds' : list DM) (el : Element)
    (m m' : PrismMesh) (acc v : Qc) :
  testdrive_sum sqrt pot ds el m acc = Ok (v, ds', m') → shape m' = shape m.
Proof.
  revert ds' m acc v. induction ds as [|dm ds IH]; intros ds' m acc v H;
    simpl in H.
  - by injection H as _ _ <-.
  - inv_bind H. destruct a as [[v1 dm1] m1]. inv_bind H.
    destruct a as [[v2 ds2] m2]. injection H as _ _ <-.
    apply testdrive_shape in Ha. apply IH in Ha0. congruence.
Qed.

Lemma candidate_misfits_shape sqrt pot (ds ds' : list DM) (p : gmap string Qc)
    (nbrs : list Z) (m m' : PrismMesh) (ms : list Qc) :
  candidate_misfits sqrt pot ds p nbrs m = Ok (ms, ds', m') →
  shape m' = shape m.
Proof.
  revert ds ds' m ms. induction nbrs as [|n nbrs IH]; intros ds ds' m ms H;
    simpl in H.
  - by injection H as _ _ <-.
  - inv_bind H. destruct a as [[v1 ds1] m1]. inv_bind H.
    destruct a as [[vs ds2] m2]. injection H as _ _ <-.
    apply testdrive_sum_shape in Ha. apply IH in Ha0. congruence.
Qed.

Lemma update_all_shape pot (ds ds' : list DM) (el : Element)
    (m m' : PrismMesh) :
  update_all pot ds el m = Ok (ds', m') → shape m' = shape m.
Proof.
  revert ds' m. induction ds as [|dm ds IH]; intros ds' m H; simpl in H.
  - by injection H as _ <-.
  - inv_bind H. destruct a as [dm1 m1]. inv_bind H.
    destruct a as [ds2 m2]. injection H as _ <-.
    apply update_shape in Ha. apply IH in Ha0. congruence.
Qed.

Lemma size_shape (m m' : PrismMesh) : shape m' = shape m → size m' = size m.
Proof. unfold size. by intros ->. Qed.

Lemma size_grid_size (m : PrismMesh) : size m = grid_size (shape m).
Proof. done. Qed.

(** ** What the code does to the list of seeds *)

Lemma shares_sym (a b : SeedPrism) : shares a b → shares b a.
Proof. intros (p & Ha & Hb). by exists p. Qed.

Lemma shares_props (a a' b b' : SeedPrism) :
  props a' = props a → props b' = props b → shares a b → shares a' b'.
Proof. intros Ha Hb (p & H1 & H2). exists p. by rewrite Ha, Hb. Qed.

Lemma find_neighbors_faces (m : PrismMesh) (n : Z) (found : list Z) :
  _find_neighbors m n false true true = Ok found →
  (∀ x, x ∈ found → 0 ≤ x < grid_size (shape m))
  ∧ (well_shaped (shape m) → NoDup found).
Proof.
  unfold _find_neighbors. rewrite app_nil_r. intros H.
  apply unmasked_sublist in H as [Hsub Hr]. split; [done|].
  unfold well_shaped. destruct (shape m) as [[nz ny] nx] eqn:Hs.
  intros [Hx Hy]. eapply sublist_NoDup; [|done].
  by eapply face_indexes_NoDup.
Qed.

Lemma new_neighbors_admissible (m : PrismMesh) (n : Z) (found : list Z)
    (self : SeedPrism) (ss : list SeedPrism) :
  _find_neighbors m n false true true = Ok found →
  admissible (shape m) self ss
    (_not_neighbors self ss (_are_free self ss found)).
Proof.
  intros Hf. apply find_neighbors_faces in Hf as [Hr Hnd].
  pose proof (new_neighbors_sublist self ss found) as Hsub.
  split; [|split].
  - intros x Hx. apply Hr. by eapply elem_of_sublist.
  - intros Hw. eapply sublist_NoDup; [by apply Hnd|done].
  - intros x j s Hx Hj Hsh.
    apply elem_of_new_neighbors in Hx as (_ & He & Hn).
    assert (s ∈ ss) as Hs by (by eapply list_elem_of_lookup_2).
    split; [by apply He|by apply Hn].
Qed.

Lemma initialize_extends sqrt (i : nat) (ss ss' : list SeedPrism)
    (m : PrismMesh) :
  initialize sqrt i ss m = Ok ss' → extends (shape m) ss i ss'.
Proof.
  intros H. apply initialize_Ok in H
    as (self & self' & found & Hi & Hf & -> & Hp & He & Hx & Hn).
  exists self, self', (_not_neighbors self ss (_are_free self ss found)).
  split; [done|]. split; [done|]. split; [done|]. split; [done|].
  split; [done|]. split; [done|]. by eapply new_neighbors_admissible.
Qed.

Lemma _update_neighbors_Ok sqrt (i : nat) (n : Z) (ss ss' : list SeedPrism)
    (m : PrismMesh) :
  _update_neighbors sqrt i n ss m = Ok ss' →
  ∃ self self' found removed,
    ss !! i = Some self
    ∧ _find_neighbors m n false true true = Ok found
    ∧ py_remove n (neighbors self) = Ok removed
    ∧ ss' = <[i := self']> ss
    ∧ props self' = props self ∧ estimate self' = estimate self
    ∧ index self' = index self
    ∧ neighbors self'
      = removed ++ _not_neighbors self ss (_are_free self ss found).
Proof.
  unfold _update_neighbors. intros H.
  bind_inv H as self Hi. bind_inv H as found Hf. bind_inv H as removed Hr.
  bind_inv H as d Hd. bind_inv H as self3 Hg. injection H as <-.
  apply list_getitem_Ok in Hi.
  apply _get_distances_same in Hg as (Hp & He & Hn & Hx).
  exists self, self3, found, removed. repeat split; done.
Qed.

Lemma grow_accretes sqrt pot (i : nat) (w w' : World) (g m : Qc)
    (r : option Change) :
  grow sqrt pot i w g m = Ok (r, w') →
  shape (mesh w') = shape (mesh w)
  ∧ match r with
    | None => seeds w' = seeds w
    | Some ((idx, p), _, _) =>
        accretes (shape (mesh w)) (seeds w) i idx (seeds w')
    end.
Proof.
  unfold grow. intros H.
  bind_inv H as self Hi. apply list_getitem_Ok in Hi.
  bind_inv H as cm Hcm. destruct cm as [[ms ds1] m1].
  apply candidate_misfits_shape in Hcm.
  bind_inv H as gs Hgs. bind_inv H as best Hbest.
  destruct best as [[[k g0] m0]|].
  - bind_inv H as idx Hidx. apply list_getitem_Ok in Hidx.
    bind_inv H as d Hd. bind_inv H as ss1 Hup. injection H as <- <-.
    simpl. split; [done|].
    apply _update_neighbors_Ok in Hup
      as (self2 & self' & found & removed & Hi2 & Hf & Hr & -> & Hp & He
          & Hx & Hn).
    rewrite list_lookup_insert_eq in Hi2 by (by eapply lookup_lt_Some).
    injection Hi2 as <-. simpl in *.
    rewrite list_insert_insert_eq.
    exists self, (set_reg (reg self + mu self * d)%Qc
                    (set_estimate (estimate self ++ [idx]) self)),
           self', removed.
    eexists.
    split; [done|]. split; [reflexivity|]. split; [reflexivity|].
    split; [reflexivity|]. split; [done|]. split; [done|]. split; [done|].
    split; [done|]. split; [by eapply list_elem_of_lookup_2|].
    split; [done|]. split; [exact Hn|].
    rewrite <- Hcm. by eapply new_neighbors_admissible.
  - injection H as <- <-. simpl. done.
Qed.

(** ** The frontiers stay apart *)

Ltac shares_tac :=
  match goal with
  | H : shares ?a ?b |- shares ?a' ?b' =>
      first [ apply (shares_props a a' b b'); [congruence | congruence | exact H]
            | apply shares_sym;
              apply (shares_props a b' b a'); [congruence | congruence | exact H] ]
  end.

Ltac insert_cases H :=
  apply list_lookup_insert_Some in H as [(<- & <- & ?)|[? H]].

Lemma extends_frontiers_ok (sh : Z * Z * Z) (ss ss' : list SeedPrism)
    (i : nat) :
  extends sh ss i ss' → frontiers_ok ss → frontiers_ok ss'.
Proof.
  intros (self & self' & new & Hi & -> & Hp & Hx & He & Hn & _ & _ & Hadm)
         [Hne Hnn].
  split.
  - intros i' j' a b x Hij Ha Hb Hsh Hxa.
    insert_cases Ha; insert_cases Hb; try done.
    + rewrite Hn in Hxa. apply elem_of_app in Hxa as [Hxa|Hxa].
      * apply (Hne i j' self b x); try done. shares_tac.
      * eapply Hadm; [done..|]. shares_tac.
    + rewrite He. apply (Hne i' i a self x); try done.
      shares_tac.
    + by apply (Hne i' j' a b x).
  - intros i' j' a b x Hij Ha Hb Hsh Hxa.
    insert_cases Ha; insert_cases Hb; try done.
    + rewrite Hn in Hxa. apply elem_of_app in Hxa as [Hxa|Hxa].
      * apply (Hnn i j' self b x); try done. shares_tac.
      * eapply Hadm; [done..|]. shares_tac.
    + rewrite Hn. intros Hx'. apply elem_of_app in Hx' as [Hx'|Hx'].
      * revert Hx'. apply (Hnn i' i a self x); try done.
        shares_tac.
      * assert (shares self a) as Hsa by shares_tac.
        by destruct (Hadm x i' a Hx' Ha Hsa) as [_ Hna].
    + by apply (Hnn i' j' a b x).
Qed.

Lemma accretes_frontiers_ok (sh : Z * Z * Z) (ss ss' : list SeedPrism)
    (i : nat) (idx : Z) :
  accretes sh ss i idx ss' → frontiers_ok ss → frontiers_ok ss'.
Proof.
  intros (self & self2 & self' & removed & new & Hi & Hp2 & He2 & Hn2 & ->
          & Hp & Hx & He & Hidx & Hr & Hn & _ & _ & Hadm) [Hne Hnn].
  apply py_remove_Ok in Hr as [_ Hsub].
  assert (∀ j s, j ≠ i → ss !! j = Some s → <[i:=self2]> ss !! j = Some s)
    as Hother.
  { intros j s Hj Hs. by rewrite list_lookup_insert_ne. }
  split.
  - intros i' j' a b x Hij Ha Hb Hsh Hxa.
    insert_cases Ha; insert_cases Hb; try done.
    + rewrite Hn in Hxa. apply elem_of_app in Hxa as [Hxa|Hxa].
      * apply (Hne i j' self b x); try done; [shares_tac|].
        by eapply elem_of_sublist.
      * eapply Hadm; [done|by apply Hother|]. shares_tac.
    + rewrite He. intros Hx'. apply elem_of_app in Hx' as [Hx'|Hx'].
      * revert Hx'. apply (Hne i' i a self x); try done.
        shares_tac.
      * apply list_elem_of_singleton in Hx' as ->.
        revert Hxa. apply (Hnn i i' self a idx); try done.
        shares_tac.
    + by apply (Hne i' j' a b x).
  - intros i' j' a b x Hij Ha Hb Hsh Hxa.
    insert_cases Ha; insert_cases Hb; try done.
    + rewrite Hn in Hxa. apply elem_of_app in Hxa as [Hxa|Hxa].
      * apply (Hnn i j' self b x); try done; [shares_tac|].
        by eapply elem_of_sublist.
      * eapply Hadm; [done|by apply Hother|]. shares_tac.
    + rewrite Hn. intros Hx'. apply elem_of_app in Hx' as [Hx'|Hx'].
      * revert Hx'. intros Hx'. eapply (Hnn i' i a self x); try done.
        -- shares_tac.
        -- by eapply elem_of_sublist.
      * assert (shares self2 a) as Hsa by shares_tac.
        by destruct (Hadm x i' a Hx' (Hother _ _ ltac:(done) Ha) Hsa)
          as [_ Hna].
    + by apply (Hnn i' j' a b x).
Qed.

(** ** No cell in two estimates *)

Lemma extends_exclusive (sh : Z * Z * Z) (ss ss' : list SeedPrism) (i : nat) :
  extends sh ss i ss' → exclusive ss → exclusive ss'.
Proof.
  intros (self & self' & new & Hi & -> & Hp & Hx & He & Hn & _) Hex.
  intros i' j' a b x Hij Ha Hb Hsh Hxa.
  insert_cases Ha; insert_cases Hb; try done.
  - rewrite He in *. apply (Hex i j' self b x); try done.
    shares_tac.
  - rewrite He. apply (Hex i' i a self x); try done. shares_tac.
  - by apply (Hex i' j' a b x).
Qed.

Lemma accretes_exclusive (sh : Z * Z * Z) (ss ss' : list SeedPrism) (i : nat)
    (idx : Z) :
  accretes sh ss i idx ss' → frontiers_ok ss → exclusive ss → exclusive ss'.
Proof.
  intros (self & self2 & self' & removed & new & Hi & Hp2 & He2 & Hn2 & ->
          & Hp & Hx & He & Hidx & Hr & Hn & _) [Hne Hnn] Hex.
  intros i' j' a b x Hij Ha Hb Hsh Hxa.
  insert_cases Ha; insert_cases Hb; try done.
  - rewrite He in Hxa. apply elem_of_app in Hxa as [Hxa|Hxa].
    + apply (Hex i j' self b x); try done. shares_tac.
    + apply list_elem_of_singleton in Hxa as ->.
      apply (Hne i j' self b idx); try done. shares_tac.
  - rewrite He. intros Hx'. apply elem_of_app in Hx' as [Hx'|Hx'].
    + revert Hx'. apply (Hex i' i a self x); try done. shares_tac.
    + apply list_elem_of_singleton in Hx' as ->.
      revert Hxa. apply (Hne i i' self a idx); try done.
      shares_tac.
  - by apply (Hex i' j' a b x).
Qed.

(** ** Every seed keeps its own frontier and estimate tidy *)

Lemma py_remove_NoDup (x : Z) (l l' : list Z) :
  NoDup l → py_remove x l = Ok l' →
  NoDup l' ∧ (x ∉ l') ∧ (∀ y, y ∈ l' → y ∈ l).
Proof.
  intros Hnd Hr. apply py_remove_Ok in Hr as [Hp Hs].
  rewrite Hp in Hnd. apply NoDup_cons in Hnd as [Hx Hnd].
  split; [done|]. split; [done|]. intros y Hy. by eapply elem_of_sublist.
Qed.

Lemma extends_seeds_ok (sh : Z * Z * Z) (ss ss' : list SeedPrism) (i : nat) :
  well_shaped sh → extends sh ss i ss' →
  seeds_ok (grid_size sh) ss → seeds_ok (grid_size sh) ss'.
Proof.
  intros Hw (self & self' & new & Hi & -> & Hp & Hx & He & Hn & Hrange & Hnd
             & Hadm) Hok.
  intros i' s Hs Hsh. insert_cases Hs; [|by eapply Hok].
  assert (shares self self) as Hself by shares_tac.
  destruct (Hok i self Hi Hself) as [H1 H2 H3 H4 H5].
  split.
  - intros x Hxn. rewrite He. rewrite Hn in Hxn.
    apply elem_of_app in Hxn as [Hxn|Hxn]; [by apply H1|].
    by destruct (Hadm x i self Hxn Hi Hself).
  - rewrite Hn. apply NoDup_app. split; [done|]. split; [|by apply Hnd].
    intros x Hxo Hxn. by destruct (Hadm x i self Hxn Hi Hself).
  - by rewrite He.
  - intros x Hxn. rewrite Hn in Hxn.
    apply elem_of_app in Hxn as [Hxn|Hxn]; [by apply H4|by apply Hrange].
  - intros x Hxe. rewrite He in Hxe. by apply H5.
Qed.

Lemma accretes_seeds_ok (sh : Z * Z * Z) (ss ss' : list SeedPrism) (i : nat)
    (idx : Z) :
  well_shaped sh → accretes sh ss i idx ss' →
  seeds_ok (grid_size sh) ss → seeds_ok (grid_size sh) ss'.
Proof.
  intros Hw (self & self2 & self' & removed & new & Hi & Hp2 & He2 & Hn2 & ->
             & Hp & Hx & He & Hidx & Hr & Hn & Hrange & Hnd & Hadm) Hok.
  intros i' s Hs Hsh. insert_cases Hs; [|by eapply Hok].
  assert (shares self self) as Hself by shares_tac.
  assert (shares self2 self2) as Hself2 by shares_tac.
  destruct (Hok i self Hi Hself) as [H1 H2 H3 H4 H5].
  destruct (py_remove_NoDup _ _ _ H2 Hr) as (Hrnd & Hrx & Hrsub).
  assert (<[i:=self2]> ss !! i = Some self2) as Hi2
    by (apply list_lookup_insert_eq; by eapply lookup_lt_Some).
  split.
  - intros x Hxn. rewrite Hn in Hxn. rewrite He.
    apply elem_of_app in Hxn as [Hxn|Hxn].
    + intros Hxe. apply elem_of_app in Hxe as [Hxe|Hxe].
      * revert Hxe. apply H1. by apply Hrsub.
      * apply list_elem_of_singleton in Hxe as ->. done.
    + destruct (Hadm x i self2 Hxn Hi2 Hself2) as [Hne _]. by rewrite He2 in Hne.
  - rewrite Hn. apply NoDup_app. split; [done|]. split; [|by apply Hnd].
    intros x Hxo Hxn. destruct (Hadm x i self2 Hxn Hi2 Hself2) as [_ Hnn].
    apply Hnn. rewrite Hn2. by apply Hrsub.
  - rewrite He. apply NoDup_app. split; [done|]. split; [|apply NoDup_singleton].
    intros x Hxe Hxi. apply list_elem_of_singleton in Hxi as ->.
    by apply (H1 idx).
  - intros x Hxn. rewrite Hn in Hxn.
    apply elem_of_app in Hxn as [Hxn|Hxn]; [|by apply Hrange].
    apply H4. by apply Hrsub.
  - intros x Hxe. rewrite He in Hxe.
    apply elem_of_app in Hxe as [Hxe|Hxe]; [by apply H5|].
    apply list_elem_of_singleton in Hxe as ->. by apply H4.
Qed.

(** ** Counting the cells that are held *)

Lemma cells_held_insert (ss : list SeedPrism) (i : nat) (s s' : SeedPrism) :
  ss !! i = Some s →
  (cells_held (<[i := s']> ss) + length (estimate s)
   = cells_held ss + length (estimate s'))%nat.
Proof.
  revert i. induction ss as [|a ss IH]; intros [|i] Hi; simpl in *; try done.
  - injection Hi as ->. unfold cells_held. simpl. lia.
  - specialize (IH i Hi). unfold cells_held in *. simpl. lia.
Qed.

Lemma extends_cells_held (sh : Z * Z * Z) (ss ss' : list SeedPrism) (i : nat) :
  extends sh ss i ss' → cells_held ss' = cells_held ss.
Proof.
  intros (self & self' & new & Hi & -> & Hp & Hx & He & _).
  pose proof (cells_held_insert ss i self self' Hi) as H.
  rewrite He in H. lia.
Qed.

Lemma accretes_cells_held (sh : Z * Z * Z) (ss ss' : list SeedPrism) (i : nat)
    (idx : Z) :
  accretes sh ss i idx ss' → cells_held ss' = S (cells_held ss).
Proof.
  intros (self & self2 & self' & removed & new & Hi & _ & _ & _ & ->
          & _ & _ & He & _).
  pose proof (cells_held_insert ss i self self' Hi) as H.
  rewrite He, length_app in H. simpl in H. lia.
Qed.

Lemma extends_length (sh : Z * Z * Z) (ss ss' : list SeedPrism) (i : nat) :
  extends sh ss i ss' → length ss' = length ss.
Proof. intros (? & ? & ? & _ & -> & _). apply length_insert. Qed.

Lemma accretes_length (sh : Z * Z * Z) (ss ss' : list SeedPrism) (i : nat)
    (idx : Z) :
  accretes sh ss i idx ss' → length ss' = length ss.
Proof. intros (? & ? & ? & ? & ? & _ & _ & _ & _ & -> & _). apply length_insert. Qed.

Lemma extends_all_have_property (sh : Z * Z * Z) (ss ss' : list SeedPrism)
    (i : nat) :
  extends sh ss i ss' → all_have_property ss → all_have_property ss'.
Proof.
  intros (self & self' & new & Hi & -> & Hp & _) Hall i' s Hs.
  insert_cases Hs; [|by eapply Hall].
  pose proof (Hall i self Hi). shares_tac.
Qed.

Lemma accretes_all_have_property (sh : Z * Z * Z) (ss ss' : list SeedPrism)
    (i : nat) (idx : Z) :
  accretes sh ss i idx ss' → all_have_property ss → all_have_property ss'.
Proof.
  intros (self & self2 & self' & removed & new & Hi & _ & _ & _ & ->
          & Hp & _) Hall i' s Hs.
  insert_cases Hs; [|by eapply Hall].
  pose proof (Hall i self Hi). shares_tac.
Qed.

Lemma extends_pairwise_sharing (sh : Z * Z * Z) (ss ss' : list SeedPrism)
    (i : nat) :
  extends sh ss i ss' → pairwise_sharing ss → pairwise_sharing ss'.
Proof.
  intros (self & self' & new & Hi & -> & Hp & _) Hall i' j' a b Ha Hb.
  insert_cases Ha; insert_cases Hb.
  - pose proof (Hall i i self self Hi Hi). shares_tac.
  - pose proof (Hall i j' self b Hi Hb). shares_tac.
  - pose proof (Hall i' i a self Ha Hi). shares_tac.
  - by eapply Hall.
Qed.

Lemma accretes_pairwise_sharing (sh : Z * Z * Z) (ss ss' : list SeedPrism)
    (i : nat) (idx : Z) :
  accretes sh ss i idx ss' → pairwise_sharing ss → pairwise_sharing ss'.
Proof.
  intros (self & self2 & self' & removed & new & Hi & _ & _ & _ & ->
          & Hp & _) Hall i' j' a b Ha Hb.
  insert_cases Ha; insert_cases Hb.
  - pose proof (Hall i i self self Hi Hi). shares_tac.
  - pose proof (Hall i j' self b Hi Hb). shares_tac.
  - pose proof (Hall i' i a self Ha Hi). shares_tac.
  - by eapply Hall.
Qed.

Lemma NoDup_range_length (sz : Z) (l : list Z) :
  NoDup l → (∀ x, x ∈ l → 0 ≤ x < sz) → (length l ≤ Z.to_nat sz)%nat.
Proof.
  intros Hnd Hr. rewrite <- (length_seqZ 0 sz).
  apply submseteq_length, NoDup_submseteq; [done|].
  intros x Hx. apply elem_of_seqZ. specialize (Hr x Hx). lia.
Qed.

(** Each seed holds at most as many cells as the grid has. *)
Lemma cells_held_bound (sz : Z) (ss : list SeedPrism) :
  all_have_property ss → seeds_ok sz ss →
  (cells_held ss ≤ length ss * Z.to_nat sz)%nat.
Proof.
  induction ss as [|a ss IH]; intros Hall Hok; [done|].
  unfold cells_held in *. simpl.
  assert (length (estimate a) ≤ Z.to_nat sz)%nat as Ha.
  { destruct (Hok 0%nat a eq_refl (Hall 0%nat a eq_refl)) as [_ _ H3 _ H5].
    by apply NoDup_range_length. }
  assert (sum_list_with (λ s, length (estimate s)) ss
          ≤ length ss * Z.to_nat sz)%nat as Hrest.
  { apply IH.
    - intros i s Hs. by apply (Hall (S i)).
    - intros i s Hs. by apply (Hok (S i)). }
  lia.
Qed.

(** When every two seeds share a property and no cell is in two estimates,
    all the seeds together hold at most as many cells as the grid has. *)
Lemma cells_held_exclusive_bound (sz : Z) (ss : list SeedPrism) :
  pairwise_sharing ss → exclusive ss → seeds_ok sz ss →
  (cells_held ss ≤ Z.to_nat sz)%nat.
Proof.
  intros Hps Hex Hok.
  assert (NoDup (mjoin (estimate <$> ss))
          ∧ (∀ x, x ∈ mjoin (estimate <$> ss) → 0 ≤ x < sz)
          ∧ length (mjoin (estimate <$> ss)) = cells_held ss) as (Hnd & Hr & <-);
    [|by apply NoDup_range_length].
  induction ss as [|a ss IH].
  { split; [apply NoDup_nil_2|]. split; [|done].
    intros x Hx. by apply elem_of_nil in Hx. }
  destruct IH as (IH1 & IH2 & IH3).
  { intros i j s t Hs Ht. by apply (Hps (S i) (S j)). }
  { intros i j s t x Hij Hs Ht. apply (Hex (S i) (S j)); [lia|done..]. }
  { intros i s Hs. by apply (Hok (S i)). }
  destruct (Hok 0%nat a eq_refl (Hps 0%nat 0%nat a a eq_refl eq_refl))
    as [_ _ H3 _ H5].
  rewrite fmap_cons. simpl. split; [|split].
  - apply NoDup_app. split; [done|]. split; [|done].
    intros x Hxa Hxr. apply list_elem_of_join in Hxr as (l & Hxl & Hl).
    apply list_elem_of_fmap in Hl as (b & -> & Hb).
    apply list_elem_of_lookup_1 in Hb as [j Hj].
    revert Hxl. apply (Hex 0%nat (S j) a b x); try done.
    by apply (Hps 0%nat (S j)).
  - intros x Hx. apply elem_of_app in Hx as [Hx|Hx]; [by apply H5|by apply IH2].
  - rewrite length_app, IH3. unfold cells_held. done.
Qed.

(** * Runs of the solver *)

Section RunLemmas.

Variable sqrt : Qc → Qc.
Variable pot : string → list Qc → list Qc → list Qc → list (option Prism) →
               option Qc → list Qc.
Variable sh : Z * Z * Z.
Variable P : list SeedPrism → Prop.
Hypothesis P_growth : kept_by_growth sh P.

(** One attempt of one seed. *)
Lemma try_seed_step (i : nat) (st st' : Solver) (g : bool) :
  try_seed sqrt pot i st = Ok (g, st') →
  shape (mesh (world st')) = shape (mesh (world st))
  ∧ if g
    then (∃ idx, accretes (shape (mesh (world st))) (seeds (world st)) i idx
                   (seeds (world st')))
         ∧ length (goals st') = S (length (goals st))
    else seeds (world st') = seeds (world st) ∧ goals st' = goals st
         ∧ misfits st' = misfits st.
Proof.
  unfold try_seed. intros H.
  bind_inv H as g0 Hg0. bind_inv H as m0 Hm0. bind_inv H as cw Hgrow.
  destruct cw as [change w1]. apply grow_accretes in Hgrow as [Hs Hc].
  destruct change as [[[[idx p] g1] m1]|].
  - bind_inv H as dm Hup. destruct dm as [dms2 mesh2].
    injection H as <- <-. simpl. apply update_all_shape in Hup.
    split; [congruence|]. split; [by exists idx|].
    rewrite length_app. simpl. lia.
  - injection H as <- <-. simpl. done.
Qed.

Lemma try_seed_inv (n i : nat) (st st' : Solver) (g : bool) :
  solver_inv sh P n st →
  try_seed sqrt pot i st = Ok (g, st') →
  solver_inv sh P n st'
  ∧ cells_held (seeds (world st'))
    = ((if g then 1 else 0) + cells_held (seeds (world st)))%nat.
Proof.
  intros (Hs & HP & Hn & Hc & Hg1) H. apply try_seed_step in H as [Hs' H].
  destruct g.
  - destruct H as [[idx Hacc] Hg]. rewrite Hs in Hacc.
    pose proof (accretes_cells_held _ _ _ _ _ Hacc) as Hheld.
    pose proof (accretes_length _ _ _ _ _ Hacc) as Hlen.
    split; [|simpl; lia].
    split; [congruence|]. split; [by eapply P_growth|]. repeat split; lia.
  - destruct H as (Hss & Hg & Hm). unfold solver_inv.
    rewrite Hss, Hg. split; [|done].
    split; [congruence|]. repeat split; assumption.
Qed.

(** One pass over the seeds. *)
Lemma round_inv (n : nat) (ps : list nat) (grew g' : bool) (st st' : Solver) :
  solver_inv sh P n st →
  round sqrt pot ps grew st = Ok (g', st') →
  solver_inv sh P n st'
  ∧ (cells_held (seeds (world st)) ≤ cells_held (seeds (world st')))%nat
  ∧ (g' = true → grew = true
                 ∨ (cells_held (seeds (world st))
                    < cells_held (seeds (world st')))%nat).
Proof.
  revert grew st. induction ps as [|i ps IH]; intros grew st Hinv H; simpl in H.
  - injection H as <- <-. split; [done|]. split; [lia|]. auto.
  - bind_inv H as gs Htry. destruct gs as [g st1].
    destruct (try_seed_inv n i st st1 g Hinv Htry) as [Hinv1 Hheld].
    destruct (IH _ _ Hinv1 H) as (Hinv' & Hle & Hg).
    split; [done|]. split; [destruct g; lia|].
    intros Hg'. destruct (Hg Hg') as [Hor|Hlt]; [|right; destruct g; lia].
    apply orb_true_iff in Hor as [->| ->]; [by left|]. right. simpl in Hheld. lia.
Qed.

Lemma round_reachable (st0 : Solver) (ps : list nat) (grew g' : bool)
    (st st' : Solver) :
  reachable sqrt pot st0 st →
  round sqrt pot ps grew st = Ok (g', st') →
  reachable sqrt pot st0 st'.
Proof.
  revert grew st. induction ps as [|i ps IH]; intros grew st Hr H; simpl in H.
  - by injection H as <- <-.
  - bind_inv H as gs Htry. destruct gs as [g st1].
    eapply IH; [|done]. by eapply reach_step.
Qed.

Lemma reachable_inv (n : nat) (st0 st : Solver) :
  solver_inv sh P n st0 → reachable sqrt pot st0 st → solver_inv sh P n st.
Proof.
  intros H0 Hr. induction Hr as [|st i g st' _ IH Htry]; [done|].
  by destruct (try_seed_inv n i st st' g IH Htry).
Qed.

(** The loop of the solver. *)
Lemma solver_loop_Ok (n fuel : nat) (st st' : Solver) :
  solver_inv sh P n st →
  solver_loop sqrt pot fuel st = Some (Ok st') →
  solver_inv sh P n st'
  ∧ reachable sqrt pot st st'
  ∧ ∃ k st_k,
      growing_passes sqrt pot st k st_k
      ∧ round sqrt pot (positions st_k) false st_k = Ok (false, st').
Proof.
  revert st. induction fuel as [|fuel IH]; intros st Hinv H; simpl in H;
    [discriminate|].
  destruct (round sqrt pot (positions st) false st) as [e|[g st1]] eqn:Hround;
    [discriminate|].
  destruct (round_inv n _ _ _ _ _ Hinv Hround) as (Hinv1 & _ & _).
  pose proof (round_reachable st _ _ _ _ _ (reach_start _ _ st) Hround) as Hr1.
  destruct g.
  - destruct (IH st1 Hinv1 H) as (Hinv' & Hr' & k & st_k & Hk & Hlast).
    split; [done|]. split.
    + clear -Hr1 Hr'. induction Hr'; [done|]. by eapply reach_step.
    + exists (S k), st_k. split; [|done]. by eapply passes_S.
  - injection H as <-. split; [done|]. split; [done|].
    exists 0%nat, st. split; [constructor|done].
Qed.

Lemma solver_loop_terminates (n bound fuel : nat) (st : Solver) :
  (∀ ss, P ss → length ss = n → (cells_held ss ≤ bound)%nat) →
  solver_inv sh P n st →
  (bound - cells_held (seeds (world st)) < fuel)%nat →
  ∃ r, solver_loop sqrt pot fuel st = Some r.
Proof.
  intros Hbound. revert st.
  induction fuel as [|fuel IH]; intros st Hinv Hfuel; [lia|]. simpl.
  destruct (round sqrt pot (positions st) false st) as [e|[g st1]] eqn:Hround;
    [eauto|].
  destruct (round_inv n _ _ _ _ _ Hinv Hround) as (Hinv1 & Hle & Hg).
  destruct g; [|eauto].
  destruct (Hg eq_refl) as [?|Hlt]; [done|].
  apply IH; [done|].
  destruct Hinv1 as (_ & HP1 & Hn1 & _).
  specialize (Hbound _ HP1 Hn1). lia.
Qed.

End RunLemmas.

(** ** From the call of [harvest] to the first pass *)

Lemma initialize_all_inv sqrt (P : list SeedPrism → Prop) (ss ss' : list SeedPrism)
    (m : PrismMesh) :
  kept_by_initialize (shape m) P → P ss →
  initialize_all sqrt ss m = Ok ss' →
  P ss' ∧ length ss' = length ss ∧ cells_held ss' = cells_held ss.
Proof.
  intros HP H0. unfold initialize_all.
  apply (foldlM_invariant
           (λ ss1, P ss1 ∧ length ss1 = length ss
                   ∧ cells_held ss1 = cells_held ss)); [done|].
  intros ss1 i ss2 (H1 & H2 & H3) _ Hinit.
  apply initialize_extends in Hinit.
  split; [by eapply HP|]. split.
  - by rewrite (extends_length _ _ _ _ Hinit).
  - by rewrite (extends_cells_held _ _ _ _ Hinit).
Qed.

Lemma absorb_seeds_shape pot (c : Z) (ds ds' : list DM) (ss : list SeedPrism)
    (m m' : PrismMesh) :
  absorb_seeds pot c ds ss m = Ok (ds', m') → shape m' = shape m.
Proof.
  revert ds' m. induction ds as [|dm ds IH]; intros ds' m H; simpl in H.
  - by injection H as _ <-.
  - bind_inv H as dm1 Hfold. destruct dm1 as [dm1 m1].
    bind_inv H as rest Hrest. destruct rest as [rest m2].
    injection H as _ <-. apply IH in Hrest. rewrite Hrest.
    revert Hfold.
    apply (foldlM_invariant (λ dmm : DM * PrismMesh, shape dmm.2 = shape m));
      [done|].
    intros [d0 m0] s [d0' m0'] Hs0 _ Hup. simpl in *.
    apply update_shape in Hup. congruence.
Qed.

Lemma fresh_cells_held (ss : list SeedPrism) :
  (∀ s, s ∈ ss → fresh s) → cells_held ss = length ss.
Proof.
  induction ss as [|a ss IH]; intros Hf; [done|].
  unfold cells_held in *. simpl.
  destruct (Hf a) as [-> _]; [left|]. simpl. f_equal. apply IH.
  intros s Hs. apply Hf. by right.
Qed.

Lemma harvest_setup_inv sqrt pot (P : list SeedPrism → Prop) (w w1 : World)
    (g : Qc) :
  kept_by_initialize (shape (mesh w)) P → P (seeds w) →
  (∀ s, s ∈ seeds w → fresh s) →
  harvest_setup sqrt pot w = Ok (w1, g) →
  solver_inv (shape (mesh w)) P (length (seeds w)) (mkSolver w1 [g] [g]).
Proof.
  intros HP H0 Hfresh H. unfold harvest_setup in H.
  bind_inv H as first Hfirst.
  destruct (negb _); [discriminate|].
  bind_inv H as seeds1 Hinit. bind_inv H as dm Habs.
  destruct dm as [dms1 mesh1]. bind_inv H as goal Hgoal.
  injection H as <- <-.
  destruct (initialize_all_inv sqrt P _ _ _ HP H0 Hinit) as (H1 & H2 & H3).
  apply absorb_seeds_shape in Habs.
  split; [done|]. split; [done|]. split; [done|]. simpl.
  rewrite H3, (fresh_cells_held _ Hfresh). lia.
Qed.

(** The seeds as their constructor leaves them. *)
Lemma fresh_frontiers_ok (ss : list SeedPrism) :
  (∀ s, s ∈ ss → fresh s) → frontiers_ok ss.
Proof.
  intros Hf. split; intros i j a b x _ Ha _ _ Hx;
    destruct (Hf a) as [_ Hn]; [by eapply list_elem_of_lookup_2| |
                                by eapply list_elem_of_lookup_2|];
    rewrite Hn in Hx; by apply elem_of_nil in Hx.
Qed.

Lemma fresh_exclusive (ss : list SeedPrism) :
  (∀ s, s ∈ ss → fresh s) → distinct_cells ss → exclusive ss.
Proof.
  intros Hf Hd i j a b x Hij Ha Hb Hsh Hxa Hxb.
  destruct (Hf a) as [Hea _]; [by eapply list_elem_of_lookup_2|].
  destruct (Hf b) as [Heb _]; [by eapply list_elem_of_lookup_2|].
  rewrite Hea in Hxa. rewrite Heb in Hxb.
  apply list_elem_of_singleton in Hxa, Hxb.
  apply (Hd i j a b); [done..|congruence].
Qed.

Lemma fresh_seeds_ok (sz : Z) (ss : list SeedPrism) :
  (∀ s, s ∈ ss → fresh s ∧ 0 ≤ index s < sz) → seeds_ok sz ss.
Proof.
  intros Hf i s Hs _.
  destruct (Hf s) as [[He Hn] Hr]; [by eapply list_elem_of_lookup_2|].
  split; rewrite ?He, ?Hn.
  - intros x Hx. by apply elem_of_nil in Hx.
  - apply NoDup_nil_2.
  - apply NoDup_singleton.
  - intros x Hx. by apply elem_of_nil in Hx.
  - intros x Hx. by apply list_elem_of_singleton in Hx as ->.
Qed.

(** ** No cell in the estimates of two seeds that share a property *)

Lemma apart_kept_by_growth (sh : Z * Z * Z) : kept_by_growth sh apart.
Proof.
  intros ss i idx ss' Hacc [Hf He]. split.
  - by eapply accretes_frontiers_ok.
  - by eapply accretes_exclusive.
Qed.

Lemma apart_kept_by_initialize (sh : Z * Z * Z) : kept_by_initialize sh apart.
Proof.
  intros ss i ss' Hext [Hf He]. split.
  - by eapply extends_frontiers_ok.
  - by eapply extends_exclusive.
Qed.

Lemma _harvest_solver_Ok sqrt pot (fuel : nat) (w w' : World) (g : Qc)
    (res : Results) :
  _harvest_solver sqrt pot fuel w g = Some (Ok (res, w')) →
  ∃ st', solver_loop sqrt pot fuel (mkSolver w [g] [g]) = Some (Ok st')
         ∧ world st' = w' ∧ res.1.2 = goals st' ∧ res.2 = misfits st'.
Proof.
  unfold _harvest_solver. intros H.
  destruct (solver_loop _ _ _ _) as [[e|st']|]; try discriminate.
  injection H as H. bind_inv H as est Hest. injection H as <- <-.
  by exists st'.
Qed.

Lemma harvest_Ok sqrt pot (fuel : nat) (w w' : World) (res : Results) :
  harvest sqrt pot fuel w false = Some (Ok (res, w')) →
  ∃ w1 g st',
    harvest_setup sqrt pot w = Ok (w1, g)
    ∧ solver_loop sqrt pot fuel (mkSolver w1 [g] [g]) = Some (Ok st')
    ∧ world st' = w' ∧ res.1.2 = goals st' ∧ res.2 = misfits st'.
Proof.
  unfold harvest. intros H.
  destruct (harvest_setup sqrt pot w) as [e|[w1 g]] eqn:Hsetup; [discriminate|].
  apply _harvest_solver_Ok in H as (st' & H1 & H2 & H3 & H4).
  by exists w1, g, st'.
Qed.

(** C1 (as the code has it).  For seeds as their constructor leaves them,
    those that share a property sitting in different cells: in every state
    the solver goes through, and in the state [harvest] returns, no cell is
    in the estimates of two seeds that share a physical property. *)
Theorem harvest_exclusive sqrt pot (w : World) :
  (∀ s, s ∈ seeds w → fresh s) →
  distinct_cells (seeds w) →
  (∀ w1 g st,
     harvest_setup sqrt pot w = Ok (w1, g) →
     reachable sqrt pot (mkSolver w1 [g] [g]) st →
     exclusive (seeds (world st)))
  ∧ (∀ fuel res w',
       harvest sqrt pot fuel w false = Some (Ok (res, w')) →
       exclusive (seeds w')).
Proof.
  intros Hfresh Hdist.
  assert (apart (seeds w)) as H0.
  { split; [by apply fresh_frontiers_ok|by apply fresh_exclusive]. }
  assert (∀ w1 g st,
            harvest_setup sqrt pot w = Ok (w1, g) →
            reachable sqrt pot (mkSolver w1 [g] [g]) st →
            exclusive (seeds (world st))) as Hreach.
  { intros w1 g st Hsetup Hr.
    pose proof (harvest_setup_inv sqrt pot apart w w1 g
                  (apart_kept_by_initialize _) H0 Hfresh Hsetup) as Hinv.
    pose proof (reachable_inv sqrt pot _ apart (apart_kept_by_growth _) _ _ _
                  Hinv Hr) as (_ & [_ Hex] & _).
    done. }
  split; [done|].
  intros fuel res w' H.
  apply harvest_Ok in H as (w1 & g & st' & Hsetup & Hloop & <- & _).
  apply (Hreach w1 g st' Hsetup).
  pose proof (harvest_setup_inv sqrt pot apart w w1 g
                (apart_kept_by_initialize _) H0 Hfresh Hsetup) as Hinv.
  by destruct (solver_loop_Ok sqrt pot _ apart (apart_kept_by_growth _) _ _ _ _
                 Hinv Hloop) as (_ & Hr & _).
Qed.

Lemma two_seeds_cases {A} (P : nat → nat → A → A → Prop) (a b : A) :
  P 0%nat 1%nat a b → P 1%nat 0%nat b a →
  ∀ i j x y, i ≠ j → [a; b] !! i = Some x → [a; b] !! j = Some y → P i j x y.
Proof.
  intros H01 H10 [|[|i]] [|[|j]] x y Hij Hx Hy; simpl in *; try done;
    by simplify_eq.
Qed.

Lemma harvest_exclusive_witness :
  (∀ s, s ∈ seeds world_two_densities → fresh s)
  ∧ distinct_cells (seeds world_two_densities)
  ∧ ∃ res w',
      harvest sqrt_c unit_kernel 5 world_two_densities false
        = Some (Ok (res, w'))
      ∧ estimate <$> seeds w' = [[0; 1]; [2]]
      ∧ exclusive (seeds w').
Proof.
  assert (∀ s, s ∈ seeds world_two_densities → fresh s) as Hf.
  { intros s Hs. simpl in Hs.
    repeat (apply elem_of_cons in Hs as [->|Hs]); [by split..|].
    by apply elem_of_nil in Hs. }
  assert (distinct_cells (seeds world_two_densities)) as Hd.
  { unfold distinct_cells. intros i j a b Hij Ha Hb _. revert i j a b Hij Ha Hb.
    apply (two_seeds_cases (λ _ _ a b, index a ≠ index b)); simpl; lia. }
  split; [done|]. split; [done|].
  eexists _, _. split; [vm_compute; reflexivity|]. split; [reflexivity|].
  eapply (proj2 (harvest_exclusive sqrt_c unit_kernel world_two_densities Hf Hd)
            5%nat).
  vm_compute; reflexivity.
Defined.

Lemma SeedPrism_init_props (i : Z) (p : gmap string Qc) (m : PrismMesh)
    (mu_ delta_ : Qc) (r : bool) :
  props (SeedPrism_init i p m mu_ delta_ r) = p.
Proof.
  unfold SeedPrism_init. destruct (shape m) as [[nz ny] nx].
  by destruct (dims m) as [[dx dy] dz].
Qed.

(** C1 (as stated).  Two seeds whose properties are disjoint: the seed with
    a density in cell 0 accretes cell 1, which is the cell of the seed with
    a susceptibility, so that cell 1 is in both estimates when [harvest]
    returns. *)
Lemma harvest_not_exclusive_all :
  ¬ shares (plain_seed 0 (density 1) (row_mesh 2))
           (plain_seed 1 (susceptibility 1) (row_mesh 2))
  ∧ ∃ res w',
      harvest sqrt_c unit_kernel 5 world_two_properties false
        = Some (Ok (res, w'))
      ∧ estimate <$> seeds w' = [[0; 1]; [1]]
      ∧ ¬ exclusive_all (seeds w').
Proof.
  split.
  - intros (p & [x Hx] & [y Hy]). unfold plain_seed in Hx, Hy.
    rewrite SeedPrism_init_props in Hx, Hy.
    unfold density in Hx. unfold susceptibility in Hy.
    apply lookup_singleton_Some in Hx as [<- _].
    apply lookup_singleton_Some in Hy as [Hp _]. discriminate.
  - eexists _, _. split; [vm_compute; reflexivity|].
    split; [reflexivity|].
    intros Hex.
    eapply (Hex 0%nat 1%nat _ _ 1); [lia | reflexivity | reflexivity | |].
    + simpl. apply elem_of_cons. right. apply elem_of_cons. by left.
    + simpl. apply elem_of_cons. by left.
Qed.
(** ** Termination *)

Lemma tidy_kept_by_growth (sh : Z * Z * Z) :
  well_shaped sh → kept_by_growth sh (tidy sh).
Proof.
  intros Hw ss i idx ss' Hacc (Hf & Ha & Hok). split; [|split].
  - by eapply accretes_frontiers_ok.
  - by eapply accretes_all_have_property.
  - by eapply accretes_seeds_ok.
Qed.

Lemma tidy_kept_by_initialize (sh : Z * Z * Z) :
  well_shaped sh → kept_by_initialize sh (tidy sh).
Proof.
  intros Hw ss i ss' Hext (Hf & Ha & Hok). split; [|split].
  - by eapply extends_frontiers_ok.
  - by eapply extends_all_have_property.
  - by eapply extends_seeds_ok.
Qed.

Lemma tidy_apart_kept_by_growth (sh : Z * Z * Z) :
  well_shaped sh → kept_by_growth sh (tidy_apart sh).
Proof.
  intros Hw ss i idx ss' Hacc (Ht & He & Hp). split; [|split].
  - by eapply tidy_kept_by_growth.
  - eapply accretes_exclusive; [done| |done]. by destruct Ht.
  - by eapply accretes_pairwise_sharing.
Qed.

Lemma tidy_apart_kept_by_initialize (sh : Z * Z * Z) :
  well_shaped sh → kept_by_initialize sh (tidy_apart sh).
Proof.
  intros Hw ss i ss' Hext (Ht & He & Hp). split; [|split].
  - by eapply tidy_kept_by_initialize.
  - by eapply extends_exclusive.
  - by eapply extends_pairwise_sharing.
Qed.

Lemma fresh_tidy (m : PrismMesh) (ss : list SeedPrism) :
  (∀ s, s ∈ ss → fresh s ∧ 0 ≤ index s < size m ∧ shares s s) →
  tidy (shape m) ss.
Proof.
  intros Hs. split; [|split].
  - apply fresh_frontiers_ok. intros s Hin. by destruct (Hs s Hin).
  - intros i s Hi. destruct (Hs s) as (_ & _ & H); [|done].
    by eapply list_elem_of_lookup_2.
  - apply fresh_seeds_ok. intros s Hin. destruct (Hs s Hin) as (? & ? & _).
    by rewrite <- size_grid_size.
Qed.

(** C5 (as the code has it).  On a mesh with rows and columns, for seeds as
    their constructor leaves them, each on the grid and with at least one
    physical property, and any data modules: the solver halts within
    [length seeds * (size - 1)] passes that grow plus one that does not (or
    with an exception).  When it returns, the returned state is the one left
    by the first pass in which no seed grew; every recorded accretion has
    added one cell to one estimate; the number of accretions is at most
    [length seeds * (size - 1)], and at most [size - length seeds] when every
    two seeds share a property and sit in different cells. *)
Theorem harvest_terminates sqrt pot (w : World) (fuel : nat) :
  well_shaped (shape (mesh w)) →
  (∀ s, s ∈ seeds w → fresh s ∧ 0 ≤ index s < size (mesh w) ∧ shares s s) →
  (length (seeds w) * (Z.to_nat (size (mesh w)) - 1) < fuel)%nat →
  ∃ r, harvest sqrt pot fuel w false = Some r
       ∧ ∀ est gs ms w', r = Ok ((est, gs, ms), w') →
           (∃ w1 g k st_k st',
              harvest_setup sqrt pot w = Ok (w1, g)
              ∧ growing_passes sqrt pot (mkSolver w1 [g] [g]) k st_k
              ∧ round sqrt pot (positions st_k) false st_k = Ok (false, st')
              ∧ world st' = w' ∧ goals st' = gs ∧ misfits st' = ms)
           ∧ (cells_held (seeds w')
              = length (seeds w) + (length gs - 1))%nat
           ∧ (length gs - 1
              ≤ length (seeds w) * (Z.to_nat (size (mesh w)) - 1))%nat
           ∧ (pairwise_sharing (seeds w) → distinct_cells (seeds w) →
              (length gs - 1 + length (seeds w)
               ≤ Z.to_nat (size (mesh w)))%nat).
Proof.
  intros Hw Hseeds Hfuel.
  set (sh := shape (mesh w)) in *. set (n := length (seeds w)) in *.
  set (sz := Z.to_nat (size (mesh w))) in *.
  pose proof (fresh_tidy (mesh w) (seeds w) Hseeds) as Htidy. fold sh in Htidy.
  assert (∀ s, s ∈ seeds w → fresh s) as Hfresh
    by (intros s Hin; by destruct (Hseeds s Hin)).
  assert (∀ ss, tidy sh ss → length ss = n → (cells_held ss ≤ n * sz)%nat)
    as Hbound.
  { intros ss (_ & Ha & Hok) <-. by apply cells_held_bound. }
  assert (n * sz - n = n * (sz - 1))%nat as Harith
    by (rewrite Nat.mul_sub_distr_l; lia).
  unfold harvest.
  destruct (harvest_setup sqrt pot w) as [e|[w1 g]] eqn:Hsetup.
  { exists (Raise e). split; [done|]. intros; discriminate. }
  pose proof (harvest_setup_inv sqrt pot (tidy sh) w w1 g
                (tidy_kept_by_initialize sh Hw) Htidy Hfresh Hsetup) as Hinv.
  fold n in Hinv.
  destruct (solver_loop_terminates sqrt pot sh (tidy sh)
              (tidy_kept_by_growth sh Hw) n (n * sz) fuel
              (mkSolver w1 [g] [g]) Hbound Hinv) as [r0 Hr0].
  { destruct Hinv as (_ & _ & _ & Hc & _). simpl in Hc |- *.
    clearbody n sz. lia. }
  unfold _harvest_solver. rewrite Hr0. destruct r0 as [e|st'].
  { exists (Raise e). split; [done|]. intros; discriminate. }
  eexists. split; [reflexivity|].
  intros est gs ms w' Hr. bind_inv Hr as est0 Hest. injection Hr as <- <- <- <-.
  destruct (solver_loop_Ok sqrt pot sh (tidy sh) (tidy_kept_by_growth sh Hw)
              n fuel _ _ Hinv Hr0)
    as ((_ & Ht' & Hn' & Hc' & Hg') & _ & k & st_k & Hpasses & Hlast).
  pose proof (Hbound _ Ht' Hn') as Hb'.
  split; [by exists w1, g, k, st_k, st'|].
  split; [clearbody n sz; lia|]. split; [clearbody n sz; lia|].
  intros Hps Hdc.
  assert (tidy_apart sh (seeds w)) as Hta.
  { split; [done|]. split; [by apply fresh_exclusive|done]. }
  pose proof (harvest_setup_inv sqrt pot (tidy_apart sh) w w1 g
                (tidy_apart_kept_by_initialize sh Hw) Hta Hfresh Hsetup)
    as Hinv2.
  fold n in Hinv2.
  destruct (solver_loop_Ok sqrt pot sh (tidy_apart sh)
              (tidy_apart_kept_by_growth sh Hw) n fuel _ _ Hinv2 Hr0)
    as ((_ & ((_ & _ & Hok2) & Hex2 & Hps2) & _ & _) & _).
  pose proof (cells_held_exclusive_bound _ _ Hps2 Hex2 Hok2) as Hb2.
  unfold sh in Hb2. rewrite <- size_grid_size in Hb2. fold sz in Hb2.
  clearbody n sz. lia.
Qed.

Lemma harvest_terminates_witness :
  well_shaped (shape (mesh world_two_densities))
  ∧ (∀ s, s ∈ seeds world_two_densities →
       fresh s ∧ 0 ≤ index s < size (mesh world_two_densities) ∧ shares s s)
  ∧ (length (seeds world_two_densities)
     * (Z.to_nat (size (mesh world_two_densities)) - 1) < 5)%nat
  ∧ ∃ r, harvest sqrt_c unit_kernel 5 world_two_densities false = Some r
       ∧ ∀ est gs ms w', r = Ok ((est, gs, ms), w') →
           (∃ w1 g k st_k st',
              harvest_setup sqrt_c unit_kernel world_two_densities = Ok (w1, g)
              ∧ growing_passes sqrt_c unit_kernel (mkSolver w1 [g] [g]) k st_k
              ∧ round sqrt_c unit_kernel (positions st_k) false st_k
                = Ok (false, st')
              ∧ world st' = w' ∧ goals st' = gs ∧ misfits st' = ms)
           ∧ (cells_held (seeds w')
              = length (seeds world_two_densities) + (length gs - 1))%nat
           ∧ (length gs - 1
              ≤ length (seeds world_two_densities)
                * (Z.to_nat (size (mesh world_two_densities)) - 1))%nat
           ∧ (pairwise_sharing (seeds world_two_densities) →
              distinct_cells (seeds world_two_densities) →
              (length gs - 1 + length (seeds world_two_densities)
               ≤ Z.to_nat (size (mesh world_two_densities)))%nat).
Proof.
  assert (well_shaped (shape (mesh world_two_densities))) as Hw
    by (simpl; lia).
  assert (∀ s, s ∈ seeds world_two_densities →
            fresh s ∧ 0 ≤ index s < size (mesh world_two_densities)
            ∧ shares s s) as Hs.
  { intros s Hin. simpl in Hin.
    repeat (apply elem_of_cons in Hin as [->|Hin]);
      [| |by apply elem_of_nil in Hin].
    - split; [by split|]. split; [vm_compute; split; [discriminate|reflexivity]|].
      exists "density"%string. split; by eexists.
    - split; [by split|]. split; [vm_compute; split; [discriminate|reflexivity]|].
      exists "density"%string. split; by eexists. }
  assert (length (seeds world_two_densities)
          * (Z.to_nat (size (mesh world_two_densities)) - 1) < 5)%nat as Hfuel
    by (vm_compute; lia).
  split; [done|]. split; [done|]. split; [done|].
  exact (harvest_terminates sqrt_c unit_kernel world_two_densities 5 Hw Hs Hfuel).
Defined.

(** C5 (as stated).  With the modules of the sources alone, an accepted
    growth adds a cell that is already in an estimate: in
    [world_two_properties] the seed of cell 0 accretes cell 1, the cell of
    the other seed.  With a module for each of two properties the number of
    accretions exceeds the size of the mesh: in [world_two_modules] the two
    seeds accrete two cells each on a mesh of three cells. *)
Lemma harvest_accretions_exceed_mesh :
  (∃ res w',
     harvest sqrt_c unit_kernel 5 world_two_properties false
       = Some (Ok (res, w'))
     ∧ estimate <$> seeds world_two_properties = [[0]; [1]]
     ∧ estimate <$> seeds w' = [[0; 1]; [1]])
  ∧ (∃ res w',
       harvest sqrt_c unit_kernel 9 world_two_modules false
         = Some (Ok (res, w'))
       ∧ size (mesh world_two_modules) = 3
       ∧ (length res.1.2 - 1 = 4)%nat
       ∧ estimate <$> seeds w' = [[0; 1; 2]; [2; 1; 0]]
       ∧ ¬ (Z.of_nat (length res.1.2 - 1) ≤ size (mesh world_two_modules))).
Proof.
  split.
  - eexists _, _. split; [vm_compute; reflexivity|].
    split; vm_compute; reflexivity.
  - eexists _, _. split; [vm_compute; reflexivity|].
    split; [vm_compute; reflexivity|]. split; [vm_compute; reflexivity|].
    split; [vm_compute; reflexivity|].
    vm_compute. intros H. by apply H.
Qed.

(** ** Streaming mode *)

(** C9.  With [iterate] set, [harvest] raises [NotImplementedError] whatever
    the data modules, the seeds and the mesh are: the test comes before the
    check of the kinds, the initialization of the seeds and the updates of
    the modules, so inputs on which one of those would raise (no seed, a
    masked seed cell, arrays of different lengths) raise
    [NotImplementedError] all the same, and nothing is returned. *)
Theorem harvest_iterate_not_implemented sqrt pot (fuel : nat) (w : World) :
  harvest sqrt pot fuel w true = Some (Raise NotImplementedError).
Proof. reflexivity. Qed.

(** Without [iterate], an empty list of seeds is an [IndexError]. *)
Lemma harvest_no_seed sqrt pot (fuel : nat) (ds : list DM) (m : PrismMesh) :
  harvest sqrt pot fuel (mkWorld ds [] m) false = Some (Raise IndexError).
Proof. reflexivity. Qed.

(** * Conflicts that the resolution does not see *)

(** C8.  Two rows of four cells; seeds of density 1 in cells 0 and 4 and
    seeds of density 2 in cells 2 and 7, in this order.  The lists collected
    for the seeds are [1, 5], [5, 1], [3, 1, 6, 5] and [6, 3].  The loop that
    resolves the conflicts removes cells from the list it runs over, so the
    cell after a removed one is never looked at: the first seed drops 1 and
    skips 5, the second drops 5 and skips 1, the third drops 3 and 6 and skips
    1 and 5.  The preparation ends without a failure, with the first seed
    (density 1) and the third seed (density 2) both listing cell 5, and the
    run that follows returns an estimate and its goals: the seeds with
    different densities that share a cell of their lists do not make the run
    fail. *)
Theorem resolution_misses_conflict :
  (∃ est ss1 ss2,
     pgrav3d.mark_seeds (replicate 8 0%Qc) four_seeds = Ok est
     ∧ pgrav3d.collect four_seeds (flat_mesh 2 4) est = Ok ss1
     ∧ pgrav3d.neighbors <$> ss1 = [[1; 5]; [5; 1]; [3; 1; 6; 5]; [6; 3]]
     ∧ pgrav3d.prepare (flat_mesh 2 4) ["gz"%string] four_seeds = Ok (est, ss2)
     ∧ pgrav3d.neighbors <$> ss2 = [[5]; [1]; [1; 5]; [6; 3]]
     ∧ this <$> (pgrav3d.density <$> ss2)
       = [inject_Z 1; inject_Z 1; inject_Z 2; inject_Z 2]
     ∧ in_conflict ss2 0 2)
  ∧ ∃ est gs,
      pgrav3d.grow unit_jacobian [Qc_of_Z 9] (flat_mesh 2 4) 0%Qc 5 10
        ["gz"%string] four_seeds 1%Qc None = Ok (est, gs).
Proof.
  split.
  - eexists _, _, _.
    split; [vm_compute; reflexivity|]. split; [vm_compute; reflexivity|].
    split; [reflexivity|]. split; [vm_compute; reflexivity|].
    split; [reflexivity|]. split; [reflexivity|].
    eexists _, _, 5. split; [done|].
    split; [reflexivity|]. split; [reflexivity|].
    split; [vm_compute; apply list_elem_of_here|].
    split; [vm_compute; apply list_elem_of_further, list_elem_of_here|].
    intros H. apply (f_equal this) in H. vm_compute in H. discriminate.
  - eexists _, _. vm_compute. reflexivity.
Qed.

(** * The seeds-too-close failure of the matrix solver *)

Lemma quiet_Ok {A} (a : A) : quiet (Ok a).
Proof. intros i j. discriminate. Qed.

Lemma quiet_bind {A B} (m : result A) (f : A → result B) :
  quiet m → (∀ a, quiet (f a)) → quiet (m ≫= f).
Proof.
  unfold quiet. intros Hm Hf i j.
  destruct m as [e|a]; simpl; [|apply Hf].
  intros [= ->]. by apply (Hm i j).
Qed.

Lemma quiet_foldlM {A B} (f : B → A → result B) (l : list A) (b : B) :
  (∀ b a, quiet (f b a)) → quiet (foldlM f b l).
Proof.
  intros Hf. revert b. induction l as [|a l IH]; intros b; simpl.
  - apply quiet_Ok.
  - apply quiet_bind; [apply Hf|apply IH].
Qed.

Lemma quiet_mapM {A B} (f : A → result B) (l : list A) :
  (∀ a, quiet (f a)) → quiet (mapM f l).
Proof.
  intros Hf. induction l as [|a l IH]; simpl; [apply quiet_Ok|].
  apply quiet_bind; [apply Hf|]. intros b.
  apply quiet_bind; [apply IH|]. intros k. apply quiet_Ok.
Qed.

Lemma quiet_py_remove (x : Z) (l : list Z) : quiet (py_remove x l).
Proof.
  induction l as [|y l IH]; simpl; [intros i j; discriminate|].
  case_decide; [apply quiet_Ok|].
  apply quiet_bind; [done|]. intros l'. apply quiet_Ok.
Qed.

Ltac quiet_step :=
  match goal with
  | |- quiet (Ok _) => apply quiet_Ok
  | |- quiet (Raise _) => intros ? ?; discriminate
  | |- quiet (py_remove _ _) => apply quiet_py_remove
  | |- quiet (_ ≫= _) => apply quiet_bind; [|intros ?]
  | |- quiet (foldlM _ _ _) => apply quiet_foldlM; intros ? ?
  | |- quiet (mapM _ _) => apply quiet_mapM; intros ?
  | |- quiet (match ?x with _ => _ end) => destruct x
  end.

Ltac quiet_tac := repeat quiet_step.

Lemma quiet_list_getitem {A} (l : list A) (i : nat) : quiet (list_getitem l i).
Proof. unfold list_getitem. quiet_tac. Qed.

Lemma quiet_py_last {A} (l : list A) : quiet (py_last l).
Proof. unfold py_last. quiet_tac. Qed.

Lemma quiet_array_get (a : list Qc) (n : Z) : quiet (pgrav3d.array_get a n).
Proof. unfold pgrav3d.array_get, list_getitem. quiet_tac. Qed.

Lemma quiet_array_set (a : list Qc) (n : Z) (v : Qc) :
  quiet (pgrav3d.array_set a n v).
Proof. unfold pgrav3d.array_set. quiet_tac. Qed.

(** [_add_neighbors] never raises the failure. *)
Lemma quiet_add_neighbors (p : Z) (nbrs : list Z) (al : bool)
    (others : list (list Z)) (m : pgrav3d.Mesh) (est : list Qc) :
  quiet (pgrav3d._add_neighbors p nbrs al others m est).
Proof.
  unfold pgrav3d._add_neighbors, pgrav3d.is_free. quiet_tac.
  apply quiet_array_get.
Qed.


(** ** The resolution of the conflicts *)

Lemma foldlM_Raise {A B} (P : B → Prop) (f : B → A → result B) (l : list A)
    (b : B) (e : exn) :
  P b → (∀ b a b', P b → f b a = Ok b' → P b') →
  foldlM f b l = Raise e → ∃ b' a, P b' ∧ a ∈ l ∧ f b' a = Raise e.
Proof.
  revert b. induction l as [|a l IH]; intros b Hb Hstep H; simpl in H;
    [discriminate|].
  destruct (f b a) as [e'|b1] eqn:Hf; simpl in H.
  - injection H as ->. exists b, a. split_and!; [done|left|done].
  - destruct (IH b1) as (b' & a' & ? & ? & ?); [by eapply Hstep|done|done|].
    exists b', a'. split_and!; [done|by right|done].
Qed.

Lemma shrunk_refl (ss : list pgrav3d.Seed) : shrunk ss ss.
Proof. split; [done|]. intros k s Hs. exists s. by split_and!. Qed.

Lemma shrunk_trans (a b c : list pgrav3d.Seed) :
  shrunk a b → shrunk b c → shrunk a c.
Proof.
  intros [Hl1 H1] [Hl2 H2]. split; [congruence|].
  intros k s Hs. destruct (H2 k s Hs) as (s1 & Hs1 & Hd1 & Hn1).
  destruct (H1 k s1 Hs1) as (s0 & Hs0 & Hd0 & Hn0).
  exists s0. split_and!; [done|congruence|set_solver].
Qed.

Lemma shrunk_in_conflict (ss ss' : list pgrav3d.Seed) (i j : nat) :
  shrunk ss ss' → in_conflict ss' i j → in_conflict ss i j.
Proof.
  intros [_ H] (a & b & c & Hij & Ha & Hb & Hca & Hcb & Hd).
  destruct (H i a Ha) as (a0 & Ha0 & Hda & Hna).
  destruct (H j b Hb) as (b0 & Hb0 & Hdb & Hnb).
  exists a0, b0, c. split_and!; [done|done|done|set_solver|set_solver|congruence].
Qed.

Lemma find_other_Some (i j : nat) (c : Z) (ss : list pgrav3d.Seed)
    (other : pgrav3d.Seed) :
  pgrav3d.find_other i c ss = Some (j, other) →
  ss !! j = Some other ∧ j ≠ i ∧ c ∈ pgrav3d.neighbors other.
Proof.
  unfold pgrav3d.find_other. intros H.
  destruct (list_find _ _) as [[k [j' o]]|] eqn:Hf; [|discriminate].
  simpl in H. injection H as -> ->.
  apply list_find_Some in Hf as (Hl & [Hne Hc] & _).
  rewrite list_lookup_imap in Hl.
  destruct (ss !! k) as [s|] eqn:Hk; [|discriminate].
  simpl in Hl. injection Hl as -> ->. done.
Qed.

(** One pass of the resolution either leaves lists that have shrunk, or
    fails for the seed it works on and a seed in conflict with it. *)
Lemma resolve_step_Ok (i pos : nat) (ss ss' : list pgrav3d.Seed) :
  pgrav3d.resolve_step i ss pos = Ok ss' → shrunk ss ss'.
Proof.
  unfold pgrav3d.resolve_step. intros H. bind_inv H as sd Hsd.
  apply list_getitem_Ok in Hsd.
  destruct (pgrav3d.neighbors sd !! pos) as [c|];
    [|injection H as <-; apply shrunk_refl].
  destruct (pgrav3d.find_other i c ss) as [[j other]|];
    [|injection H as <-; apply shrunk_refl].
  case_decide; [|discriminate]. bind_inv H as l Hl. injection H as <-.
  apply py_remove_Ok in Hl as [_ Hsub].
  split; [by rewrite length_insert|].
  intros k s' Hk.
  destruct (decide (k = i)) as [->|Hne].
  - rewrite list_lookup_insert_eq in Hk by (by eapply lookup_lt_Some).
    injection Hk as <-. exists sd. split_and!; [done|done|].
    simpl. intros x Hx. by eapply elem_of_sublist.
  - rewrite list_lookup_insert_ne in Hk by done. exists s'. by split_and!.
Qed.

Lemma resolve_step_Raise (i pos a b : nat) (ss : list pgrav3d.Seed) :
  pgrav3d.resolve_step i ss pos = Raise (SeedsTooClose a b) →
  a = i ∧ in_conflict ss i b.
Proof.
  unfold pgrav3d.resolve_step. intros H.
  destruct (list_getitem ss i) as [e|sd] eqn:Hsd; simpl in H;
    [unfold list_getitem in Hsd; destruct (ss !! i); congruence|].
  apply list_getitem_Ok in Hsd.
  destruct (pgrav3d.neighbors sd !! pos) as [c|] eqn:Hc; [|discriminate].
  destruct (pgrav3d.find_other i c ss) as [[j other]|] eqn:Hf; [|discriminate].
  apply find_other_Some in Hf as (Hj & Hne & Hcj).
  case_decide as Hd.
  - exfalso. destruct (py_remove c (pgrav3d.neighbors sd)) as [e|l] eqn:Hr;
      simpl in H; [|discriminate].
    injection H as ->. by apply (quiet_py_remove c (pgrav3d.neighbors sd) a b).
  - injection H as <- <-. split; [done|].
    exists sd, other, c. split_and!; [done|done|done| |done|done].
    by eapply list_elem_of_lookup_2.
Qed.

Lemma resolve_seed_Ok (i : nat) (ss ss' : list pgrav3d.Seed) :
  pgrav3d.resolve_seed i ss = Ok ss' → shrunk ss ss'.
Proof.
  unfold pgrav3d.resolve_seed. intros H. bind_inv H as sd Hsd. revert H.
  apply foldlM_invariant; [apply shrunk_refl|].
  intros b pos b' Hb _ Hstep.
  eapply shrunk_trans; [done|by eapply resolve_step_Ok].
Qed.

Lemma resolve_seed_Raise (i a b : nat) (ss : list pgrav3d.Seed) :
  pgrav3d.resolve_seed i ss = Raise (SeedsTooClose a b) →
  a = i ∧ in_conflict ss i b.
Proof.
  unfold pgrav3d.resolve_seed. intros H.
  destruct (list_getitem ss i) as [e|sd] eqn:Hsd; simpl in H;
    [unfold list_getitem in Hsd; destruct (ss !! i); congruence|].
  apply (foldlM_Raise (shrunk ss)) in H as (ss1 & pos & Hs & _ & Hr).
  - apply resolve_step_Raise in Hr as [-> Hc]. split; [done|].
    by eapply shrunk_in_conflict.
  - apply shrunk_refl.
  - intros b0 pos b' Hb Hstep.
    eapply shrunk_trans; [done|by eapply resolve_step_Ok].
Qed.

Lemma resolve_Ok (ss ss' : list pgrav3d.Seed) :
  pgrav3d.resolve ss = Ok ss' → shrunk ss ss'.
Proof.
  unfold pgrav3d.resolve. apply foldlM_invariant; [apply shrunk_refl|].
  intros b i b' Hb _ Hstep.
  eapply shrunk_trans; [done|by eapply resolve_seed_Ok].
Qed.

Lemma resolve_Raise (i j : nat) (ss : list pgrav3d.Seed) :
  pgrav3d.resolve ss = Raise (SeedsTooClose i j) →
  (i < length ss)%nat ∧ in_conflict ss i j.
Proof.
  unfold pgrav3d.resolve. intros H.
  apply (foldlM_Raise (shrunk ss)) in H as (ss1 & k & Hs & Hk & Hr).
  - apply resolve_seed_Raise in Hr as [-> Hc]. split.
    + apply elem_of_seq in Hk. lia.
    + by eapply shrunk_in_conflict.
  - apply shrunk_refl.
  - intros b0 pos b' Hb Hstep.
    eapply shrunk_trans; [done|by eapply resolve_seed_Ok].
Qed.

(** ** The loop of the growth never raises the failure *)

Lemma quiet_mark_seeds (est : list Qc) (ss : list pgrav3d.Seed) :
  quiet (pgrav3d.mark_seeds est ss).
Proof. unfold pgrav3d.mark_seeds. quiet_tac. apply quiet_array_set. Qed.

Lemma quiet_collect (ss : list pgrav3d.Seed) (m : pgrav3d.Mesh) (est : list Qc) :
  quiet (pgrav3d.collect ss m est).
Proof.
  unfold pgrav3d.collect. quiet_tac;
    [apply quiet_list_getitem|apply quiet_add_neighbors].
Qed.

Lemma quiet_calc_mmi_goal (est : list Qc) (mmi : Qc) (power : nat)
    (ss : list pgrav3d.Seed) (m : pgrav3d.Mesh) (dist : option (list Qc)) :
  quiet (pgrav3d._calc_mmi_goal est mmi power ss m dist).
Proof.
  unfold pgrav3d._calc_mmi_goal, pgrav3d.cell_distance.
  case_decide; [apply quiet_Ok|].
  apply quiet_bind.
  - destruct dist; [apply quiet_Ok|]. apply quiet_mapM. intros c.
    destruct ss; quiet_tac.
  - intros d. destruct (_ <$> d); quiet_tac.
Qed.

Section QuietGrowth.

Variable jacobian : Z → list Qc.
Variable data_vector : list Qc.
Variable m : pgrav3d.Mesh.
Variable mmi : Qc.
Variable power : nat.

Lemma quiet_trial ss dens res est dist n :
  quiet (pgrav3d.trial jacobian m mmi power ss dens res est dist n).
Proof.
  unfold pgrav3d.trial.
  apply quiet_bind; [apply quiet_array_set|]. intros est1.
  apply quiet_bind; [apply quiet_calc_mmi_goal|]. intros [reg dist1].
  apply quiet_bind; [apply quiet_array_set|]. intros est2. apply quiet_Ok.
Qed.

Lemma quiet_try_grow i st :
  quiet (pgrav3d.try_grow jacobian m mmi power i st).
Proof.
  unfold pgrav3d.try_grow.
  apply quiet_bind; [apply quiet_list_getitem|]. intros sd.
  apply quiet_bind; [apply quiet_py_last|]. intros g0.
  apply quiet_bind.
  - apply quiet_foldlM. intros [[[bg bn] est] dist] n.
    apply quiet_bind; [apply quiet_trial|]. intros [[goal est'] dist'].
    apply quiet_Ok.
  - intros [[[bg bn] est] dist]. destruct bn as [b|]; [|apply quiet_Ok].
    apply quiet_bind; [apply quiet_array_set|]. intros est1.
    apply quiet_bind; [apply quiet_list_getitem|]. intros mk.
    apply quiet_bind; [apply quiet_py_remove|]. intros l.
    apply quiet_bind; [apply quiet_add_neighbors|]. intros l'.
    apply quiet_Ok.
Qed.

Lemma quiet_scan fuel ss dens tmp_res prm pos tmp best improved est dist :
  quiet (pgrav3d.scan jacobian m mmi power fuel ss dens tmp_res prm pos tmp best
           improved est dist).
Proof.
  revert pos tmp best improved est dist.
  induction fuel as [|fuel IH]; intros pos tmp best improved est dist; simpl;
    destruct (tmp !! pos) as [n|]; try apply quiet_Ok.
  - intros ? ?; discriminate.
  - apply quiet_bind; [apply quiet_trial|]. intros [[goal est'] dist'].
    case_decide; apply IH.
Qed.

Lemma quiet_rearrange_param fuel i st sd acc prm :
  quiet (pgrav3d.rearrange_param jacobian m mmi power fuel i st sd acc prm).
Proof.
  unfold pgrav3d.rearrange_param.
  destruct acc as [[[[bg bp] best_nbrs] est] dist].
  apply quiet_bind; [apply quiet_add_neighbors|]. intros pn.
  destruct pn as [|p0 pn]; [apply quiet_Ok|].
  apply quiet_bind.
  { apply quiet_foldlM. intros tmp nb.
    apply quiet_bind; [apply quiet_add_neighbors|]. intros nn.
    destruct (bool_decide _); [apply quiet_py_remove|apply quiet_Ok]. }
  intros tmp. apply quiet_bind; [apply quiet_array_set|]. intros est1.
  apply quiet_bind; [apply quiet_scan|].
  intros [[[[tmp' best'] improved] est2] dist2].
  apply quiet_bind; [apply quiet_array_set|]. intros est3. apply quiet_Ok.
Qed.

Lemma quiet_try_rearrange fuel i st :
  quiet (pgrav3d.try_rearrange jacobian m mmi power fuel i st).
Proof.
  unfold pgrav3d.try_rearrange.
  apply quiet_bind; [apply quiet_list_getitem|]. intros sd.
  apply quiet_bind; [apply quiet_py_last|]. intros g0.
  apply quiet_bind; [apply quiet_list_getitem|]. intros mk.
  apply quiet_bind.
  { apply quiet_foldlM. intros acc prm. apply quiet_rearrange_param. }
  intros [[[[bg bp] best_nbrs] est] dist].
  destruct bp as [[best_param param_to_remove]|]; [|apply quiet_Ok].
  apply quiet_bind; [apply quiet_array_set|]. intros est1.
  apply quiet_bind; [apply quiet_array_set|]. intros est2.
  apply quiet_bind; [apply quiet_py_remove|]. intros mk1.
  apply quiet_bind; [destruct best_nbrs; quiet_tac|]. intros nb.
  apply quiet_bind; [apply quiet_py_remove|]. intros l.
  apply quiet_bind; [apply quiet_add_neighbors|]. intros l'. apply quiet_Ok.
Qed.

Lemma quiet_pass body ps flag st :
  (∀ i st, quiet (body i st)) → quiet (pgrav3d.pass body ps flag st).
Proof.
  intros Hb. revert flag st.
  induction ps as [|i ps IH]; intros flag st; simpl; [apply quiet_Ok|].
  apply quiet_bind; [apply Hb|]. intros [f st1]. apply IH.
Qed.

Lemma quiet_iterations count fuel av st :
  quiet (pgrav3d.iterations jacobian m mmi power count fuel av st).
Proof.
  revert st. induction count as [|count IH]; intros st; simpl;
    [apply quiet_Ok|].
  apply quiet_bind; [apply quiet_pass, quiet_try_grow|]. intros [grew st1].
  apply quiet_bind.
  { destruct grew; [apply quiet_Ok|apply quiet_pass, quiet_try_rearrange]. }
  intros [go_on st2]. destruct (negb go_on); [apply quiet_Ok|].
  apply quiet_bind; [apply quiet_py_last|]. intros g.
  destruct (_ && _); [apply quiet_Ok|apply IH].
Qed.

End QuietGrowth.

(** ** Where the failure comes from *)

(** When [grow] fails with "Seeds i and j are too close", the failure comes
    from the resolution of the conflicts that follows the collection of the
    first neighbours, and the lists collected for the seeds [i] and [j],
    which are two seeds of different densities, have a cell in common.  The
    loop of growths and rearrangements never raises it. *)
Theorem grow_too_close_from_resolution jacobian data_vector m mmi power fuel
    keys ss av d0 (i j : nat) :
  pgrav3d.grow jacobian data_vector m mmi power fuel keys ss av d0
    = Raise (SeedsTooClose i j) →
  ∃ est ss1,
    pgrav3d.mark_seeds (replicate (Z.to_nat (pgrav3d.size m)) 0%Qc) ss = Ok est
    ∧ pgrav3d.collect ss m est = Ok ss1
    ∧ pgrav3d.resolve ss1 = Raise (SeedsTooClose i j)
    ∧ in_conflict ss1 i j.
Proof.
  unfold pgrav3d.grow, pgrav3d.grow_state, pgrav3d.prepare. intros H.
  destruct (negb _); [discriminate|].
  destruct (pgrav3d.mark_seeds _ ss) as [e|est] eqn:Hm; simpl in H.
  { injection H as ->. exfalso. eapply quiet_mark_seeds, Hm. }
  destruct (pgrav3d.collect ss m est) as [e|ss1] eqn:Hc; simpl in H.
  { injection H as ->. exfalso. eapply quiet_collect, Hc. }
  destruct (pgrav3d.resolve ss1) as [e|ss2] eqn:Hr; simpl in H.
  { injection H as ->. exists est, ss1. split_and!; [done..|].
    by apply resolve_Raise in Hr as [_ ?]. }
  exfalso.
  destruct (pgrav3d._calc_mmi_goal est mmi power ss2 m d0) as [e|[reg dist]]
    eqn:Hg; simpl in H.
  { injection H as ->. eapply quiet_calc_mmi_goal, Hg. }
  match type of H with
  | context [pgrav3d.iterations ?a ?b ?c ?d ?e ?f ?g ?h] =>
      destruct (pgrav3d.iterations a b c d e f g h) as [e'|st] eqn:Hi;
        simpl in H; [|discriminate];
      injection H as ->;
      eapply quiet_iterations, Hi
  end.
Qed.

Lemma grow_too_close_from_resolution_witness :
  in_conflict
    [pgrav3d.set_neighbors [1] (seed_at (flat_mesh 1 5) 0 1);
     pgrav3d.set_neighbors [3; 1] (seed_at (flat_mesh 1 5) 2 2)] 0 1.
Proof.
  destruct (grow_too_close_from_resolution unit_jacobian [Qc_of_Z 6]
              (flat_mesh 1 5) 0%Qc 5 10 ["gz"%string] row_seeds_near 1%Qc None
              0%nat 1%nat) as (est & ss1 & Hm & Hc & _ & Hconf).
  { vm_compute. reflexivity. }
  vm_compute in Hm. injection Hm as <-.
  vm_compute in Hc. injection Hc as <-.
  exact Hconf.
Defined.

(** ** What [_add_neighbors] appends *)

(** [_add_neighbors] keeps the list it is given and appends to it only cells
    of the neighbourhood of [p] whose estimate is zero and that are in the
    list of no seed it was handed; when the list is the list of one of those
    seeds, no cell that it has is appended, and none is appended twice. *)
Theorem add_neighbors_appends_free (p : Z) (nbrs l : list Z) (al : bool)
    (others : list (list Z)) (m : pgrav3d.Mesh) (est : list Qc) :
  pgrav3d._add_neighbors p nbrs al others m est = Ok l →
  ∃ new, l = nbrs ++ new
    ∧ (∀ c, c ∈ new →
         Some c ∈ pgrav3d.candidates (pgrav3d.shape m) (pgrav3d.size m) p
         ∧ pgrav3d.array_get est c = Ok 0%Qc
         ∧ (∀ o, o ∈ others → c ∉ o)
         ∧ (al = true → c ∉ nbrs))
    ∧ (al = true → NoDup new).
Proof.
  unfold pgrav3d._add_neighbors.
  apply (foldlM_invariant
           (λ acc, ∃ new, acc = nbrs ++ new
              ∧ (∀ c, c ∈ new →
                   Some c ∈ pgrav3d.candidates (pgrav3d.shape m)
                              (pgrav3d.size m) p
                   ∧ pgrav3d.array_get est c = Ok 0%Qc
                   ∧ (∀ o, o ∈ others → c ∉ o)
                   ∧ (al = true → c ∉ nbrs))
              ∧ (al = true → NoDup new))).
  { exists []. rewrite app_nil_r. split; [done|]. split.
    - intros c Hc. by apply elem_of_nil in Hc.
    - intros _. apply NoDup_nil_2. }
  intros acc slot acc' (new & -> & Hnew & Hnd) Hslot Hstep.
  destruct slot as [n|]; [|injection Hstep as <-; by exists new].
  bind_inv Hstep as free Hfree. injection Hstep as <-.
  destruct free; [|by exists new].
  exists (new ++ [n]). rewrite app_assoc. split; [done|].
  unfold pgrav3d.is_free in Hfree.
  destruct (forallb _ _) eqn:Hall; [|discriminate].
  bind_inv Hfree as e He. injection Hfree as Hz.
  apply bool_decide_eq_true in Hz. subst e.
  rewrite forallb_forall in Hall.
  assert (∀ o, o ∈ (if al then [nbrs ++ new] else []) ++ others → n ∉ o)
    as Hfree.
  { intros o Ho. apply list_elem_of_In in Ho. specialize (Hall o Ho).
    by apply negb_true_iff, bool_decide_eq_false in Hall. }
  split.
  - intros c Hc. apply elem_of_app in Hc as [Hc|Hc]; [by apply Hnew|].
    apply list_elem_of_singleton in Hc as ->. split_and!; [done|done| |].
    + intros o Ho. apply Hfree, elem_of_app. by right.
    + intros ->. intros Hn. apply (Hfree (nbrs ++ new)).
      * apply elem_of_app. left. by left.
      * apply elem_of_app. by left.
  - intros ->. apply NoDup_app. split_and!; [by apply Hnd| |apply NoDup_singleton].
    intros x Hx Hx'. apply list_elem_of_singleton in Hx' as ->.
    apply (Hfree (nbrs ++ new)).
    + apply elem_of_app. left. by left.
    + apply elem_of_app. by right.
Qed.

Lemma add_neighbors_appends_free_witness :
  ∃ new, [2; 4] = [2] ++ new
    ∧ (∀ c, c ∈ new →
         Some c ∈ pgrav3d.candidates (1, 1, 5) 5 3
         ∧ pgrav3d.array_get (Qc_of_Z <$> [1; 1; 0; 0; 0]) c = Ok 0%Qc
         ∧ (∀ o, o ∈ [[0]] → c ∉ o)
         ∧ (true = true → c ∉ [2]))
    ∧ (true = true → NoDup new).
Proof.
  apply (add_neighbors_appends_free 3 [2] [2; 4] true [[0]] (flat_mesh 1 5)
           (Qc_of_Z <$> [1; 1; 0; 0; 0])).
  vm_compute. reflexivity.
Defined.

(** * The seeds of the matrix solver *)


Lemma get_seed_param (point : Qc * Qc * Qc) (dens : Qc) (m : pgrav3d.Mesh)
    (s : pgrav3d.Seed) :
  pgrav3d.get_seed point dens m = Ok s →
  0 ≤ pgrav3d.param s < Z.of_nat (length (pgrav3d.ravel m)).
Proof.
  unfold pgrav3d.get_seed.
  destruct (list_find _ _) as [[i c]|] eqn:Hf; [|discriminate].
  intros [= <-]. simpl. apply list_find_Some in Hf as (Hi & _).
  apply lookup_lt_Some in Hi. lia.
Qed.

(** The resolution of the conflicts fails with the seeds-too-close failure
    only. *)
Lemma resolve_step_errors (i pos : nat) (ss : list pgrav3d.Seed) (e : exn) :
  (i < length ss)%nat →
  pgrav3d.resolve_step i ss pos = Raise e → ∃ a b, e = SeedsTooClose a b.
Proof.
  intros Hi. unfold pgrav3d.resolve_step.
  destruct (lookup_lt_is_Some_2 ss i Hi) as [sd Hsd].
  unfold list_getitem. rewrite Hsd. simpl.
  destruct (pgrav3d.neighbors sd !! pos) as [c|] eqn:Hc; [|discriminate].
  destruct (pgrav3d.find_other i c ss) as [[j other]|]; [|discriminate].
  case_decide; [|intros [= <-]; eauto].
  destruct (py_remove_elem c (pgrav3d.neighbors sd)) as [l ->];
    [by eapply list_elem_of_lookup_2|].
  discriminate.
Qed.

Lemma resolve_errors (ss : list pgrav3d.Seed) (e : exn) :
  pgrav3d.resolve ss = Raise e → ∃ a b, e = SeedsTooClose a b.
Proof.
  unfold pgrav3d.resolve. intros H.
  apply (foldlM_Raise (shrunk ss)) in H as (ss1 & i & [Hl _] & Hi & Hr).
  - unfold pgrav3d.resolve_seed in Hr. apply elem_of_seq in Hi.
    destruct (lookup_lt_is_Some_2 ss1 i ltac:(lia)) as [sd Hsd].
    unfold list_getitem in Hr. rewrite Hsd in Hr. simpl in Hr.
    apply (foldlM_Raise (shrunk ss1)) in Hr as (ss2 & pos & [Hl2 _] & _ & Hr).
    + eapply resolve_step_errors; [|done]. lia.
    + apply shrunk_refl.
    + intros b0 pos b' Hb Hstep.
      eapply shrunk_trans; [done|by eapply resolve_step_Ok].
  - apply shrunk_refl.
  - intros b0 pos b' Hb Hstep.
    eapply shrunk_trans; [done|by eapply resolve_seed_Ok].
Qed.

(** * The trajectory of the goal in the matrix solver *)

Lemma foldlM_run {A B} (P : B → Prop) (f : B → A → result B) (l : list A)
    (b r : B) :
  foldlM f b l = Ok r → P b → (∀ b a b', P b → f b a = Ok b' → P b') → P r.
Proof.
  intros H Hb Hstep. revert H. apply foldlM_invariant; [done|].
  intros b0 a b1 H0 _. by apply Hstep.
Qed.

Lemma py_last_Ok {A} (l : list A) (v : A) : py_last l = Ok v ↔ last l = Some v.
Proof. unfold py_last. destruct (last l); split; congruence. Qed.

Lemma strictly_decreasing_snoc (l : list Qc) (g b : Qc) :
  strictly_decreasing l → last l = Some g → (b < g)%Qc →
  strictly_decreasing (l ++ [b]).
Proof.
  intros Hl Hg Hb k x y Hx Hy.
  assert (S k < length (l ++ [b]))%nat as Hk by (by eapply lookup_lt_Some).
  rewrite length_app in Hk. simpl in Hk.
  destruct (decide (S k < length l)%nat) as [Hlt|Hge].
  - rewrite lookup_app_l in Hx by lia. rewrite lookup_app_l in Hy by lia.
    by eapply Hl.
  - assert (S k = length l) as Hk' by lia.
    rewrite lookup_app_l in Hx by lia.
    rewrite lookup_app_r in Hy by lia.
    rewrite Hk', Nat.sub_diag in Hy. injection Hy as <-.
    rewrite last_lookup, <- Hk' in Hg. simpl in Hg. congruence.
Qed.

Lemma array_set_length (a a' : list Qc) (n : Z) (v : Qc) :
  pgrav3d.array_set a n v = Ok a' → length a' = length a.
Proof.
  unfold pgrav3d.array_set. destruct (pgrav3d.np_index _ _); [|discriminate].
  intros [= <-]. apply length_insert.
Qed.

Lemma descends_refl st : descends st st.
Proof. split; [done|]. exists []. by rewrite app_nil_r. Qed.

Lemma descends_trans st st1 st2 :
  descends st st1 → descends st1 st2 → descends st st2.
Proof.
  intros [Hl1 (m1 & Hg1 & Hd1)] [Hl2 (m2 & Hg2 & Hd2)].
  split; [congruence|]. exists (m1 ++ m2). rewrite app_assoc, <- Hg1.
  split; [done|]. intros Hd. apply Hd2. rewrite Hg1. by apply Hd1.
Qed.

Lemma descends_snoc st est res g0 bg mk ss dist :
  length est = length (pgrav3d.estimate st) →
  last (pgrav3d.goals st) = Some g0 → (bg < g0)%Qc →
  descends st (pgrav3d.mkState est res (pgrav3d.goals st ++ [bg]) mk ss dist).
Proof.
  intros Hl Hg Hb. split; [done|]. exists [bg]. split; [done|].
  intros Hd. by eapply strictly_decreasing_snoc.
Qed.

Lemma descends_same st est res mk ss dist :
  length est = length (pgrav3d.estimate st) →
  descends st (pgrav3d.mkState est res (pgrav3d.goals st) mk ss dist).
Proof. intros Hl. split; [done|]. exists []. by rewrite app_nil_r. Qed.

Section Descent.

Variable jacobian : Z → list Qc.
Variable data_vector : list Qc.
Variable m : pgrav3d.Mesh.
Variable mmi : Qc.
Variable power : nat.

Lemma trial_length ss dens res est dist n goal est' dist' :
  pgrav3d.trial jacobian m mmi power ss dens res est dist n
    = Ok (goal, est', dist') →
  length est' = length est.
Proof.
  unfold pgrav3d.trial. intros H.
  bind_inv H as est1 H1. bind_inv H as rd Hrd. destruct rd as [reg dist1].
  bind_inv H as est2 H2. injection H as _ <- _.
  apply array_set_length in H1, H2. congruence.
Qed.

Lemma try_grow_descends i st f st' :
  pgrav3d.try_grow jacobian m mmi power i st = Ok (f, st') → descends st st'.
Proof.
  unfold pgrav3d.try_grow. intros H.
  bind_inv H as sd Hsd. bind_inv H as g0 Hg0. apply py_last_Ok in Hg0.
  bind_inv H as acc Hacc. destruct acc as [[[bg bn] est] dist].
  assert (length est = length (pgrav3d.estimate st)
          ∧ (is_Some bn → (bg < g0)%Qc)) as [Hlen Hbg].
  { apply (foldlM_run
             (λ acc : Qc * option Z * list Qc * option (list Qc),
                length acc.1.2 = length (pgrav3d.estimate st)
                ∧ (acc.1.1.1 ≤ g0)%Qc
                ∧ (is_Some acc.1.1.2 → (acc.1.1.1 < g0)%Qc))) in Hacc.
    - simpl in Hacc. by destruct Hacc as (? & _ & ?).
    - simpl. split_and!; [done|apply Qcle_refl|by intros [? ?]].
    - intros [[[bg1 bn1] est1] dist1] n [[[bg2 bn2] est2] dist2]
        (Hl & Hle & Hlt) Hstep. simpl in *.
      bind_inv Hstep as t Ht. destruct t as [[goal est'] dist'].
      apply trial_length in Ht.
      case_decide as Hg; injection Hstep as <- <- <- <-; simpl.
      + split_and!; [congruence|apply Qclt_le_weak; by eapply Qclt_le_trans|].
        intros _. by eapply Qclt_le_trans.
      + split_and!; [congruence|done|done]. }
  destruct bn as [b|].
  - bind_inv H as est1 Hest1. bind_inv H as mk Hmk. bind_inv H as l Hl.
    bind_inv H as l' Hl'. injection H as _ <-.
    apply array_set_length in Hest1.
    eapply descends_snoc; [congruence|done|]. by apply Hbg.
  - injection H as _ <-. by apply descends_same.
Qed.

Lemma scan_descends fuel ss dens tmp_res prm g0 :
  ∀ pos tmp best improved est dist tmp' best' improved' est' dist',
    pgrav3d.scan jacobian m mmi power fuel ss dens tmp_res prm pos tmp best
      improved est dist = Ok (tmp', best', improved', est', dist') →
    (best.1 ≤ g0)%Qc → (is_Some best.2 → (best.1 < g0)%Qc) →
    length est' = length est
    ∧ (best'.1 ≤ g0)%Qc ∧ (is_Some best'.2 → (best'.1 < g0)%Qc).
Proof.
  induction fuel as [|fuel IH];
    intros pos tmp best improved est dist tmp' best' improved' est' dist' H
      Hle Hlt; simpl in H; destruct (tmp !! pos) as [n|];
    try (injection H as <- <- <- <- <-; done); [discriminate|].
  bind_inv H as t Ht. destruct t as [[goal est1] dist1].
  apply trial_length in Ht.
  case_decide as Hg; apply IH in H as (Hl & H1 & H2); simpl.
  - split_and!; [congruence|done|done].
  - apply Qclt_le_weak. by eapply Qclt_le_trans.
  - intros _. by eapply Qclt_le_trans.
  - split_and!; [congruence|done|done].
  - done.
  - done.
Qed.

Lemma rearrange_param_descends fuel i st sd g0 acc prm acc' :
  pgrav3d.rearrange_param jacobian m mmi power fuel i st sd acc prm = Ok acc' →
  length acc.1.2 = length (pgrav3d.estimate st)
  ∧ (acc.1.1.1.1 ≤ g0)%Qc ∧ (is_Some acc.1.1.1.2 → (acc.1.1.1.1 < g0)%Qc) →
  length acc'.1.2 = length (pgrav3d.estimate st)
  ∧ (acc'.1.1.1.1 ≤ g0)%Qc ∧ (is_Some acc'.1.1.1.2 → (acc'.1.1.1.1 < g0)%Qc).
Proof.
  unfold pgrav3d.rearrange_param.
  destruct acc as [[[[bg bp] best_nbrs] est] dist]. simpl.
  intros H (Hl & Hle & Hlt).
  bind_inv H as pn Hpn. destruct pn as [|p0 pn]; [by injection H as <-|].
  bind_inv H as tmp Htmp. bind_inv H as est1 Hest1.
  bind_inv H as sc Hsc. destruct sc as [[[[tmp' best'] improved] est2] dist2].
  bind_inv H as est3 Hest3. injection H as <-. simpl.
  apply array_set_length in Hest1, Hest3.
  apply (scan_descends _ _ _ _ _ g0) in Hsc as (Hl2 & H1 & H2); [|done|done].
  split_and!; [congruence|done|done].
Qed.

Lemma try_rearrange_descends fuel i st f st' :
  pgrav3d.try_rearrange jacobian m mmi power fuel i st = Ok (f, st') →
  descends st st'.
Proof.
  unfold pgrav3d.try_rearrange. intros H.
  bind_inv H as sd Hsd. bind_inv H as g0 Hg0. apply py_last_Ok in Hg0.
  bind_inv H as mk Hmk.
  bind_inv H as acc Hacc. destruct acc as [[[[bg bp] best_nbrs] est] dist].
  assert (length est = length (pgrav3d.estimate st)
          ∧ (is_Some bp → (bg < g0)%Qc)) as [Hlen Hbg].
  { apply (foldlM_run
             (λ acc : Qc * option (Z * Z) * option (list Z) * list Qc
                      * option (list Qc),
                length acc.1.2 = length (pgrav3d.estimate st)
                ∧ (acc.1.1.1.1 ≤ g0)%Qc
                ∧ (is_Some acc.1.1.1.2 → (acc.1.1.1.1 < g0)%Qc))) in Hacc.
    - simpl in Hacc. by destruct Hacc as (? & _ & ?).
    - simpl. split_and!; [done|apply Qcle_refl|by intros [? ?]].
    - intros a1 prm a2 Ha1 Hstep. by eapply rearrange_param_descends. }
  destruct bp as [[best_param param_to_remove]|].
  - bind_inv H as est1 Hest1. bind_inv H as est2 Hest2.
    bind_inv H as mk1 Hmk1. bind_inv H as nb Hnb. bind_inv H as l Hl.
    bind_inv H as l' Hl'. injection H as _ <-.
    apply array_set_length in Hest1, Hest2.
    eapply descends_snoc; [congruence|done|]. by apply Hbg.
  - injection H as _ <-. by apply descends_same.
Qed.

Lemma pass_descends body ps flag st f st' :
  (∀ i st f st', body i st = Ok (f, st') → descends st st') →
  pgrav3d.pass body ps flag st = Ok (f, st') → descends st st'.
Proof.
  intros Hb. revert flag st.
  induction ps as [|i ps IH]; intros flag st H; simpl in H.
  - injection H as _ <-. apply descends_refl.
  - bind_inv H as r Hr. destruct r as [f1 st1].
    eapply descends_trans; [by eapply Hb|by eapply IH].
Qed.

Lemma iterations_descends count fuel av st st' :
  pgrav3d.iterations jacobian m mmi power count fuel av st = Ok st' →
  descends st st'.
Proof.
  revert st. induction count as [|count IH]; intros st H; simpl in H.
  - injection H as <-. apply descends_refl.
  - bind_inv H as r1 H1. destruct r1 as [grew st1].
    apply (pass_descends _ _ _ _ _ _ try_grow_descends) in H1.
    bind_inv H as r2 H2. destruct r2 as [go_on st2].
    assert (descends st1 st2) as H12.
    { destruct grew.
      - injection H2 as _ <-. apply descends_refl.
      - by apply (pass_descends _ _ _ _ _ _ (try_rearrange_descends fuel)) in H2. }
    assert (descends st st2) as H02 by (by eapply descends_trans).
    destruct (negb go_on); [by injection H as <-|].
    bind_inv H as g Hg. destruct (_ && _); [by injection H as <-|].
    eapply descends_trans; [done|by apply IH].
Qed.

End Descent.

(** When [grow] returns, the estimate has one entry for every cell of the
    mesh, and the goals it returns start with the goal of the seeds alone and
    decrease strictly from each to the next: a growth or a rearrangement is
    kept only when it brings the goal below the last one recorded. *)
Theorem grow_goals_decrease jacobian data_vector m mmi power fuel keys ss av d0
    (est gs : list Qc) :
  pgrav3d.grow jacobian data_vector m mmi power fuel keys ss av d0
    = Ok (est, gs) →
  length est = Z.to_nat (pgrav3d.size m)
  ∧ (∃ g0 rest, gs = g0 :: rest)
  ∧ strictly_decreasing gs.
Proof.
  unfold pgrav3d.grow, pgrav3d.grow_state, pgrav3d.prepare. intros H.
  bind_inv H as st Hst. injection H as <- <-.
  bind_inv Hst as pr Hpr. destruct pr as [est0 ss2].
  destruct (negb _); [discriminate|].
  bind_inv Hpr as est1 Hm. bind_inv Hpr as ss1 Hc. bind_inv Hpr as ss3 Hr.
  injection Hpr as <- <-.
  bind_inv Hst as rd Hrd. destruct rd as [reg dist].
  apply iterations_descends in Hst as [Hl (more & Hg & Hd)]. simpl in *.
  assert (length est1 = Z.to_nat (pgrav3d.size m)) as Hlen.
  { revert Hm. unfold pgrav3d.mark_seeds.
    apply (foldlM_invariant (λ e, length e = Z.to_nat (pgrav3d.size m)));
      [apply length_replicate|].
    intros e s e' He _ Hs. apply array_set_length in Hs. congruence. }
  split; [congruence|]. rewrite Hg. split; [eauto|].
  apply Hd. intros k a b Ha Hb. destruct k; discriminate.
Qed.

Lemma grow_goals_decrease_witness :
  ∃ est gs,
    pgrav3d.grow unit_jacobian [Qc_of_Z 6] (flat_mesh 1 5) 0%Qc 5 10
      ["gz"%string] row_seeds_far 1%Qc None = Ok (est, gs)
    ∧ length est = 5%nat ∧ length gs = 3%nat ∧ strictly_decreasing gs.
Proof.
  destruct (pgrav3d.grow unit_jacobian [Qc_of_Z 6] (flat_mesh 1 5) 0%Qc 5 10
              ["gz"%string] row_seeds_far 1%Qc None) as [e|[est gs]] eqn:H;
    [vm_compute in H; discriminate|].
  exists est, gs. split; [done|].
  destruct (grow_goals_decrease _ _ _ _ _ _ _ _ _ _ est gs H) as (Hl & _ & Hd).
  split; [exact Hl|]. split; [|exact Hd].
  vm_compute in H. by injection H as _ <-.
Defined.

(** * The cells around a cell *)

(** Every cell of a grid with rows and columns has coordinates. *)
Lemma coords_exist (nz ny nx p : Z) :
  0 < nx → 0 < ny → 0 ≤ p < nz * ny * nx →
  ∃ i j k, p = nx * ny * k + nx * j + i ∧ 0 ≤ i < nx ∧ 0 ≤ j < ny ∧ 0 ≤ k < nz.
Proof.
  intros Hx Hy Hp.
  exists (p `mod` nx), ((p / nx) `mod` ny), (p / nx / ny).
  pose proof (Z.div_mod p nx ltac:(lia)) as H1.
  pose proof (Z.div_mod (p / nx) ny ltac:(lia)) as H2.
  pose proof (Z.mod_pos_bound p nx Hx) as H3.
  pose proof (Z.mod_pos_bound (p / nx) ny Hy) as H4.
  split; [nia|]. split; [lia|]. split; [lia|].
  assert (0 ≤ p / nx) by (apply Z.div_pos; lia).
  assert (0 ≤ p / nx / ny) by (apply Z.div_pos; lia).
  split; [lia|].
  apply Z.div_lt_upper_bound; [lia|].
  apply Z.div_lt_upper_bound; [lia|]. nia.
Qed.

(** The remainders that the tests of the source take, in coordinates. *)
Lemma mod_coords (nx ny i j k : Z) :
  0 ≤ i < nx → 0 ≤ j < ny →
  (nx * ny * k + nx * j + i) `mod` nx = i
  ∧ (nx * ny * k + nx * j + i) `mod` (nx * ny) = nx * j + i.
Proof.
  intros Hi Hj. split; symmetry.
  - apply (Zmod_unique _ nx (ny * k + j) i); [lia|ring].
  - apply (Zmod_unique _ (nx * ny) k (nx * j + i)); [nia|ring].
Qed.

Ltac split_member H :=
  repeat match type of H with _ ∨ _ => destruct H as [H|H] end.

(** The indexes that [_find_neighbors] computes for a cell of the grid,
    before the masked cells are dropped, are cells around it. *)
Lemma neighbor_indexes_adjacent (m : PrismMesh) (n c : Z) (up down : bool)
    (nz ny nx : Z) :
  shape m = (nz, ny, nx) → 0 < nx → 0 < ny → 0 ≤ n < nz * ny * nx →
  Some c ∈ face_indexes m n up down ++ diagonal_indexes m n up down →
  adjacent (nz, ny, nx) n c.
Proof.
  intros Hs Hx Hy Hn.
  destruct (coords_exist nz ny nx n Hx Hy Hn) as (i & j & k & -> & Hi & Hj & Hk).
  destruct (mod_coords nx ny i j k Hi Hj) as [Hm1 Hm2].
  unfold diagonal_indexes, face_indexes, size. rewrite Hs, Hm1, Hm2.
  clear Hm1 Hm2 Hn. intros Hc.
  assert (∀ di dj dk, c = nx * ny * (k + dk) + nx * (j + dj) + (i + di) →
            0 ≤ i + di < nx → 0 ≤ j + dj < ny → 0 ≤ k + dk < nz →
            -1 ≤ di ≤ 1 → -1 ≤ dj ≤ 1 → -1 ≤ dk ≤ 1 →
            (di ≠ 0 ∨ dj ≠ 0 ∨ dk ≠ 0) →
            adjacent (nz, ny, nx) (nx * ny * k + nx * j + i) c) as Hadj.
  { intros di dj dk ? ? ? ? ? ? ? ?. exists i, j, k, di, dj, dk.
    split_and!; lia || done. }
  assert (nx * ny * k + nx * j + i - nx * ny > 0 → 1 ≤ k) as Ha by nia.
  assert (nx * ny * k + nx * j + i + nx * ny < nz * ny * nx → k + 1 < nz)
    as Hb by nia.
  assert (nx * j + i < nx * (ny - 1) → j + 1 < ny) as Hl by nia.
  assert (nx ≤ nx * j + i → 1 ≤ j) as Hr by nia.
  cbv zeta in Hc.
  rewrite ?elem_of_app, ?elem_of_cons, ?elem_of_nil in Hc.
  split_member Hc; try done;
    destruct up, down; simpl in Hc; try done;
    repeat case_bool_decide; simpl in Hc; unfold both, all3 in Hc; simpl in Hc;
    rewrite ?elem_of_cons, ?elem_of_nil in Hc;
    split_member Hc; try done; injection Hc as ->;
    try (specialize (Ha ltac:(assumption)));
    try (specialize (Hb ltac:(assumption)));
    try (specialize (Hl ltac:(assumption)));
    try (specialize (Hr ltac:(assumption)));
    first
    [ apply (Hadj (-1) (-1) (-1)); [ring|lia..] |
      apply (Hadj (0) (-1) (-1)); [ring|lia..] |
      apply (Hadj (1) (-1) (-1)); [ring|lia..] |
      apply (Hadj (-1) (0) (-1)); [ring|lia..] |
      apply (Hadj (0) (0) (-1)); [ring|lia..] |
      apply (Hadj (1) (0) (-1)); [ring|lia..] |
      apply (Hadj (-1) (1) (-1)); [ring|lia..] |
      apply (Hadj (0) (1) (-1)); [ring|lia..] |
      apply (Hadj (1) (1) (-1)); [ring|lia..] |
      apply (Hadj (-1) (-1) (0)); [ring|lia..] |
      apply (Hadj (0) (-1) (0)); [ring|lia..] |
      apply (Hadj (1) (-1) (0)); [ring|lia..] |
      apply (Hadj (-1) (0) (0)); [ring|lia..] |
      apply (Hadj (1) (0) (0)); [ring|lia..] |
      apply (Hadj (-1) (1) (0)); [ring|lia..] |
      apply (Hadj (0) (1) (0)); [ring|lia..] |
      apply (Hadj (1) (1) (0)); [ring|lia..] |
      apply (Hadj (-1) (-1) (1)); [ring|lia..] |
      apply (Hadj (0) (-1) (1)); [ring|lia..] |
      apply (Hadj (1) (-1) (1)); [ring|lia..] |
      apply (Hadj (-1) (0) (1)); [ring|lia..] |
      apply (Hadj (0) (0) (1)); [ring|lia..] |
      apply (Hadj (1) (0) (1)); [ring|lia..] |
      apply (Hadj (-1) (1) (1)); [ring|lia..] |
      apply (Hadj (0) (1) (1)); [ring|lia..] |
      apply (Hadj (1) (1) (1)); [ring|lia..] ].
Qed.

Lemma face_indexes_adjacent (m : PrismMesh) (n c : Z) (up down : bool)
    (nz ny nx : Z) :
  shape m = (nz, ny, nx) → 0 < nx → 0 < ny → 0 ≤ n < nz * ny * nx →
  Some c ∈ face_indexes m n up down →
  face_adjacent (nz, ny, nx) n c.
Proof.
  intros Hs Hx Hy Hn.
  destruct (coords_exist nz ny nx n Hx Hy Hn) as (i & j & k & -> & Hi & Hj & Hk).
  destruct (mod_coords nx ny i j k Hi Hj) as [Hm1 Hm2].
  unfold face_indexes, size. rewrite Hs, Hm1, Hm2.
  clear Hm1 Hm2 Hn. intros Hc.
  assert (∀ di dj dk, c = nx * ny * (k + dk) + nx * (j + dj) + (i + di) →
            0 ≤ i + di < nx → 0 ≤ j + dj < ny → 0 ≤ k + dk < nz →
            Z.abs di + Z.abs dj + Z.abs dk = 1 →
            face_adjacent (nz, ny, nx) (nx * ny * k + nx * j + i) c) as Hadj.
  { intros di dj dk ? ? ? ? ?. exists i, j, k, di, dj, dk.
    split_and!; lia || done. }
  assert (nx * ny * k + nx * j + i - nx * ny > 0 → 1 ≤ k) as Ha by nia.
  assert (nx * ny * k + nx * j + i + nx * ny < nz * ny * nx → k + 1 < nz)
    as Hb by nia.
  assert (nx * j + i < nx * (ny - 1) → j + 1 < ny) as Hl by nia.
  assert (nx ≤ nx * j + i → 1 ≤ j) as Hr by nia.
  cbv zeta in Hc.
  rewrite ?elem_of_cons, ?elem_of_nil in Hc.
  split_member Hc; try done;
    destruct up, down; simpl in Hc; try done;
    repeat case_bool_decide; try done; injection Hc as ->;
    try (specialize (Ha ltac:(assumption)));
    try (specialize (Hb ltac:(assumption)));
    try (specialize (Hl ltac:(assumption)));
    try (specialize (Hr ltac:(assumption)));
    first
    [ apply (Hadj (0) (0) (-1)); [ring|lia..] |
      apply (Hadj (0) (-1) (0)); [ring|lia..] |
      apply (Hadj (-1) (0) (0)); [ring|lia..] |
      apply (Hadj (1) (0) (0)); [ring|lia..] |
      apply (Hadj (0) (1) (0)); [ring|lia..] |
      apply (Hadj (0) (0) (1)); [ring|lia..] ].
Qed.

Lemma adjacent_range (nz ny nx p c : Z) :
  adjacent (nz, ny, nx) p c → 0 ≤ c < nz * ny * nx ∧ c ≠ p.
Proof.
  intros (i & j & k & di & dj & dk & -> & -> & Hi & Hj & Hk & Hi' & Hj' & Hk'
          & Hdi & Hdj & Hdk & Hne).
  assert (0 < nx ∧ 0 < ny) as [Hx Hy] by lia.
  split.
  - assert (0 ≤ nx * (j + dj) ≤ nx * (ny - 1)) by nia.
    assert (0 ≤ nx * ny * (k + dk) ≤ nx * ny * (nz - 1)) by nia.
    nia.
  - intros Heq.
    assert (nx * ny * dk + (nx * dj + di) = 0) as H0 by lia.
    clear Heq.
    assert (di = -1 ∨ di = 0 ∨ di = 1) as [->|[->| ->]] by lia;
    assert (dj = -1 ∨ dj = 0 ∨ dj = 1) as [->|[->| ->]] by lia;
    assert (dk = -1 ∨ dk = 0 ∨ dk = 1) as [->|[->| ->]] by lia;
    try lia; nia.
Qed.

Lemma face_adjacent_adjacent (sh : Z * Z * Z) (p c : Z) :
  face_adjacent sh p c → adjacent sh p c.
Proof.
  destruct sh as [[nz ny] nx].
  intros (i & j & k & di & dj & dk & H).
  exists i, j, k, di, dj, dk. split_and!; try (apply H); lia.
Qed.

Lemma foldlM_total {A B} (P : B → Prop) (f : B → A → result B) (l : list A)
    (b : B) :
  P b → (∀ b a, a ∈ l → P b → ∃ b', f b a = Ok b' ∧ P b') →
  ∃ r, foldlM f b l = Ok r ∧ P r.
Proof.
  revert b. induction l as [|a l IH]; intros b Hb Hstep; simpl; [eauto|].
  destruct (Hstep b a) as (b' & -> & Hb'); [left|done|]. simpl.
  apply IH; [done|]. intros b0 a0 Ha0. apply Hstep. by right.
Qed.

Lemma unmasked_total (m : PrismMesh) (l : list (option Z)) :
  (∀ c, Some c ∈ l → 0 ≤ c < size m) →
  ∃ r, unmasked m l = Ok r
       ∧ ∀ c, c ∈ r → Some c ∈ l ∧ is_Some (cells m !! c).
Proof.
  induction l as [|[i|] l IH]; intros Hl; simpl.
  - exists []. split; [done|]. intros c Hc. by apply elem_of_nil in Hc.
  - destruct IH as (r & -> & Hr); [intros c Hc; apply Hl; by right|].
    unfold mesh_getitem. rewrite bool_decide_eq_true_2 by (apply Hl; left).
    simpl. destruct (cells m !! i) as [cell|] eqn:Hi; eexists; split; try done.
    + intros c Hc. apply elem_of_cons in Hc as [->|Hc].
      * split; [left|by rewrite Hi].
      * destruct (Hr c Hc). split; [by right|done].
    + intros c Hc. destruct (Hr c Hc). split; [by right|done].
  - destruct IH as (r & -> & Hr); [intros c Hc; apply Hl; by right|].
    exists r. split; [done|]. intros c Hc. destruct (Hr c Hc).
    split; [by right|done].
Qed.

Lemma find_neighbors_grid (m : PrismMesh) (n : Z) (full up down : bool) :
  well_shaped (shape m) → 0 ≤ n < size m →
  ∃ found, _find_neighbors m n full up down = Ok found
    ∧ ∀ c, c ∈ found →
        adjacent (shape m) n c ∧ is_Some (cells m !! c)
        ∧ (full = false → face_adjacent (shape m) n c).
Proof.
  unfold well_shaped, _find_neighbors, size.
  destruct (shape m) as [[nz ny] nx] eqn:Hs. intros [Hx Hy] Hn.
  assert (∀ c, Some c ∈ face_indexes m n up down ++
                 (if full then diagonal_indexes m n up down else []) →
            adjacent (nz, ny, nx) n c
            ∧ (full = false → face_adjacent (nz, ny, nx) n c)) as Hadj.
  { intros c Hc. destruct full.
    - split; [by eapply neighbor_indexes_adjacent|done].
    - rewrite app_nil_r in Hc.
      pose proof (face_indexes_adjacent m n c up down nz ny nx Hs Hx Hy Hn Hc).
      split; [by apply face_adjacent_adjacent|done]. }
  destruct (unmasked_total m (face_indexes m n up down ++
              (if full then diagonal_indexes m n up down else [])))
    as (r & Hr & Hin).
  { intros c Hc. unfold size. rewrite Hs.
    apply Hadj in Hc as [Hc _]. by apply adjacent_range in Hc as [? _]. }
  exists r. split; [done|]. intros c Hc. destruct (Hin c Hc) as [Hc' Hcell].
  destruct (Hadj c Hc'). done.
Qed.

(** On a grid with rows and columns, [_find_neighbors] raises nothing for a
    cell of the grid, whatever its flags, and every cell it returns is a cell
    of the grid around the given one that is not masked; without [full] it
    shares a face with the given one. *)
Theorem find_neighbors_adjacent (m : PrismMesh) (n : Z) (full up down : bool) :
  well_shaped (shape m) → 0 ≤ n < size m →
  ∃ found, _find_neighbors m n full up down = Ok found
    ∧ ∀ c, c ∈ found →
        adjacent (shape m) n c ∧ is_Some (cells m !! c)
        ∧ (full = false → face_adjacent (shape m) n c).
Proof. apply find_neighbors_grid. Qed.

Lemma find_neighbors_adjacent_witness :
  ∃ found, _find_neighbors (row_mesh 3) 1 true true true = Ok found
    ∧ ∀ c, c ∈ found →
        adjacent (1, 1, 3) 1 c ∧ is_Some (cells (row_mesh 3) !! c)
        ∧ (true = false → face_adjacent (1, 1, 3) 1 c).
Proof.
  apply (find_neighbors_adjacent (row_mesh 3) 1 true true true).
  - vm_compute. split; reflexivity.
  - vm_compute. split; [discriminate|reflexivity].
Defined.

(** The candidates of the matrix solver are those of the growth solver. *)
Lemma candidates_faces (m : PrismMesh) (p : Z) :
  pgrav3d.candidates (shape m) (size m) p
  = face_indexes m p true true ++ diagonal_indexes m p true true.
Proof.
  unfold pgrav3d.candidates, diagonal_indexes, face_indexes.
  destruct (shape m) as [[nz ny] nx]. reflexivity.
Qed.

Lemma candidates_adjacent (nz ny nx p c : Z) :
  0 < nx → 0 < ny → 0 ≤ p < nz * ny * nx →
  Some c ∈ pgrav3d.candidates (nz, ny, nx) (nz * ny * nx) p →
  adjacent (nz, ny, nx) p c.
Proof.
  intros Hx Hy Hp Hc.
  set (m0 := mkMesh (nz, ny, nx) (0%Qc, 0%Qc, 0%Qc) ∅).
  change (Some c ∈ pgrav3d.candidates (shape m0) (size m0) p) in Hc.
  rewrite candidates_faces in Hc.
  by apply (neighbor_indexes_adjacent m0 p c true true nz ny nx).
Qed.

Lemma array_get_Ok (est : list Qc) (n : Z) :
  0 ≤ n < Z.of_nat (length est) → ∃ v, pgrav3d.array_get est n = Ok v.
Proof.
  intros Hn. unfold pgrav3d.array_get, pgrav3d.np_index.
  rewrite bool_decide_eq_true_2 by done.
  destruct (lookup_lt_is_Some_2 est (Z.to_nat n)) as [v Hv]; [lia|].
  exists v. by apply list_getitem_Ok.
Qed.

Lemma add_neighbors_grid (p : Z) (nbrs : list Z) (al : bool)
    (others : list (list Z)) (m : pgrav3d.Mesh) (est : list Qc) :
  well_shaped (pgrav3d.shape m) → 0 ≤ p < pgrav3d.size m →
  length est = Z.to_nat (pgrav3d.size m) →
  ∃ new, pgrav3d._add_neighbors p nbrs al others m est = Ok (nbrs ++ new)
    ∧ ∀ c, c ∈ new → adjacent (pgrav3d.shape m) p c ∧ 0 ≤ c < pgrav3d.size m.
Proof.
  unfold well_shaped, pgrav3d._add_neighbors, pgrav3d.size.
  destruct (pgrav3d.shape m) as [[nz ny] nx] eqn:Hs. intros [Hx Hy] Hp Hlen.
  destruct (foldlM_total
              (λ acc, ∃ new, acc = nbrs ++ new
                 ∧ ∀ c, c ∈ new → adjacent (nz, ny, nx) p c
                                   ∧ 0 ≤ c < nz * ny * nx)
              (λ (acc : list Z) (slot : option Z),
                 match slot with
                 | None => Ok acc
                 | Some n =>
                     pgrav3d.is_free ((if al then [acc] else []) ++ others) est n
                       ≫= λ free : bool, Ok (if free then acc ++ [n] else acc)
                 end)
              (pgrav3d.candidates (nz, ny, nx) (nz * ny * nx) p) nbrs)
    as (r & Hr & new & -> & Hnew).
  - exists []. rewrite app_nil_r. split; [done|].
    intros c Hc. by apply elem_of_nil in Hc.
  - intros acc slot Hslot (new & -> & Hnew).
    destruct slot as [n|]; [|exists (nbrs ++ new); eauto].
    pose proof (candidates_adjacent nz ny nx p n Hx Hy Hp Hslot) as Hadj.
    pose proof (adjacent_range _ _ _ _ _ Hadj) as [Hrange _].
    destruct (array_get_Ok est n) as [v Hv]; [lia|].
    unfold pgrav3d.is_free. rewrite Hv.
    destruct (forallb _ _); simpl; [|exists (nbrs ++ new); eauto].
    case_bool_decide; [|exists (nbrs ++ new); eauto].
    exists ((nbrs ++ new) ++ [n]). split; [done|].
    exists (new ++ [n]). rewrite app_assoc. split; [done|].
    intros c Hc. apply elem_of_app in Hc as [Hc|Hc]; [by apply Hnew|].
    by apply list_elem_of_singleton in Hc as ->.
  - exists new. done.
Qed.

(** On a grid with rows and columns and an estimate with one entry for every
    cell, [_add_neighbors] raises nothing for a cell of the grid, keeps the
    list it is given, and appends only cells of the grid around that cell. *)
Theorem add_neighbors_on_grid (p : Z) (nbrs : list Z) (al : bool)
    (others : list (list Z)) (m : pgrav3d.Mesh) (est : list Qc) :
  well_shaped (pgrav3d.shape m) → 0 ≤ p < pgrav3d.size m →
  length est = Z.to_nat (pgrav3d.size m) →
  ∃ new, pgrav3d._add_neighbors p nbrs al others m est = Ok (nbrs ++ new)
    ∧ ∀ c, c ∈ new → adjacent (pgrav3d.shape m) p c ∧ 0 ≤ c < pgrav3d.size m.
Proof. apply add_neighbors_grid. Qed.

Lemma add_neighbors_on_grid_witness :
  ∃ new, pgrav3d._add_neighbors 5 [] true [] (flat_mesh 2 4)
           (Qc_of_Z <$> [1; 0; 2; 0; 1; 0; 0; 2]) = Ok ([] ++ new)
    ∧ ∀ c, c ∈ new → adjacent (1, 2, 4) 5 c ∧ 0 ≤ c < 8.
Proof.
  apply (add_neighbors_on_grid 5 [] true [] (flat_mesh 2 4)
           (Qc_of_Z <$> [1; 0; 2; 0; 1; 0; 0; 2])).
  - vm_compute. split; reflexivity.
  - vm_compute. split; [discriminate|reflexivity].
  - reflexivity.
Defined.

(** * The preparation of the matrix solver on seeds of [get_seed] *)

Lemma array_set_Ok (est : list Qc) (n : Z) (v : Qc) :
  0 ≤ n < Z.of_nat (length est) → ∃ est', pgrav3d.array_set est n v = Ok est'.
Proof.
  intros Hn. unfold pgrav3d.array_set, pgrav3d.np_index.
  rewrite bool_decide_eq_true_2 by done. eauto.
Qed.

Lemma mark_seeds_total (est : list Qc) (ss : list pgrav3d.Seed) :
  (∀ s, s ∈ ss → 0 ≤ pgrav3d.param s < Z.of_nat (length est)) →
  ∃ est', pgrav3d.mark_seeds est ss = Ok est' ∧ length est' = length est.
Proof.
  intros Hss. unfold pgrav3d.mark_seeds.
  apply (foldlM_total (λ e, length e = length est)); [done|].
  intros e s Hs He.
  destruct (array_set_Ok e (pgrav3d.param s) (pgrav3d.density s)) as [e' He'].
  { rewrite He. by apply Hss. }
  exists e'. split; [done|]. apply array_set_length in He'. congruence.
Qed.

Lemma collect_total (ss : list pgrav3d.Seed) (m : pgrav3d.Mesh)
    (est : list Qc) :
  well_shaped (pgrav3d.shape m) → length est = Z.to_nat (pgrav3d.size m) →
  (∀ s, s ∈ ss → 0 ≤ pgrav3d.param s < pgrav3d.size m) →
  ∃ ss1, pgrav3d.collect ss m est = Ok ss1.
Proof.
  intros Hw Hlen Hss. unfold pgrav3d.collect.
  destruct (foldlM_total
              (λ ss1, length ss1 = length ss
                      ∧ ∀ s, s ∈ ss1 → 0 ≤ pgrav3d.param s < pgrav3d.size m)
              (λ ss0 i,
                 s ← list_getitem ss0 i;
                 l ← pgrav3d._add_neighbors (pgrav3d.param s)
                       (pgrav3d.neighbors s) true [] m est;
                 Ok (<[i := pgrav3d.set_neighbors l s]> ss0))
              (seq 0 (length ss)) ss) as (r & Hr & _); [done| |by exists r].
  intros ss0 i Hi [Hl Hp]. apply elem_of_seq in Hi.
  destruct (lookup_lt_is_Some_2 ss0 i ltac:(lia)) as [s Hs].
  unfold list_getitem. rewrite Hs. simpl.
  destruct (add_neighbors_grid (pgrav3d.param s) (pgrav3d.neighbors s) true []
              m est Hw) as (new & -> & _); [|done|].
  { apply Hp. by eapply list_elem_of_lookup_2. }
  simpl. eexists. split; [reflexivity|]. split; [by rewrite length_insert|].
  intros s' Hs'. apply list_elem_of_lookup in Hs' as [k Hk].
  destruct (decide (k = i)) as [->|Hne].
  - rewrite list_lookup_insert_eq in Hk by lia. injection Hk as <-. simpl.
    apply Hp. by eapply list_elem_of_lookup_2.
  - rewrite list_lookup_insert_ne in Hk by done.
    apply Hp. by eapply list_elem_of_lookup_2.
Qed.

(** For a mesh with rows and columns that has as many cells as its shape
    says, data with known components only, and seeds that [get_seed] made
    from that mesh, the preparation of [grow] either returns, with an
    estimate of one entry for every cell, or fails with the seeds-too-close
    failure: no index or value error escapes from it. *)
Theorem prepare_get_seed (m : pgrav3d.Mesh) (keys : list string)
    (ss : list pgrav3d.Seed) :
  well_shaped (pgrav3d.shape m) →
  length (pgrav3d.ravel m) = Z.to_nat (pgrav3d.size m) →
  Forall (λ k, k ∈ ["gz"; "gxx"; "gxy"; "gxz"; "gyy"; "gyz"; "gzz"]%string)
         keys →
  Forall (λ s, ∃ pt d, pgrav3d.get_seed pt d m = Ok s) ss →
  (∃ est ss2, pgrav3d.prepare m keys ss = Ok (est, ss2)
              ∧ length est = Z.to_nat (pgrav3d.size m)
              ∧ length ss2 = length ss)
  ∨ (∃ i j, pgrav3d.prepare m keys ss = Raise (SeedsTooClose i j)).
Proof.
  intros Hw Hlen Hkeys Hss. unfold pgrav3d.prepare.
  assert (forallb (λ k, bool_decide
                     (k ∈ ["gz"; "gxx"; "gxy"; "gxz"; "gyy"; "gyz"; "gzz"]%string))
                  keys = true) as ->.
  { apply forallb_forall. intros k Hk. apply bool_decide_eq_true.
    rewrite Forall_forall in Hkeys. by apply Hkeys, list_elem_of_In. }
  simpl.
  assert (∀ s, s ∈ ss → 0 ≤ pgrav3d.param s < pgrav3d.size m) as Hparam.
  { intros s Hs. rewrite Forall_forall in Hss.
    destruct (Hss s Hs) as (pt & d & Hg). apply get_seed_param in Hg. lia. }
  destruct (mark_seeds_total (replicate (Z.to_nat (pgrav3d.size m)) 0%Qc) ss)
    as (est & -> & Hl).
  { intros s Hs. rewrite length_replicate. specialize (Hparam s Hs). lia. }
  rewrite length_replicate in Hl. simpl.
  destruct (collect_total ss m est Hw Hl Hparam) as [ss1 Hc].
  rewrite Hc. simpl.
  assert (length ss1 = length ss) as Hl1.
  { revert Hc. unfold pgrav3d.collect.
    apply (foldlM_invariant (λ ss0, length ss0 = length ss)); [done|].
    intros ss0 i ss0' H0 _ Hstep. bind_inv Hstep as s Hs.
    bind_inv Hstep as l Hl'. injection Hstep as <-.
    by rewrite length_insert. }
  destruct (pgrav3d.resolve ss1) as [e|ss2] eqn:Hr; simpl.
  - right. apply resolve_errors in Hr as (a & b & ->). eauto.
  - left. exists est, ss2. split; [done|]. split; [done|].
    apply resolve_Ok in Hr as [Hl2 _]. congruence.
Qed.

Lemma prepare_get_seed_witness :
  (∃ est ss2, pgrav3d.prepare (flat_mesh 1 5) ["gz"%string] row_seeds_far
                = Ok (est, ss2)
              ∧ length est = Z.to_nat (pgrav3d.size (flat_mesh 1 5))
              ∧ length ss2 = length row_seeds_far)
  ∨ (∃ i j, pgrav3d.prepare (flat_mesh 1 5) ["gz"%string] row_seeds_far
              = Raise (SeedsTooClose i j)).
Proof.
  apply (prepare_get_seed (flat_mesh 1 5) ["gz"%string] row_seeds_far).
  - vm_compute. split; reflexivity.
  - reflexivity.
  - repeat constructor.
  - repeat constructor.
    + exists (Q2Qc (1 # 2), Q2Qc (1 # 2), Q2Qc (1 # 2)), (Qc_of_Z 1).
      vm_compute. reflexivity.
    + exists (Q2Qc (9 # 2), Q2Qc (1 # 2), Q2Qc (1 # 2)), (Qc_of_Z 2).
      vm_compute. reflexivity.
Defined.

(** * The helpers that make the data modules and the seeds *)

(** ** [wrapdata] *)




(** ** [sow] *)

Lemma SeedPrism_init_fresh (i : Z) (p : gmap string Qc) (m : PrismMesh)
    (mu_ delta_ : Qc) (r : bool) :
  let s := SeedPrism_init i p m mu_ delta_ r in
  props s = p ∧ index s = i ∧ estimate s = [i] ∧ neighbors s = []
  ∧ delta s = delta_ ∧ reldist s = r ∧ kind s = "prism"%string.
Proof.
  unfold SeedPrism_init. destruct (shape m) as [[nz ny] nx].
  by destruct (dims m) as [[dx dy] dz].
Qed.

Lemma _get_index_Ok bounds xs ys zs mesh_at (point : Qc * Qc * Qc)
    (m : PrismMesh) (s : Z) :
  _get_index bounds xs ys zs mesh_at point m = Ok s →
  ∃ c, mesh_at m s = Ok (Some c).
Proof.
  unfold _get_index.
  destruct (bounds m) as [[[[[bx1 bx2] by1] by2] bz1] bz2].
  destruct (shape m) as [[nz ny] nx] eqn:Hs. destruct point as [[x y] z].
  destruct (bool_decide _); [|discriminate]. intros H.
  bind_inv H as c Hc. destruct c as [c|]; [|discriminate].
  injection H as <-. by exists c.
Qed.

Lemma props_at_keys (ps : gmap string (list Qc)) (i : nat)
    (sp : gmap string Qc) :
  props_at ps i = Ok sp → ∀ p, is_Some (sp !! p) ↔ is_Some (ps !! p).
Proof.
  unfold props_at. intros H. bind_inv H as l Hl. injection H as <-.
  apply mapM_Ok in Hl.
  assert (l.*1 = (map_to_list ps).*1) as Hkeys.
  { clear -Hl. induction Hl as [|[p lst] [p' v] ? ? Hxy ? IH]; [done|].
    simpl in Hxy. bind_inv Hxy as v0 Hv. injection Hxy as <- <-.
    rewrite !fmap_cons. by f_equal. }
  intros p. split.
  - intros [v Hv]. apply elem_of_list_to_map_2 in Hv.
    assert (p ∈ l.*1) as Hp.
    { apply list_elem_of_fmap. by exists (p, v). }
    rewrite Hkeys in Hp. apply list_elem_of_fmap in Hp as [[p' lst] [-> Hin]].
    apply elem_of_map_to_list in Hin. by exists lst.
  - intros [lst Hlst]. apply elem_of_map_to_list in Hlst.
    assert (p ∈ l.*1) as Hp.
    { rewrite Hkeys. apply list_elem_of_fmap. by exists (p, lst). }
    destruct (list_to_map l !! p) as [v|] eqn:Hv; [by exists v|].
    by apply not_elem_of_list_to_map in Hv.
Qed.

(** When [sow] returns: the seeds have different indices and there is at
    most one for every point; the index of every seed is the one that
    [_get_index] gives for one of the points, and [mesh[index]] was a cell
    and not [None] when the seed was made; every point has a seed at the
    index that [_get_index] gives for it; every seed is as its constructor
    leaves it, with the settings that were given and with a value for
    exactly the properties that were given.  So seeds that share a property
    have different indices, and every two of them share a property when one
    was given. *)
Theorem sow_seeds bounds xs ys zs mesh_at (points : list (Qc * Qc * Qc))
    (ps : gmap string (list Qc)) (m : PrismMesh) (mu_ delta_ : Qc) (r : bool)
    (ss : list SeedPrism) :
  sow bounds xs ys zs mesh_at points ps m mu_ delta_ r = Ok ss →
  NoDup (index <$> ss)
  ∧ (length ss ≤ length points)%nat
  ∧ (∀ s, s ∈ ss →
       fresh s
       ∧ (∃ pt, pt ∈ points
                ∧ _get_index bounds xs ys zs mesh_at pt m = Ok (index s))
       ∧ (∃ c, mesh_at m (index s) = Ok (Some c))
       ∧ (∀ p, is_Some (props s !! p) ↔ is_Some (ps !! p))
       ∧ delta s = delta_ ∧ reldist s = r ∧ kind s = "prism"%string)
  ∧ (∀ pt, pt ∈ points →
       ∃ s, s ∈ ss ∧ _get_index bounds xs ys zs mesh_at pt m = Ok (index s))
  ∧ distinct_cells ss
  ∧ (ps ≠ ∅ → pairwise_sharing ss).
Proof.
  unfold sow. intros H.
  set (good := λ s : SeedPrism,
         fresh s
         ∧ (∃ pt, pt ∈ points
                  ∧ _get_index bounds xs ys zs mesh_at pt m = Ok (index s))
         ∧ (∃ c, mesh_at m (index s) = Ok (Some c))
         ∧ (∀ p, is_Some (props s !! p) ↔ is_Some (ps !! p))
         ∧ delta s = delta_ ∧ reldist s = r ∧ kind s = "prism"%string).
  assert (NoDup (index <$> ss)
          ∧ (length ss ≤ length points)%nat
          ∧ (∀ s, s ∈ ss → good s)
          ∧ (∀ pt, pt ∈ points →
               ∃ s, s ∈ ss
                    ∧ _get_index bounds xs ys zs mesh_at pt m = Ok (index s)))
    as (Hnd & Hlen & Hall & Hcover).
  { assert (∀ l acc res,
      foldlM (λ (acc : list SeedPrism) (ip : nat * (Qc * Qc * Qc)),
                sprops ← props_at ps ip.1;
                s ← SeedPrism_new bounds xs ys zs mesh_at ip.2 sprops m mu_
                      delta_ r;
                if bool_decide (index s ∈ index <$> acc) then Ok acc
                else Ok (acc ++ [s])) acc l = Ok res →
      (∀ ip, ip ∈ l → ip.2 ∈ points) →
      NoDup (index <$> acc) →
      (∀ s, s ∈ acc → good s) →
      NoDup (index <$> res)
      ∧ (length res ≤ length acc + length l)%nat
      ∧ (∀ s, s ∈ res → good s)
      ∧ (∀ s, s ∈ acc → s ∈ res)
      ∧ (∀ ip, ip ∈ l →
           ∃ s, s ∈ res
                ∧ _get_index bounds xs ys zs mesh_at ip.2 m = Ok (index s)))
      as Hgen.
    { induction l as [|[i pt] l IH]; intros acc res Hf Hpts Hnd Hacc;
        simpl in Hf.
      - injection Hf as <-. split; [done|]. split; [lia|]. split; [done|].
        split; [done|]. intros ip Hip. by apply elem_of_nil in Hip.
      - bind_inv Hf as acc1 Hacc1. bind_inv Hacc1 as sp Hsp.
        bind_inv Hacc1 as s Hs. unfold SeedPrism_new in Hs.
        bind_inv Hs as idx Hidx. injection Hs as <-.
        pose proof (_get_index_Ok _ _ _ _ _ _ _ _ Hidx) as Hcell.
        pose proof (SeedPrism_init_fresh idx sp m mu_ delta_ r)
          as (Hp & Hi & He & Hn & Hd & Hr & Hk).
        simpl in Hacc1. rewrite Hi in Hacc1.
        assert (∀ ip, ip ∈ l → ip.2 ∈ points) as Hpts'.
        { intros ip Hip. apply Hpts. by right. }
        case_bool_decide as Hin; injection Hacc1 as <-.
        + destruct (IH _ _ Hf Hpts' Hnd Hacc) as (H1 & H2 & H3 & H4 & H5).
          split; [done|]. split; [simpl; lia|]. split; [done|].
          split; [done|]. intros ip Hip.
          apply elem_of_cons in Hip as [->|Hip]; [|by apply H5].
          apply list_elem_of_fmap in Hin as (s0 & Hs0 & Hin).
          exists s0. split; [by apply H4|]. simpl. by rewrite <- Hs0.
        + destruct (IH _ _ Hf Hpts') as (H1 & H2 & H3 & H4 & H5).
          * rewrite fmap_app. apply NoDup_app. split; [done|]. split.
            -- intros x Hx Hx'. simpl in Hx'.
               apply list_elem_of_singleton in Hx'. rewrite Hi in Hx'.
               by subst x.
            -- simpl. apply NoDup_singleton.
          * intros s Hs. apply elem_of_app in Hs as [Hs|Hs]; [by apply Hacc|].
            apply list_elem_of_singleton in Hs as ->.
            split; [split; congruence|]. rewrite Hi, Hp.
            split; [exists pt; split; [apply (Hpts (i, pt)); left|done]|].
            split; [done|]. split; [|done].
            exact (props_at_keys _ _ _ Hsp).
          * split; [done|]. split; [rewrite length_app in H2; simpl in *; lia|].
            split; [done|]. split.
            -- intros s Hs. apply H4, elem_of_app. by left.
            -- intros ip Hip.
               apply elem_of_cons in Hip as [->|Hip]; [|by apply H5].
               eexists. split; [apply H4, elem_of_app; right; left|].
               simpl. by rewrite Hi. }
    destruct (Hgen _ _ _ H) as (H1 & H2 & H3 & _ & H5).
    - intros [i pt] Hip. apply elem_of_lookup_imap in Hip as (i' & x & Heq & Hx).
      injection Heq as -> ->. simpl. by eapply list_elem_of_lookup_2.
    - simpl. apply NoDup_nil_2.
    - intros s Hs. by apply elem_of_nil in Hs.
    - split; [done|]. split; [rewrite length_imap in H2; simpl in H2; lia|].
      split; [done|]. intros pt Hpt.
      apply list_elem_of_lookup in Hpt as [i Hi].
      apply (H5 (i, pt)). apply elem_of_lookup_imap. by exists i, pt. }
  split; [done|]. split; [done|]. split; [done|]. split; [done|]. split.
  - intros i j a b Hij Ha Hb _ Heq.
    apply Hij. eapply NoDup_lookup; [exact Hnd| |].
    + rewrite list_lookup_fmap, Ha. reflexivity.
    + rewrite list_lookup_fmap, Hb. simpl. by rewrite Heq.
  - intros Hne i j a b Ha Hb.
    destruct (map_choose ps Hne) as (p & lst & Hp).
    destruct (Hall a (list_elem_of_lookup_2 _ _ _ Ha)) as (_ & _ & _ & Hpa & _).
    destruct (Hall b (list_elem_of_lookup_2 _ _ _ Hb)) as (_ & _ & _ & Hpb & _).
    exists p. split; [apply Hpa|apply Hpb]; by exists lst.
Qed.

Lemma sow_seeds_witness :
  ∃ ss, sow row3_bounds row3_xs unit_edges unit_edges mesh_getitem three_points
          {[ "density"%string := Qc_of_Z <$> [1; 2; 3] ]} (row_mesh 3)
          0%Qc (Q2Qc (1 # 10000)) false = Ok ss
    ∧ index <$> ss = [0; 2] ∧ distinct_cells ss.
Proof.
  destruct (sow row3_bounds row3_xs unit_edges unit_edges mesh_getitem
              three_points
              {[ "density"%string := Qc_of_Z <$> [1; 2; 3] ]} (row_mesh 3)
              0%Qc (Q2Qc (1 # 10000)) false) as [e|ss] eqn:H;
    [vm_compute in H; discriminate|].
  exists ss. split; [done|]. split.
  - vm_compute in H. by injection H as <-.
  - by destruct (sow_seeds _ _ _ _ _ _ _ _ _ _ _ _ H)
      as (_ & _ & _ & _ & ? & _).
Defined.

(** * Test drives and updates of a data module *)

Lemma np_iadd_binop (a b p : list Qc) :
  np_iadd a b = Ok p → np_binop Qcplus a b = Ok p.
Proof.
  unfold np_iadd, np_binop. case_decide as Hlen; [done|].
  destruct b as [|y [|y' b]]; try discriminate.
  destruct a as [|x [|x' a]]; [done| |done].
  by destruct Hlen.
Qed.

Lemma cache_effect_Ok pot (dm dm1 : DM) (i : Z) (p : gmap string Qc)
    (m : PrismMesh) :
  cache_effect pot dm i p m = Ok dm1 →
  cache_effect pot dm1 i p m = Ok dm1
  ∧ prop_type dm1 = prop_type dm ∧ predicted dm1 = predicted dm.
Proof.
  unfold cache_effect. destruct (effect dm !! i) as [e|] eqn:He.
  - intros [= <-]. by rewrite He.
  - intros H. bind_inv H as e He'. injection H as <-. simpl.
    by rewrite lookup_insert_eq.
Qed.

(** For a module that is not of the second-invariant class: the misfit that
    a test drive returns for an element is the misfit of the module once it
    is updated with the element; the test drive leaves the prediction as it
    is; and the update after the test drive gives the module that the update
    alone gives. *)
Theorem testdrive_predicts_update sqrt pot (dm dm1 dm2 : DM) (el : Element)
    (m : PrismMesh) (v : Qc) :
  DMPrism_testdrive sqrt pot dm el m = Ok (v, dm1) →
  DMPrism_update pot dm el m = Ok dm2 →
  misfit sqrt dm2 (predicted dm2) = Ok v
  ∧ predicted dm1 = predicted dm
  ∧ DMPrism_update pot dm1 el m = Ok dm2.
Proof.
  destruct el as [i p]. unfold DMPrism_testdrive, DMPrism_update, tracked.
  destruct (prop_type dm) as [pt|] eqn:Hpt; simpl.
  - destruct (bool_decide (is_Some (p !! pt))) eqn:Htr; simpl.
    + intros Ht Hu.
      bind_inv Ht as c1 Hc1. bind_inv Ht as e He. bind_inv Ht as tmp Htmp.
      bind_inv Ht as mv Hmv. injection Ht as <- <-.
      rewrite Hc1 in Hu. simpl in Hu. rewrite He in Hu. simpl in Hu.
      bind_inv Hu as pr Hpr. injection Hu as <-.
      pose proof (np_iadd_binop _ _ _ Hpr) as Hb.
      rewrite Hb in Htmp. injection Htmp as <-.
      destruct (cache_effect_Ok _ _ _ _ _ _ Hc1) as (Hidem & Hpt1 & Hpred).
      split; [exact Hmv|]. split; [done|].
      rewrite Hpt1, Hpt, Htr, Hidem. simpl. rewrite He. simpl.
      by rewrite Hpr.
    + intros Ht [= <-]. bind_inv Ht as mv Hmv. injection Ht as <- <-.
      rewrite Hpt, Htr. done.
  - intros Ht [= <-]. bind_inv Ht as mv Hmv. injection Ht as <- <-.
    rewrite Hpt. done.
Qed.

Lemma testdrive_predicts_update_witness :
  ∃ v dm1 dm2,
    DMPrism_testdrive sqrt_c unit_kernel (one_point DMPrismGz 2)
      (0, density 1) (row_mesh 2) = Ok (v, dm1)
    ∧ DMPrism_update unit_kernel (one_point DMPrismGz 2) (0, density 1)
        (row_mesh 2) = Ok dm2
    ∧ misfit sqrt_c dm2 (predicted dm2) = Ok v.
Proof.
  destruct (DMPrism_testdrive sqrt_c unit_kernel (one_point DMPrismGz 2)
              (0, density 1) (row_mesh 2)) as [e|[v dm1]] eqn:Ht;
    [vm_compute in Ht; discriminate|].
  destruct (DMPrism_update unit_kernel (one_point DMPrismGz 2) (0, density 1)
              (row_mesh 2)) as [e|dm2] eqn:Hu;
    [vm_compute in Hu; discriminate|].
  exists v, dm1, dm2. split; [done|]. split; [done|].
  by destruct (testdrive_predicts_update _ _ _ _ _ _ _ _ Ht Hu) as [? _].
Defined.

(** * The trajectories that [harvest] returns *)


Section Trajectories.

Variable sqrt : Qc → Qc.
Variable pot : string → list Qc → list Qc → list Qc → list (option Prism) →
               option Qc → list Qc.
Variable g0 : Qc.




End Trajectories.



(** * The bodies that grow from the seeds are connected *)

Lemma find_neighbors_touch (m : PrismMesh) (n : Z) (found : list Z) :
  well_shaped (shape m) → 0 ≤ n < size m →
  _find_neighbors m n false true true = Ok found →
  ∀ c, c ∈ found → face_adjacent (shape m) n c.
Proof.
  intros Hw Hn Hf c Hc.
  destruct (find_neighbors_grid m n false true true Hw Hn) as (r & Hr & Hall).
  rewrite Hf in Hr. injection Hr as <-.
  destruct (Hall c Hc) as (_ & _ & Hface). by apply Hface.
Qed.

Lemma face_adjacent_range (sh : Z * Z * Z) (p c : Z) :
  face_adjacent sh p c → 0 ≤ c < grid_size sh.
Proof.
  intros H. apply face_adjacent_adjacent in H.
  destruct sh as [[nz ny] nx]. by apply adjacent_range in H as [? _].
Qed.

Lemma body_ok_same (sh : Z * Z * Z) (s s' : SeedPrism) :
  estimate s' = estimate s → index s' = index s → neighbors s' = neighbors s →
  body_ok sh s → body_ok sh s'.
Proof. unfold body_ok. intros -> -> ->. done. Qed.

(** [initialize] keeps the bodies. *)
Lemma initialize_bodies sqrt (i : nat) (ss ss' : list SeedPrism)
    (m : PrismMesh) :
  well_shaped (shape m) →
  bodies_ok (shape m) ss → initialize sqrt i ss m = Ok ss' →
  bodies_ok (shape m) ss'.
Proof.
  intros Hw Hb H.
  apply initialize_Ok in H
    as (self & self' & found & Hi & Hf & -> & Hp & He & Hx & Hn).
  intros s Hs. apply list_elem_of_lookup in Hs as [k Hk].
  destruct (decide (k = i)) as [->|Hne].
  - rewrite list_lookup_insert_eq in Hk by (by eapply lookup_lt_Some).
    injection Hk as <-.
    destruct (Hb self (list_elem_of_lookup_2 _ _ _ Hi)) as (Hh & Hr & Hg & Hfr).
    split; [by rewrite He, Hx|]. split; [by rewrite He|].
    split; [by rewrite He|].
    intros c Hc. rewrite Hn in Hc. rewrite He.
    apply elem_of_app in Hc as [Hc|Hc]; [by apply Hfr|].
    exists (index self). split.
    + destruct (estimate self); [discriminate|]. injection Hh as ->. left.
    + eapply find_neighbors_touch; [done| |exact Hf|].
      * rewrite size_grid_size. apply Hr.
        destruct (estimate self); [discriminate|]. injection Hh as ->. left.
      * eapply elem_of_sublist; [exact Hc|]. apply new_neighbors_sublist.
  - rewrite list_lookup_insert_ne in Hk by done.
    apply Hb. by eapply list_elem_of_lookup_2.
Qed.

(** An accepted growth keeps the bodies; a growth that is not accepted
    leaves the seeds as they are. *)
Lemma grow_bodies sqrt pot (i : nat) (w w' : World) (g m : Qc)
    (r : option Change) :
  well_shaped (shape (mesh w)) →
  bodies_ok (shape (mesh w)) (seeds w) →
  grow sqrt pot i w g m = Ok (r, w') →
  shape (mesh w') = shape (mesh w) ∧ bodies_ok (shape (mesh w)) (seeds w').
Proof.
  intros Hw Hb H. unfold grow in H.
  bind_inv H as self Hi. apply list_getitem_Ok in Hi.
  bind_inv H as cm Hcm. destruct cm as [[ms ds1] m1].
  apply candidate_misfits_shape in Hcm.
  bind_inv H as gs Hgs. bind_inv H as best Hbest.
  destruct best as [[[k g0] m0]|]; [|by injection H as <- <-].
  bind_inv H as idx Hidx. apply list_getitem_Ok in Hidx.
  bind_inv H as d Hd. bind_inv H as ss1 Hup. injection H as <- <-.
  simpl. split; [done|].
  apply _update_neighbors_Ok in Hup
    as (self2 & self' & found & removed & Hi2 & Hf & Hr & -> & Hp & He
        & Hx & Hn).
  rewrite list_lookup_insert_eq in Hi2 by (by eapply lookup_lt_Some).
  injection Hi2 as <-. simpl in *. rewrite list_insert_insert_eq.
  destruct (Hb self (list_elem_of_lookup_2 _ _ _ Hi)) as (Hh & Hrange & Hg & Hfr).
  assert (idx ∈ neighbors self) as Hin by (by eapply list_elem_of_lookup_2).
  destruct (Hfr idx Hin) as (e0 & He0 & Hface0).
  pose proof (face_adjacent_range _ _ _ Hface0) as Hidxr.
  intros s Hs. apply list_elem_of_lookup in Hs as [j Hj].
  destruct (decide (j = i)) as [->|Hne].
  - rewrite list_lookup_insert_eq in Hj by (by eapply lookup_lt_Some).
    injection Hj as <-. unfold body_ok. rewrite He, Hx, Hn.
    split; [|split; [|split]].
    + destruct (estimate self); [discriminate|]. done.
    + intros c Hc. apply elem_of_app in Hc as [Hc|Hc]; [by apply Hrange|].
      by apply list_elem_of_singleton in Hc as ->.
    + intros k' c Hc Hk'.
      destruct (decide (k' < length (estimate self))%nat) as [Hlt|Hge].
      * rewrite lookup_app_l in Hc by done.
        destruct (Hg k' c Hc Hk') as (j' & e & Hj' & He' & Hfa).
        exists j', e. split; [done|]. split; [|done].
        rewrite lookup_app_l; [done|lia].
      * assert (k' = length (estimate self)) as ->.
        { apply lookup_lt_Some in Hc. rewrite length_app in Hc. simpl in Hc.
          lia. }
        rewrite lookup_app_r in Hc by lia. rewrite Nat.sub_diag in Hc.
        injection Hc as <-.
        apply list_elem_of_lookup in He0 as [j' Hj'].
        exists j', e0. split; [by eapply lookup_lt_Some|].
        split; [|done]. rewrite lookup_app_l; [done|by eapply lookup_lt_Some].
    + intros c Hc. apply elem_of_app in Hc as [Hc|Hc].
      * apply py_remove_Ok in Hr as [_ Hsub].
        destruct (Hfr c) as (e & He' & Hfa); [by eapply elem_of_sublist|].
        exists e. split; [|done]. apply elem_of_app. by left.
      * exists idx. split; [apply elem_of_app; right; left|].
        rewrite <- Hcm. eapply find_neighbors_touch; [by rewrite Hcm| |exact Hf|].
        -- rewrite size_grid_size, Hcm. exact Hidxr.
        -- eapply elem_of_sublist; [exact Hc|]. apply new_neighbors_sublist.
  - rewrite list_lookup_insert_ne in Hj by done.
    apply Hb. by eapply list_elem_of_lookup_2.
Qed.

Section Bodies.

Variable sqrt : Qc → Qc.
Variable pot : string → list Qc → list Qc → list Qc → list (option Prism) →
               option Qc → list Qc.
Variable sh : Z * Z * Z.
Hypothesis Hsh : well_shaped sh.

Lemma try_seed_bodies (i : nat) (st st' : Solver) (g : bool) :
  shape (mesh (world st)) = sh → bodies_ok sh (seeds (world st)) →
  try_seed sqrt pot i st = Ok (g, st') →
  shape (mesh (world st')) = sh ∧ bodies_ok sh (seeds (world st')).
Proof.
  intros Hs Hb H. unfold try_seed in H.
  bind_inv H as gl Hgl. bind_inv H as ml Hml.
  bind_inv H as cw Hgrow. destruct cw as [change w1].
  apply grow_bodies in Hgrow as [Hs1 Hb1]; [|by rewrite Hs..].
  rewrite Hs in Hs1, Hb1.
  destruct change as [[[el g1] m1]|].
  - bind_inv H as dm Hup. destruct dm as [dms2 mesh2].
    injection H as _ <-. simpl. apply update_all_shape in Hup.
    split; [congruence|done].
  - injection H as _ <-. done.
Qed.

Lemma round_bodies (ps : list nat) (grew g' : bool) (st st' : Solver) :
  shape (mesh (world st)) = sh → bodies_ok sh (seeds (world st)) →
  round sqrt pot ps grew st = Ok (g', st') →
  shape (mesh (world st')) = sh ∧ bodies_ok sh (seeds (world st')).
Proof.
  revert grew st. induction ps as [|i ps IH]; intros grew st Hs Hb H;
    simpl in H.
  - by injection H as _ <-.
  - bind_inv H as gs Htry. destruct gs as [g st1].
    apply try_seed_bodies in Htry as [Hs1 Hb1]; [|done..].
    by eapply IH.
Qed.

Lemma solver_loop_bodies (fuel : nat) (st st' : Solver) :
  shape (mesh (world st)) = sh → bodies_ok sh (seeds (world st)) →
  solver_loop sqrt pot fuel st = Some (Ok st') →
  bodies_ok sh (seeds (world st')).
Proof.
  revert st. induction fuel as [|fuel IH]; intros st Hs Hb H; simpl in H;
    [discriminate|].
  destruct (round sqrt pot (positions st) false st) as [e|[g st1]] eqn:Hround;
    [discriminate|].
  apply round_bodies in Hround as [Hs1 Hb1]; [|done..].
  destruct g; [by eapply IH|]. by injection H as <-.
Qed.

End Bodies.

(** On a mesh with rows and columns, for seeds as their constructor leaves
    them in cells of the grid: when [harvest] returns, the estimate of every
    seed starts with the cell of the seed, lies on the grid, and every other
    cell of it shares a face with a cell that comes before it in the
    estimate.  The body grown from a seed is connected through faces. *)
Theorem harvest_bodies_connected sqrt pot (fuel : nat) (w w' : World)
    (res : Results) :
  well_shaped (shape (mesh w)) →
  (∀ s, s ∈ seeds w → fresh s ∧ 0 ≤ index s < size (mesh w)) →
  harvest sqrt pot fuel w false = Some (Ok (res, w')) →
  ∀ s, s ∈ seeds w' →
    head (estimate s) = Some (index s)
    ∧ (∀ c, c ∈ estimate s → 0 ≤ c < size (mesh w))
    ∧ grown (shape (mesh w)) (estimate s).
Proof.
  intros Hw Hfresh H.
  apply harvest_Ok in H as (w1 & g & st' & Hsetup & Hloop & <- & _ & _).
  unfold harvest_setup in Hsetup.
  bind_inv Hsetup as first Hfirst.
  destruct (negb _); [discriminate|].
  bind_inv Hsetup as seeds1 Hinit. bind_inv Hsetup as dm Habs.
  destruct dm as [dms1 mesh1]. bind_inv Hsetup as goal Hgoal.
  injection Hsetup as <- <-.
  apply absorb_seeds_shape in Habs.
  assert (bodies_ok (shape (mesh w)) (seeds w)) as Hb0.
  { intros s Hs. destruct (Hfresh s Hs) as [[He Hn] Hr].
    split; [by rewrite He|]. split; [|split].
    - intros c Hc. rewrite He in Hc. apply list_elem_of_singleton in Hc as ->.
      by rewrite <- size_grid_size.
    - intros k c Hc Hk. rewrite He in Hc. destruct k; [lia|discriminate].
    - intros c Hc. rewrite Hn in Hc. by apply elem_of_nil in Hc. }
  assert (bodies_ok (shape (mesh w)) seeds1) as Hb1.
  { revert Hinit. unfold initialize_all.
    apply (foldlM_invariant (bodies_ok (shape (mesh w)))); [done|].
    intros ss0 i ss0' H0 _ Hstep. by eapply initialize_bodies. }
  apply (solver_loop_bodies sqrt pot (shape (mesh w)) Hw) in Hloop;
    [|done|done].
  intros s Hs. destruct (Hloop s Hs) as (Hh & Hr & Hg & _).
  split; [done|]. split; [|done].
  intros c Hc. rewrite size_grid_size. by apply Hr.
Qed.

Lemma harvest_bodies_connected_witness :
  ∃ res w',
    harvest sqrt_c unit_kernel 5 world_two_densities false = Some (Ok (res, w'))
    ∧ ∀ s, s ∈ seeds w' →
        head (estimate s) = Some (index s)
        ∧ (∀ c, c ∈ estimate s → 0 ≤ c < size (mesh world_two_densities))
        ∧ grown (shape (mesh world_two_densities)) (estimate s).
Proof.
  destruct (harvest sqrt_c unit_kernel 5 world_two_densities false)
    as [[e|[res w']]|] eqn:H; [vm_compute in H; discriminate| |
                               vm_compute in H; discriminate].
  exists res, w'. split; [reflexivity|].
  apply (harvest_bodies_connected sqrt_c unit_kernel 5 world_two_densities w'
           res).
  - vm_compute. split; reflexivity.
  - intros s Hs. unfold world_two_densities in Hs. simpl in Hs.
    apply elem_of_cons in Hs as [->|Hs];
      [|apply list_elem_of_singleton in Hs as ->];
      (split; [split; reflexivity|vm_compute; split; [discriminate|reflexivity]]).
  - exact H.
Defined.

(** * The estimate that [harvest] returns *)

(** [dict(pairs)]: the keys are those of the pairs, and every value is the
    value of a pair with that key. *)
Lemma dict_of_pairs (l : list (Z * Qc)) (d0 : gmap Z Qc) (c : Z) :
  (∀ v, dict_of d0 l !! c = Some v → d0 !! c = Some v ∨ (c, v) ∈ l)
  ∧ ((is_Some (d0 !! c) ∨ ∃ v, (c, v) ∈ l) → is_Some (dict_of d0 l !! c)).
Proof.
  unfold dict_of. revert d0. induction l as [|[c' v'] l IH]; intros d0; simpl.
  - split; [auto|]. intros [H|[v H]]; [done|]. by apply elem_of_nil in H.
  - destruct (IH (<[c' := v']> d0)) as [IH1 IH2]. split.
    + intros v Hv. destruct (IH1 v Hv) as [H|H]; [|right; by right].
      destruct (decide (c' = c)) as [->|Hne].
      * rewrite lookup_insert_eq in H. injection H as ->. right. left.
      * rewrite lookup_insert_ne in H by done. by left.
    + intros H. apply IH2.
      destruct (decide (c' = c)) as [->|Hne].
      * left. rewrite lookup_insert_eq. eauto.
      * rewrite lookup_insert_ne by done.
        destruct H as [H|[v H]]; [by left|]. right. exists v.
        apply elem_of_cons in H as [[= -> ->]|H]; [done|done].
Qed.

(** The pairs that one seed adds for its properties. *)
Lemma seed_pairs (s : SeedPrism) (kvs : list (string * Qc))
    (est : gmap string (list (Z * Qc))) (p : string) :
  (∀ l cv, foldl (cat_step s) est kvs !! p = Some l → cv ∈ l →
     (∃ l0, est !! p = Some l0 ∧ cv ∈ l0)
     ∨ ((p, cv.2) ∈ kvs ∧ cv.1 ∈ estimate s))
  ∧ (∀ l0, est !! p = Some l0 →
       ∃ l, foldl (cat_step s) est kvs !! p = Some l ∧ l0 ⊆ l)
  ∧ (∀ v c, (p, v) ∈ kvs → c ∈ estimate s →
       ∃ l, foldl (cat_step s) est kvs !! p = Some l ∧ (c, v) ∈ l).
Proof.
  revert est. induction kvs as [|[k v'] kvs IH]; intros est; simpl.
  - split; [|split].
    + intros l cv Hl Hcv. left. eauto.
    + intros l0 Hl0. exists l0. done.
    + intros v c H. by apply elem_of_nil in H.
  - assert (cat_step s est (k, v')
            = <[k := default [] (est !! k)
                     ++ ((λ c, (c, v')) <$> estimate s)]> est) as Hstep.
    { unfold cat_step. simpl. by destruct (est !! k). }
    rewrite Hstep. clear Hstep.
    destruct (IH (<[k := default [] (est !! k)
                         ++ ((λ c, (c, v')) <$> estimate s)]> est))
      as (IH1 & IH2 & IH3).
    split; [|split].
    + intros l cv Hl Hcv.
      destruct (IH1 l cv Hl Hcv) as [(l0 & Hl0 & Hin)|[Hin Hc]];
        [|right; split; [by right|done]].
      destruct (decide (k = p)) as [->|Hne].
      * rewrite lookup_insert_eq in Hl0. injection Hl0 as <-.
        apply elem_of_app in Hin as [Hin|Hin].
        -- left. destruct (est !! p) as [old|]; [eauto|].
           by apply elem_of_nil in Hin.
        -- right. apply list_elem_of_fmap in Hin as (c & -> & Hc).
           split; [left|done].
      * rewrite lookup_insert_ne in Hl0 by done. left. eauto.
    + intros l0 Hl0.
      destruct (decide (k = p)) as [->|Hne].
      * destruct (IH2 (l0 ++ ((λ c, (c, v')) <$> estimate s)))
          as (l & Hl & Hsub).
        { rewrite lookup_insert_eq, Hl0. done. }
        exists l. split; [done|]. intros x Hx. apply Hsub, elem_of_app.
        by left.
      * apply IH2. by rewrite lookup_insert_ne.
    + intros v c Hin Hc. apply elem_of_cons in Hin as [[= <- <-]|Hin].
      * destruct (IH2 (default [] (est !! p)
                       ++ ((λ c, (c, v)) <$> estimate s)))
          as (l & Hl & Hsub); [by rewrite lookup_insert_eq|].
        exists l. split; [done|]. apply Hsub, elem_of_app. right.
        apply list_elem_of_fmap. by exists c.
      * by apply IH3.
Qed.

(** The pairs that all the seeds add. *)
Lemma seeds_pairs (ss : list SeedPrism) (est : gmap string (list (Z * Qc)))
    (p : string) :
  (∀ l cv, cat_pairs ss est !! p = Some l → cv ∈ l →
     (∃ l0, est !! p = Some l0 ∧ cv ∈ l0)
     ∨ ∃ s, s ∈ ss ∧ props s !! p = Some cv.2 ∧ cv.1 ∈ estimate s)
  ∧ (∀ l0, est !! p = Some l0 → ∃ l, cat_pairs ss est !! p = Some l ∧ l0 ⊆ l)
  ∧ (∀ s v c, s ∈ ss → props s !! p = Some v → c ∈ estimate s →
       ∃ l, cat_pairs ss est !! p = Some l ∧ (c, v) ∈ l).
Proof.
  unfold cat_pairs. revert est.
  induction ss as [|s ss IH]; intros est; simpl.
  - split; [|split].
    + intros l cv Hl Hcv. left. eauto.
    + intros l0 Hl0. exists l0. done.
    + intros s v c H. by apply elem_of_nil in H.
  - destruct (seed_pairs s (map_to_list (props s)) est p) as (S1 & S2 & S3).
    destruct (IH (foldl (cat_step s) est (map_to_list (props s))))
      as (IH1 & IH2 & IH3).
    split; [|split].
    + intros l cv Hl Hcv.
      destruct (IH1 l cv Hl Hcv) as [(l0 & Hl0 & Hin)|(s' & Hs' & H')].
      * destruct (S1 l0 cv Hl0 Hin) as [?|[Hkv Hc]]; [by left|].
        right. exists s. split; [left|]. split; [|done].
        by apply elem_of_map_to_list in Hkv.
      * right. exists s'. split; [by right|done].
    + intros l0 Hl0. destruct (S2 l0 Hl0) as (l1 & Hl1 & Hsub1).
      destruct (IH2 l1 Hl1) as (l & Hl & Hsub). exists l. split; [done|].
      intros x Hx. by apply Hsub, Hsub1.
    + intros s' v c Hs' Hp Hc. apply elem_of_cons in Hs' as [->|Hs'].
      * destruct (S3 v c) as (l1 & Hl1 & Hin1);
          [by apply elem_of_map_to_list|done|].
        destruct (IH2 l1 Hl1) as (l & Hl & Hsub). exists l.
        split; [done|]. by apply Hsub.
      * by eapply IH3.
Qed.

(** When [_cat_estimate] returns the estimate of seeds of the prism kind:
    every value it gives a cell for a property is the value that a seed with
    the cell in its estimate has for the property; every cell of the
    estimate of a seed has a value for every property of the seed; and that
    value is the value of the seed when no cell is in the estimates of two
    seeds that share a property. *)
Theorem cat_estimate_values (ss : list SeedPrism)
    (est : gmap string (gmap Z Qc)) :
  _cat_estimate ss = Ok (Some est) →
  (∀ p d c v, est !! p = Some d → d !! c = Some v →
     ∃ s, s ∈ ss ∧ props s !! p = Some v ∧ c ∈ estimate s)
  ∧ (∀ s p v c, s ∈ ss → props s !! p = Some v → c ∈ estimate s →
       ∃ d, est !! p = Some d ∧ is_Some (d !! c))
  ∧ (exclusive ss →
     ∀ s p v c, s ∈ ss → props s !! p = Some v → c ∈ estimate s →
       ∃ d, est !! p = Some d ∧ d !! c = Some v).
Proof.
  unfold _cat_estimate. intros H. bind_inv H as first Hfirst.
  case_decide; [|discriminate]. injection H as H.
  change (dict_of ∅ <$> cat_pairs ss ∅ = est) in H. subst est.
  assert (∀ p d c v, (dict_of ∅ <$> cat_pairs ss ∅) !! p = Some d →
            d !! c = Some v →
            ∃ s, s ∈ ss ∧ props s !! p = Some v ∧ c ∈ estimate s) as H1.
  { intros p d c v Hd Hv. apply lookup_fmap_Some in Hd as (l & <- & Hl).
    destruct (dict_of_pairs l ∅ c) as [D1 _].
    destruct (D1 v Hv) as [Hempty|Hin]; [by rewrite lookup_empty in Hempty|].
    destruct (seeds_pairs ss ∅ p) as (P1 & _ & _).
    destruct (P1 l (c, v) Hl Hin) as [(l0 & Hl0 & _)|Hs];
      [by rewrite lookup_empty in Hl0|done]. }
  assert (∀ s p v c, s ∈ ss → props s !! p = Some v → c ∈ estimate s →
            ∃ d, (dict_of ∅ <$> cat_pairs ss ∅) !! p = Some d
                 ∧ is_Some (d !! c)) as H2.
  { intros s p v c Hs Hp Hc.
    destruct (seeds_pairs ss ∅ p) as (_ & _ & P3).
    destruct (P3 s v c Hs Hp Hc) as (l & Hl & Hin).
    eexists. split; [rewrite lookup_fmap, Hl; reflexivity|].
    destruct (dict_of_pairs l ∅ c) as [_ D2]. apply D2. right. eauto. }
  split; [exact H1|]. split; [exact H2|].
  intros Hex s p v c Hs Hp Hc.
  destruct (H2 s p v c Hs Hp Hc) as (d & Hd & [v' Hv']).
  exists d. split; [done|]. rewrite Hv'. f_equal.
  destruct (H1 p d c v' Hd Hv') as (s' & Hs' & Hp' & Hc').
  apply list_elem_of_lookup in Hs as [i Hi].
  apply list_elem_of_lookup in Hs' as [j Hj].
  destruct (decide (i = j)) as [->|Hne]; [congruence|].
  exfalso. apply (Hex i j s s' c Hne Hi Hj); [|done|done].
  exists p. split; eauto.
Qed.

Lemma cat_estimate_values_witness :
  ∃ est, _cat_estimate (seeds world_two_densities) = Ok (Some est)
    ∧ ∀ p d c v, est !! p = Some d → d !! c = Some v →
        ∃ s, s ∈ seeds world_two_densities ∧ props s !! p = Some v
             ∧ c ∈ estimate s.
Proof.
  destruct (_cat_estimate (seeds world_two_densities)) as [e|[est|]] eqn:H;
    [vm_compute in H; discriminate| |vm_compute in H; discriminate].
  exists est. split; [reflexivity|].
  by destruct (cat_estimate_values _ _ H) as (? & _ & _).
Defined.

(** * What a run leaves of the data modules and of the mesh *)

Lemma static_refl (dm : DM) : static dm dm.
Proof. by repeat split. Qed.

Lemma static_trans (a b c : DM) : static a b → static b c → static a c.
Proof.
  unfold static. intros (?&?&?&?&?&?&?&?) (?&?&?&?&?&?&?&?).
  split_and!; congruence.
Qed.

Lemma Forall2_static_refl (ds : list DM) : Forall2 static ds ds.
Proof. induction ds; constructor; [apply static_refl|done]. Qed.

Lemma static_no_invariant (ds ds' : list DM) :
  Forall2 static ds ds' → no_invariant ds → no_invariant ds'.
Proof.
  unfold no_invariant. induction 1 as [|a b ds ds' Hs _ IH]; [done|].
  intros Hn. apply Forall_cons in Hn as [Ha Hn]. constructor; [|by apply IH].
  destruct Hs as [Hc _]. congruence.
Qed.

Lemma modules_kept_refl (ds : list DM) (m : PrismMesh) : modules_kept ds m ds m.
Proof. split; [apply Forall2_static_refl|done]. Qed.

Lemma modules_kept_trans ds m ds1 m1 ds2 m2 :
  modules_kept ds m ds1 m1 → modules_kept ds1 m1 ds2 m2 →
  modules_kept ds m ds2 m2.
Proof.
  intros [H1 E1] [H2 E2]. split.
  - clear E1 E2. revert ds2 H2.
    induction H1 as [|a b ds ds1 Hs _ IH]; intros ds2 H2.
    + by apply Forall2_nil_inv_l in H2 as ->.
    + apply Forall2_cons_inv_l in H2 as (c & ds2' & Hbc & H2 & ->).
      constructor; [by eapply static_trans|by apply IH].
  - intros Hn. rewrite E2, E1; [done|done|]. by eapply static_no_invariant.
Qed.

Lemma cache_effect_static pot (dm dm1 : DM) (i : Z) (p : gmap string Qc)
    (m : PrismMesh) :
  cache_effect pot dm i p m = Ok dm1 → static dm dm1.
Proof.
  unfold cache_effect. destruct (effect dm !! i).
  - intros [= <-]. apply static_refl.
  - intros H. bind_inv H as e He. injection H as <-. by repeat split.
Qed.

(** One test drive and one update of one module. *)
Lemma testdrive_static sqrt pot (dm dm' : DM) (el : Element)
    (m m' : PrismMesh) (v : Qc) :
  testdrive sqrt pot dm el m = Ok (v, dm', m') →
  static dm dm' ∧ (dm_class dm ≠ DMPrismI2 → m' = m).
Proof.
  unfold testdrive, DMPrismI2_testdrive, DMPrism_testdrive.
  destruct el as [i p].
  destruct (dm_class dm) eqn:Hc; intros H;
    try (bind_inv H as r Hr; destruct r as [v0 dm0]; injection H as _ <- <-;
         split; [|done];
         destruct (negb _);
         [bind_inv Hr as mv Hmv; injection Hr as _ <-; apply static_refl|];
         bind_inv Hr as c1 Hc1; bind_inv Hr as e He; bind_inv Hr as tmp Htmp;
         bind_inv Hr as mv Hmv; injection Hr as _ <-;
         by eapply cache_effect_static).
  split; [|done]. destruct (negb _).
  - bind_inv H as mv Hmv. injection H as _ <- _. apply static_refl.
  - bind_inv H as m1 Hm1. bind_inv H as tmp Htmp. bind_inv H as mv Hmv.
    injection H as _ <- _. apply static_refl.
Qed.

Lemma update_static pot (dm dm' : DM) (el : Element) (m m' : PrismMesh) :
  update pot dm el m = Ok (dm', m') →
  static dm dm' ∧ (dm_class dm ≠ DMPrismI2 → m' = m).
Proof.
  unfold update, DMPrismI2_update, DMPrism_update. destruct el as [i p].
  destruct (dm_class dm) eqn:Hc; intros H;
    try (bind_inv H as dm0 Hr; injection H as <- <-; split; [|done];
         destruct (tracked dm p); [|injection Hr as <-; apply static_refl];
         bind_inv Hr as c1 Hc1; bind_inv Hr as e He; bind_inv Hr as pr Hpr;
         injection Hr as <-;
         eapply static_trans; [by eapply cache_effect_static|];
         by repeat split).
  split; [|done].
  bind_inv H as m1 Hm1. bind_inv H as pr Hpr. injection H as <- _.
  by repeat split.
Qed.

Section Kept.

Variable sqrt : Qc → Qc.
Variable pot : string → list Qc → list Qc → list Qc → list (option Prism) →
               option Qc → list Qc.

Lemma testdrive_sum_kept (ds ds' : list DM) (el : Element) (m m' : PrismMesh)
    (acc v : Qc) :
  testdrive_sum sqrt pot ds el m acc = Ok (v, ds', m') →
  modules_kept ds m ds' m'.
Proof.
  revert ds' m m' acc v. induction ds as [|dm ds IH]; intros ds' m m' acc v H;
    simpl in H.
  - injection H as _ <- <-. apply modules_kept_refl.
  - bind_inv H as r1 H1. destruct r1 as [[v1 dm1] m1].
    bind_inv H as r2 H2. destruct r2 as [[v2 ds2] m2].
    injection H as _ <- <-.
    apply testdrive_static in H1 as [Hs Hm].
    apply IH in H2 as [Hs2 Hm2]. split; [by constructor|].
    intros Hn. apply Forall_cons in Hn as [Hdm Hn].
    rewrite Hm2, Hm; done.
Qed.

Lemma candidate_misfits_kept (ds ds' : list DM) (p : gmap string Qc)
    (nbrs : list Z) (m m' : PrismMesh) (vs : list Qc) :
  candidate_misfits sqrt pot ds p nbrs m = Ok (vs, ds', m') →
  modules_kept ds m ds' m'.
Proof.
  revert ds ds' m m' vs.
  induction nbrs as [|n nbrs IH]; intros ds ds' m m' vs H; simpl in H.
  - injection H as _ <- <-. apply modules_kept_refl.
  - bind_inv H as r1 H1. destruct r1 as [[v1 ds1] m1].
    bind_inv H as r2 H2. destruct r2 as [[vs2 ds2] m2].
    injection H as _ <- <-.
    eapply modules_kept_trans; [by eapply testdrive_sum_kept|by eapply IH].
Qed.

Lemma update_all_kept (ds ds' : list DM) (el : Element) (m m' : PrismMesh) :
  update_all pot ds el m = Ok (ds', m') → modules_kept ds m ds' m'.
Proof.
  revert ds' m m'. induction ds as [|dm ds IH]; intros ds' m m' H; simpl in H.
  - injection H as <- <-. apply modules_kept_refl.
  - bind_inv H as r1 H1. destruct r1 as [dm1 m1].
    bind_inv H as r2 H2. destruct r2 as [ds2 m2].
    injection H as <- <-.
    apply update_static in H1 as [Hs Hm].
    apply IH in H2 as [Hs2 Hm2]. split; [by constructor|].
    intros Hn. apply Forall_cons in Hn as [Hdm Hn].
    rewrite Hm2, Hm; done.
Qed.

Lemma grow_kept (i : nat) (w w' : World) (g m : Qc) (r : option Change) :
  grow sqrt pot i w g m = Ok (r, w') →
  modules_kept (dms w) (mesh w) (dms w') (mesh w').
Proof.
  unfold grow. intros H.
  bind_inv H as self Hi.
  bind_inv H as cm Hcm. destruct cm as [[ms ds1] m1].
  apply candidate_misfits_kept in Hcm.
  bind_inv H as gs Hgs. bind_inv H as best Hbest.
  destruct best as [[[k g0] m0]|]; [|by injection H as _ <-].
  bind_inv H as idx Hidx. bind_inv H as d Hd. bind_inv H as ss1 Hup.
  by injection H as _ <-.
Qed.

Lemma try_seed_kept (i : nat) (st st' : Solver) (g : bool) :
  try_seed sqrt pot i st = Ok (g, st') →
  modules_kept (dms (world st)) (mesh (world st))
               (dms (world st')) (mesh (world st')).
Proof.
  unfold try_seed. intros H.
  bind_inv H as gl Hgl. bind_inv H as ml Hml.
  bind_inv H as cw Hgrow. destruct cw as [change w1].
  apply grow_kept in Hgrow.
  destruct change as [[[el g1] m1]|].
  - bind_inv H as dm Hup. destruct dm as [dms2 mesh2].
    injection H as _ <-. simpl.
    eapply modules_kept_trans; [done|by eapply update_all_kept].
  - by injection H as _ <-.
Qed.

Lemma round_kept (ps : list nat) (grew g' : bool) (st st' : Solver) :
  round sqrt pot ps grew st = Ok (g', st') →
  modules_kept (dms (world st)) (mesh (world st))
               (dms (world st')) (mesh (world st')).
Proof.
  revert grew st. induction ps as [|i ps IH]; intros grew st H; simpl in H.
  - injection H as _ <-. apply modules_kept_refl.
  - bind_inv H as gs Htry. destruct gs as [g st1].
    eapply modules_kept_trans; [by eapply try_seed_kept|by eapply IH].
Qed.

Lemma solver_loop_kept (fuel : nat) (st st' : Solver) :
  solver_loop sqrt pot fuel st = Some (Ok st') →
  modules_kept (dms (world st)) (mesh (world st))
               (dms (world st')) (mesh (world st')).
Proof.
  revert st. induction fuel as [|fuel IH]; intros st H; simpl in H;
    [discriminate|].
  destruct (round sqrt pot (positions st) false st) as [e|[g st1]] eqn:Hround;
    [discriminate|].
  apply round_kept in Hround.
  destruct g; [|by injection H as <-].
  eapply modules_kept_trans; [done|by eapply IH].
Qed.

Lemma absorb_seeds_kept (c : Z) (ds ds' : list DM) (ss : list SeedPrism)
    (m m' : PrismMesh) :
  absorb_seeds pot c ds ss m = Ok (ds', m') →
  modules_kept ((λ dm, set_weight (weight dm / Qc_of_Z c)%Qc dm) <$> ds) m
               ds' m'.
Proof.
  revert ds' m m'. induction ds as [|dm ds IH]; intros ds' m m' H; simpl in H.
  - injection H as <- <-. apply modules_kept_refl.
  - bind_inv H as r1 H1. destruct r1 as [dm1 m1].
    bind_inv H as r2 H2. destruct r2 as [ds2 m2].
    injection H as <- <-. apply IH in H2 as [Hs2 Hm2].
    assert (static (set_weight (weight dm / Qc_of_Z c)%Qc dm) dm1
            ∧ (dm_class dm ≠ DMPrismI2 → m1 = m)) as [Hs Hm].
    { apply (foldlM_run
               (λ dmm : DM * PrismMesh,
                  static (set_weight (weight dm / Qc_of_Z c)%Qc dm) dmm.1
                  ∧ (dm_class dm ≠ DMPrismI2 → dmm.2 = m))) in H1.
      - done.
      - split; [apply static_refl|done].
      - intros [d0 m0] s [d0' m0'] [Hs0 Hm0] Hup. simpl in *.
        apply update_static in Hup as [Hs' Hm'].
        split; [by eapply static_trans|].
        intros Hn. rewrite Hm', Hm0; [done|done|].
        destruct Hs0 as [Hc _]. simpl in Hc. congruence. }
    rewrite fmap_cons. split; [by constructor|].
    intros Hn. apply Forall_cons in Hn as [Hdm Hn]. simpl in Hdm.
    rewrite Hm2, Hm; done.
Qed.

End Kept.

(** When [harvest] returns, there are as many modules as before; each has
    its class, its data, its observation points, its norm and its tracked
    property as before, and its weight divided by the number of modules; and
    the mesh is as before when no module is of the second-invariant
    class. *)
Theorem harvest_keeps_modules sqrt pot (fuel : nat) (w w' : World)
    (res : Results) :
  harvest sqrt pot fuel w false = Some (Ok (res, w')) →
  Forall2 (λ dm dm',
             dm_class dm' = dm_class dm ∧ data dm' = data dm
             ∧ xp dm' = xp dm ∧ yp dm' = yp dm ∧ zp dm' = zp dm
             ∧ norm dm' = norm dm ∧ prop_type dm' = prop_type dm
             ∧ weight dm'
               = (weight dm / Qc_of_Z (Z.of_nat (length (dms w))))%Qc)
          (dms w) (dms w')
  ∧ (no_invariant (dms w) → mesh w' = mesh w).
Proof.
  intros H.
  apply harvest_Ok in H as (w1 & g & st' & Hsetup & Hloop & <- & _ & _).
  unfold harvest_setup in Hsetup.
  bind_inv Hsetup as first Hfirst.
  destruct (negb _); [discriminate|].
  bind_inv Hsetup as seeds1 Hinit. bind_inv Hsetup as dm Habs.
  destruct dm as [dms1 mesh1]. bind_inv Hsetup as goal Hgoal.
  injection Hsetup as <- <-.
  apply absorb_seeds_kept in Habs. apply solver_loop_kept in Hloop.
  simpl in Hloop.
  destruct (modules_kept_trans _ _ _ _ _ _ Habs Hloop) as [Hs Hm].
  split.
  - rewrite Forall2_fmap_l in Hs. eapply Forall2_impl; [exact Hs|].
    intros dm dm' (?&?&?&?&?&?&?&?). simpl in *. by split_and!.
  - intros Hn. apply Hm. unfold no_invariant in *.
    apply Forall_fmap. eapply Forall_impl; [exact Hn|]. done.
Qed.

Lemma harvest_keeps_modules_witness :
  ∃ res w',
    harvest sqrt_c unit_kernel 5 world_two_densities false = Some (Ok (res, w'))
    ∧ mesh w' = mesh world_two_densities.
Proof.
  destruct (harvest sqrt_c unit_kernel 5 world_two_densities false)
    as [[e|[res w']]|] eqn:H; [vm_compute in H; discriminate| |
                               vm_compute in H; discriminate].
  exists res, w'. split; [reflexivity|].
  destruct (harvest_keeps_modules _ _ _ _ _ _ H) as [_ Hm].
  apply Hm. repeat constructor. discriminate.
Defined.
